(** * Ordered-collection synchronisation engine of the todo-list client

    A shallow embedding of the web client's data model
    ([web-client/src/utils/type.ts], [states.ts]), of the initial load
    ([web-client/src/data/loadInitData.ts]), of the gesture handlers of
    [AddNewTask.tsx] and [ProjectButton.tsx], of the diagnostic script
    [web-client/src/data/analyze_chains.js], and of the chain operations,
    the bulk-transaction builder, the optimistic apply and the rollback.

    Around these: the pages [Todolist], [TodoColumn], [ProtectedPage]
    and [AIChatPanel] of the client, the utilities of the AI service
    ([sanitizeText], [validateTaskStructure], [cleanupOldMemories],
    [RateLimiter]) and its [IPRateLimiter], the origin check of the
    server and the way its chat route relays a failure of the AI
    service.

    Part I holds the definitions, Part II the properties. *)

From Stdlib Require Import Ascii String.
From stdpp Require Import gmap strings list fin_maps pretty sorting.

Set Warnings "-clear-no-such-hyp".

Open Scope string_scope.
Open Scope nat_scope.
Open Scope list_scope.

(** * Part I. Definitions *)

(** ** JavaScript runtime notions used by the sources *)

Module Js.

(** A thrown JavaScript value. *)
Inductive JsError : Type :=
| Error (msg : string)
| TypeError (msg : string)
| SyntaxError (msg : string)
| NetworkError (msg : string).

(** How the evaluation of a statement block ends. *)
Inductive Completion (A : Type) : Type :=
| Normal (a : A)
| Throw (e : JsError).
Arguments Normal {A} a.
Arguments Throw {A} e.

(** How a promise settles. *)
Inductive Settled (A : Type) : Type :=
| Fulfilled (a : A)
| Rejected (e : JsError).
Arguments Fulfilled {A} a.
Arguments Rejected {A} e.

(** Code with side effects on collaborators: the calls it makes, in
    order, and how it completes.  [E] is the type of observable calls. *)
Definition Eff (E A : Type) : Type := (list E * Completion A)%type.

Definition ret {E A} (a : A) : Eff E A := ([], Normal a).

Definition bind {E A B} (m : Eff E A) (k : A → Eff E B) : Eff E B :=
  match m with
  | (t, Normal a) => let '(t', r) := k a in (t ++ t', r)
  | (t, Throw e) => (t, Throw e)
  end.

(** The empty statement. *)
Definition skip {E} : Eff E unit := ([], Normal tt).

Definition emit {E} (e : E) : Eff E unit := ([e], Normal tt).

Definition throw {E A} (e : JsError) : Eff E A := ([], Throw e).

(** A call to a collaborator, completing the way the collaborator does. *)
Definition call {E A} (e : E) (r : Completion A) : Eff E A := ([e], r).

(** [try { body } catch (error) { handler }]. *)
Definition try_catch {E A} (body : Eff E A) (handler : JsError → Eff E A) : Eff E A :=
  match body with
  | (t, Normal a) => (t, Normal a)
  | (t, Throw e) => let '(t', r) := handler e in (t ++ t', r)
  end.

(** [await p]: resumes with the value of a fulfilled promise, throws the
    reason of a rejected one. *)
Definition await {E A} (p : Settled A) : Eff E A :=
  match p with
  | Fulfilled a => ret a
  | Rejected e => throw e
  end.

(** The settlement of the promise an [async] function returns. *)
Definition settle {A} (c : Completion A) : Settled A :=
  match c with
  | Normal a => Fulfilled a
  | Throw e => Rejected e
  end.

Definition trace {E A} (m : Eff E A) : list E := fst m.
Definition completion {E A} (m : Eff E A) : Completion A := snd m.

(** A computation that ends by throwing. *)
Definition throws {E A} (m : Eff E A) : Prop := ∃ e, completion m = Throw e.

(** Truthiness of a string-or-null value: [null] and the empty string
    are falsy. *)
Definition truthy (v : option string) : bool :=
  match v with
  | Some s => negb (String.eqb s "")
  | None => false
  end.

(** [String.prototype.trim] on a string held as UTF-8 bytes.  The code
    points ECMAScript strips are WhiteSpace (U+0009, U+000B, U+000C,
    U+0020, U+00A0, U+FEFF and category Zs) and LineTerminator (U+000A,
    U+000D, U+2028, U+2029); [white_space] lists their encodings. *)
Definition bytes (l : list nat) : list ascii := map ascii_of_nat l.

Definition white_space : list (list ascii) :=
  map bytes
    ([ [9]; [10]; [11]; [12]; [13]; [32]; [194; 160]; [225; 154; 128] ]
     ++ map (λ b, [226; 128; b]) (seq 128 11)
     ++ [ [226; 128; 168]; [226; 128; 169]; [226; 128; 175];
          [226; 129; 159]; [227; 128; 128]; [239; 187; 191] ]).

Fixpoint is_prefix (p l : list ascii) : bool :=
  match p, l with
  | [], _ => true
  | a :: p', b :: l' => Ascii.eqb a b && is_prefix p' l'
  | _ :: _, [] => false
  end.

(** The white-space encoding [l] starts with, if any. *)
Definition leading_space (ws : list (list ascii)) (l : list ascii) : option (list ascii) :=
  List.find (λ p, is_prefix p l) ws.

Fixpoint trim_start_fuel (fuel : nat) (ws : list (list ascii)) (l : list ascii) : list ascii :=
  match fuel with
  | O => l
  | S n =>
      match leading_space ws l with
      | Some p => trim_start_fuel n ws (drop (length p) l)
      | None => l
      end
  end.

Definition trim_start (l : list ascii) : list ascii :=
  trim_start_fuel (length l) white_space l.

Definition trim_end (l : list ascii) : list ascii :=
  rev (trim_start_fuel (length l) (map (@rev ascii) white_space) (rev l)).

Definition trim (s : string) : string :=
  string_of_list_ascii (trim_end (trim_start (list_ascii_of_string s))).

End Js.

Export Js.

Global Instance eff_ret {E} : MRet (Js.Eff E) := λ A, @Js.ret E A.
Global Instance eff_bind {E} : MBind (Js.Eff E) := λ A B k m, @Js.bind E A B m k.

(** ** Entity model ([web-client/src/utils/type.ts]) *)

Abbreviation TaskId := string (only parsing).
Abbreviation ProjectId := string (only parsing).
Abbreviation StatusId := string (only parsing).
Abbreviation UserId := string (only parsing).

(** A [Date] object, identified by the string it was built from. *)
Inductive Date : Type := MkDate (source : string).

(** An optional field that may also hold [null]
    ([dueDate?: Date | null]). *)
Inductive Optional (A : Type) : Type :=
| Undefined
| Null
| Defined (a : A).
Arguments Undefined {A}.
Arguments Null {A}.
Arguments Defined {A} a.

Module Task.

Record TaskType : Type := mk {
  id : TaskId;
  title : string;
  dueDate : Optional Date;
  description : option string;
  status : string;
  previousStatus : string;
  prev : option TaskId;
  next : option TaskId;
  userId : UserId
}.

(** [Partial<Omit<TaskType, 'userId'>>]: the [updatedFields] of an
    update operation; [None] is an absent field. *)
Record Partial : Type := mkPartial {
  id' : option TaskId;
  title' : option string;
  dueDate' : option (Optional Date);
  description' : option (option string);
  status' : option string;
  previousStatus' : option string;
  prev' : option (option TaskId);
  next' : option (option TaskId)
}.

Definition noFields : Partial := mkPartial None None None None None None None None.

(** The record after its [updatedFields] are written over it. *)
Definition merge (f : Partial) (t : TaskType) : TaskType :=
  {| id := default (id t) (id' f);
     title := default (title t) (title' f);
     dueDate := default (dueDate t) (dueDate' f);
     description := default (description t) (description' f);
     status := default (status t) (status' f);
     previousStatus := default (previousStatus t) (previousStatus' f);
     prev := default (prev t) (prev' f);
     next := default (next t) (next' f);
     userId := userId t |}.

End Task.

Module Project.

Record ProjectType : Type := mk {
  id : ProjectId;
  title : string;
  description : option string;
  prev : option ProjectId;
  next : option ProjectId;
  userId : UserId
}.

(** [Partial<Omit<ProjectType, 'userId'>>]. *)
Record Partial : Type := mkPartial {
  id' : option ProjectId;
  title' : option string;
  description' : option (option string);
  prev' : option (option ProjectId);
  next' : option (option ProjectId)
}.

Definition noFields : Partial := mkPartial None None None None None.

Definition merge (f : Partial) (p : ProjectType) : ProjectType :=
  {| id := default (id p) (id' f);
     title := default (title p) (title' f);
     description := default (description p) (description' f);
     prev := default (prev p) (prev' f);
     next := default (next p) (next' f);
     userId := userId p |}.

End Project.

Module Status.

Record StatusType : Type := mk {
  id : StatusId;
  title : string;
  description : string;
  color : string;
  project : ProjectId;
  prev : option StatusId;
  next : option StatusId;
  userId : UserId
}.

(** [Partial<Omit<StatusType, 'userId'>>]. *)
Record Partial : Type := mkPartial {
  id' : option StatusId;
  title' : option string;
  description' : option string;
  color' : option string;
  project' : option ProjectId;
  prev' : option (option StatusId);
  next' : option (option StatusId)
}.

Definition noFields : Partial := mkPartial None None None None None None None.

Definition merge (f : Partial) (s : StatusType) : StatusType :=
  {| id := default (id s) (id' f);
     title := default (title s) (title' f);
     description := default (description s) (description' f);
     color := default (color s) (color' f);
     project := default (project s) (project' f);
     prev := default (prev s) (prev' f);
     next := default (next s) (next' f);
     userId := userId s |}.

End Status.

Module UserProfile.

Record UserProfileData : Type := mk {
  id : option UserId;
  nickname : option string;
  lastProjectId : option ProjectId;
  avatarUrl : option string;
  language : option string
}.

(** [Partial<Omit<UserProfileData, 'id'>>]. *)
Record Partial : Type := mkPartial {
  nickname' : option (option string);
  lastProjectId' : option (option ProjectId);
  avatarUrl' : option (option string);
  language' : option (option string)
}.

Definition noFields : Partial := mkPartial None None None None.

Definition merge (f : Partial) (u : UserProfileData) : UserProfileData :=
  {| id := id u;
     nickname := default (nickname u) (nickname' f);
     lastProjectId := default (lastProjectId u) (lastProjectId' f);
     avatarUrl := default (avatarUrl u) (avatarUrl' f);
     language := default (language u) (language' f) |}.

End UserProfile.

Abbreviation TaskType := Task.TaskType.
Abbreviation ProjectType := Project.ProjectType.
Abbreviation StatusType := Status.StatusType.
Abbreviation UserProfileData := UserProfile.UserProfileData.

(** [Record<TaskId, TaskType>] and its siblings: objects used as maps
    from an identifier to the record stored under it. *)
Abbreviation TaskData := (gmap string TaskType).
Abbreviation ProjectData := (gmap string ProjectType).
Abbreviation StatusData := (gmap string StatusType).

(** [emptyUserProfile] of [states.ts]. *)
Definition emptyUserProfile : UserProfileData :=
  {| UserProfile.id := None;
     UserProfile.nickname := None;
     UserProfile.lastProjectId := None;
     UserProfile.avatarUrl := None;
     UserProfile.language := None |}.

Global Instance Date_eq_dec : EqDecision Date.
Proof. solve_decision. Defined.
Global Instance Optional_eq_dec {A} `{EqDecision A} : EqDecision (Optional A).
Proof. solve_decision. Defined.
Global Instance TaskType_eq_dec : EqDecision TaskType.
Proof. solve_decision. Defined.
Global Instance ProjectType_eq_dec : EqDecision ProjectType.
Proof. solve_decision. Defined.
Global Instance StatusType_eq_dec : EqDecision StatusType.
Proof. solve_decision. Defined.
Global Instance UserProfileData_eq_dec : EqDecision UserProfileData.
Proof. solve_decision. Defined.

(** The working copy: the entity part of [States] ([states.ts]); the
    remaining members of [States] are display flags. *)
Record States : Type := mkStates {
  tasks : TaskData;
  projects : ProjectData;
  statuses : StatusData;
  userProfile : UserProfileData
}.

(** [BulkPayload]: the operation list and the backup of one gesture. *)
Inductive OpType : Type := task | project | status | userProfile_.
Inductive Operation : Type := add | update | delete_.

Inductive OpData : Type :=
| NewTask (t : TaskType)
| NewProject (p : ProjectType)
| NewStatus (s : StatusType)
| NewUserProfile (u : UserProfileData)
| TaskFields (id : TaskId) (updatedFields : Task.Partial)
| ProjectFields (id : ProjectId) (updatedFields : Project.Partial)
| StatusFields (id : StatusId) (updatedFields : Status.Partial)
| UserProfileFields (id : UserId) (updatedFields : UserProfile.Partial)
| OnlyId (id : string).

Record Op : Type := mkOp {
  type : OpType;
  operation : Operation;
  data : OpData
}.

(** The [backup] member: three maps of records and the user profile,
    which is always there. *)
Record Backup : Type := mkBackup {
  b_statuses : StatusData;
  b_tasks : TaskData;
  b_projects : ProjectData;
  b_userProfile : UserProfileData
}.

Record BulkPayload : Type := mkBulkPayload {
  ops : list Op;
  backup : Backup
}.

(** ** Initial load ([web-client/src/data/loadInitData.ts]) *)

Module LoadInitData.

(** A task as the server's JSON carries it: the due date is still a
    string (or missing). *)
Record TaskJson : Type := mkTaskJson {
  j_id : TaskId;
  j_title : string;
  j_dueDate : option string;
  j_description : option string;
  j_status : string;
  j_previousStatus : string;
  j_prev : option TaskId;
  j_next : option TaskId;
  j_userId : UserId
}.

(** The value [res.json()] yields.  A member that is not an array (or
    a profile that is [null] or missing) is [None]; so is an array
    element that is [null]. *)
Record Body : Type := mkBody {
  body_tasks : option (list (option TaskJson));
  body_projects : option (list (option ProjectType));
  body_statuses : option (list (option StatusType));
  body_userProfile : option UserProfileData
}.

Inductive JsonResult : Type :=
| JsonRejects (e : JsError)     (* the body is not JSON *)
| JsonNullish                   (* the body is [null]: destructuring throws *)
| JsonValue (b : Body).

Record Response : Type := mkResponse {
  ok : bool;
  status : nat;
  json : JsonResult
}.

(** What [fetch('/api/getAll', ...)] settles to. *)
Inductive FetchResult : Type :=
| FetchRejects (e : JsError)
| FetchResolves (res : Response).

(** The collaborators [loadAllData] calls. *)
Inductive Call : Type :=
| Fetch (url : string)
| Navigate (path : string)
| SetTimeout (taskId : TaskId)
| ConsoleError (msg : string).

Record LoadedData : Type := mkLoaded {
  taskData : TaskData;
  projectData : ProjectData;
  statusData : StatusData;
  userProfileData : UserProfileData
}.

Definition emptyLoaded : LoadedData :=
  {| taskData := ∅; projectData := ∅; statusData := ∅;
     userProfileData := emptyUserProfile |}.

(** [task.dueDate ? new Date(task.dueDate) : undefined]. *)
Definition toDueDate (d : option string) : Optional Date :=
  if truthy d then match d with Some s => Defined (MkDate s) | None => Undefined end
  else Undefined.

Definition toTask (t : TaskJson) : TaskType :=
  {| Task.id := j_id t;
     Task.title := j_title t;
     Task.dueDate := toDueDate (j_dueDate t);
     Task.description := j_description t;
     Task.status := j_status t;
     Task.previousStatus := j_previousStatus t;
     Task.prev := j_prev t;
     Task.next := j_next t;
     Task.userId := j_userId t |}.

(** [data[id] = record] on an object that was created as [{}].  Under
    the name [__proto__] the assignment goes to the setter the object
    inherits from [Object.prototype]: the record becomes the prototype
    of the object and no member is stored.  Under every other name a
    member is created or overwritten. *)
Definition assign {R} (id : string) (record : R) (data : gmap string R) : gmap string R :=
  if String.eqb id "__proto__" then data else <[id := record]> data.

(** The callback of [tasks.map], run over the array from left to
    right; reading a member of a [null] element throws. *)
Fixpoint mapTasks (l : list (option TaskJson)) (taskData : TaskData) : Eff Call TaskData :=
  match l with
  | [] => ret taskData
  | None :: _ => throw (TypeError "Cannot read properties of null")
  | Some t :: l' =>
      emit (SetTimeout (j_id t));;
      mapTasks l' (assign (j_id t) (toTask t) taskData)
  end.

Fixpoint mapProjects (l : list (option ProjectType)) (projectData : ProjectData)
  : Eff Call ProjectData :=
  match l with
  | [] => ret projectData
  | None :: _ => throw (TypeError "Cannot read properties of null")
  | Some p :: l' => mapProjects l' (assign (Project.id p) p projectData)
  end.

Fixpoint mapStatuses (l : list (option StatusType)) (statusData : StatusData)
  : Eff Call StatusData :=
  match l with
  | [] => ret statusData
  | None :: _ => throw (TypeError "Cannot read properties of null")
  | Some s :: l' => mapStatuses l' (assign (Status.id s) s statusData)
  end.

(** Calling [.map] on a member, which throws when it is not an array. *)
Definition arrayOf {A} (member : option (list A)) : Eff Call (list A) :=
  match member with
  | Some l => ret l
  | None => throw (TypeError "map is not a function")
  end.

Section loadAllData.

(** The [navigate] argument, of type [any] in the source. *)
Variable navigate : string → Eff Call unit.

(** The block guarded by [try]. *)
Definition loadAllData_try (net : FetchResult) : Eff Call LoadedData :=
  emit (Fetch "/api/getAll");;
  res ← await (match net with
               | FetchRejects e => Rejected e
               | FetchResolves res => Fulfilled res
               end);
  (if negb (ok res) then
     if Nat.eqb (status res) 401 then
       navigate "/login";;
       throw (Error "Unauthorized access, redirecting to login")
     else throw (Error "Failed to add task")
   else skip);;
  body ← match json res with
         | JsonRejects e => throw e
         | JsonNullish => throw (TypeError "Cannot destructure")
         | JsonValue b => ret b
         end;
  tasks ← arrayOf (body_tasks body);
  taskData ← mapTasks tasks ∅;
  projects ← arrayOf (body_projects body);
  projectData ← mapProjects projects ∅;
  statuses ← arrayOf (body_statuses body);
  statusData ← mapStatuses statuses ∅;
  userProfile ← match body_userProfile body with
                | Some u => ret u
                | None => throw (TypeError "Cannot read properties of undefined")
                end;
  ret {| taskData := taskData; projectData := projectData;
          statusData := statusData;
          userProfileData :=
            {| UserProfile.id := UserProfile.id userProfile;
               UserProfile.nickname := UserProfile.nickname userProfile;
               UserProfile.lastProjectId := UserProfile.lastProjectId userProfile;
               UserProfile.avatarUrl := UserProfile.avatarUrl userProfile;
               UserProfile.language := UserProfile.language userProfile |} |}.

Definition loadAllData_body (net : FetchResult) : Eff Call LoadedData :=
  try_catch (loadAllData_try net)
    (λ error,
       emit (ConsoleError "Error loading test tasks:");;
       ret emptyLoaded).

(** The promise the [async] function returns. *)
Definition loadAllData (net : FetchResult) : Settled LoadedData :=
  settle (completion (loadAllData_body net)).

End loadAllData.

(** The ways the load can fail: the request itself, a response that is
    not OK, or an error while the response is processed. *)
Inductive LoadFailure : FetchResult → Prop :=
| fail_fetch e : LoadFailure (FetchRejects e)
| fail_not_ok res : ok res = false → LoadFailure (FetchResolves res)
| fail_json res e : json res = JsonRejects e → LoadFailure (FetchResolves res)
| fail_nullish res : json res = JsonNullish → LoadFailure (FetchResolves res)
| fail_tasks res b :
    json res = JsonValue b →
    (body_tasks b = None ∨ ∃ l, body_tasks b = Some l ∧ None ∈ l) →
    LoadFailure (FetchResolves res)
| fail_projects res b :
    json res = JsonValue b →
    (body_projects b = None ∨ ∃ l, body_projects b = Some l ∧ None ∈ l) →
    LoadFailure (FetchResolves res)
| fail_statuses res b :
    json res = JsonValue b →
    (body_statuses b = None ∨ ∃ l, body_statuses b = Some l ∧ None ∈ l) →
    LoadFailure (FetchResolves res)
| fail_profile res b :
    json res = JsonValue b → body_userProfile b = None →
    LoadFailure (FetchResolves res).

(** The response for an account without any data. *)
Definition noDataResponse : Response :=
  {| ok := true; status := 200;
     json := JsonValue {| body_tasks := Some []; body_projects := Some [];
                          body_statuses := Some [];
                          body_userProfile := Some emptyUserProfile |} |}.

End LoadInitData.

(** ** Gesture handlers ([AddNewTask.tsx], [ProjectButton.tsx])

    The helpers of [utils/utils.ts] and the actions of
    [utils/actions.ts] are collaborators here: a handler is described by
    the calls it makes to them, and [World] says how each call ends. *)

Module Gesture.

(** Which of the handler's two local variables is passed to a helper. *)
Inductive Var : Type := payload_var | backup_var.

(** The [newTask] object literal of [AddNewTask.tsx]. *)
Record NewTask : Type := mkNewTask {
  nt_title : string;
  nt_status : string;
  nt_previousStatus : string;
  nt_projectId : option ProjectId;
  nt_prev : option TaskId;
  nt_next : option TaskId;
  nt_userId : option UserId
}.

Inductive Call : Type :=
| SetInputValue (v : string)
| Blur
| SetIsEditing (b : bool)
| SetShowCompleted (b : bool)
| SetShowDeleted (b : bool)
| StopPropagation
| Confirm (msg : string)
| ConsoleError (msg : string)
| ConsoleLog (msg : string)
| CreateBulkPayload
| CreateBackup (payload : Var)
| AddTask (newTask : NewTask) (payload : Var) (flag : bool)
| FocusProject (id : ProjectId) (payload : Var)
| UpdateProject (id : ProjectId) (title : string) (payload : Var)
| DeleteProject (id : ProjectId) (payload : Var)
| OptimisticUIUpdate (payload : Var)
| PostPayloadToServer (url : string) (payload : Var)
| RestoreBackup (payload : Var).

(** How the collaborators behave during one gesture. *)
Record World : Type := mkWorld {
  action_result : Completion unit;           (* the [actions.*] call *)
  apply_result : Completion unit;            (* [optimisticUIUpdate] *)
  post_result : Completion (Settled unit);   (* [postPayloadToServer] *)
  confirm_result : bool                      (* [window.confirm] *)
}.

Record KeyboardEvent : Type := mkKey {
  key : string;
  value : string   (* [event.currentTarget.value] *)
}.

(** The calls that belong to a bulk transaction. *)
Definition builds_transaction (c : Call) : bool :=
  match c with
  | CreateBulkPayload | CreateBackup _ => true
  | AddTask _ _ _ | FocusProject _ _ | UpdateProject _ _ _ | DeleteProject _ _ => true
  | _ => false
  end.

Definition touches_working_copy (c : Call) : bool :=
  match c with
  | OptimisticUIUpdate _ | RestoreBackup _ => true
  | _ => false
  end.

Definition submits (c : Call) : bool :=
  match c with
  | PostPayloadToServer _ _ => true
  | _ => false
  end.

(** A call that is no part of a transaction: it neither builds one,
    nor touches the working copy, nor submits anything. *)
Definition outside_transaction (c : Call) : Prop :=
  builds_transaction c = false ∧ touches_working_copy c = false ∧ submits c = false.

Definition is_apply (c : Call) : bool :=
  match c with OptimisticUIUpdate _ => true | _ => false end.

Definition is_rollback (c : Call) : bool :=
  match c with RestoreBackup _ => true | _ => false end.

(** The remote commit of the gesture failed: the promise of
    [postPayloadToServer] is rejected. *)
Definition commit_fails (w : World) : Prop :=
  ∃ e, post_result w = Normal (Rejected e).

(** The local part of the gesture went through. *)
Definition local_apply_succeeds (w : World) : Prop :=
  action_result w = Normal tt ∧ apply_result w = Normal tt.

End Gesture.

Module AddNewTask.

Import Gesture.

Section handleKeyboard.

Variable w : World.
Variable states : States.
Variable status : string.   (* the [status] prop of the component *)

Definition handleKeyboard (e : KeyboardEvent) : Eff Call unit :=
  let event := e in
  (if String.eqb (key event) "Enter" then
     let newTaskTitle := trim (value event) in
     emit (SetInputValue "");;
     if negb (String.eqb newTaskTitle "") then
       let newTask :=
         {| nt_title := newTaskTitle;
            nt_status := status;
            nt_previousStatus := status;
            nt_projectId := UserProfile.lastProjectId (userProfile states);
            nt_prev := None;
            nt_next := None;
            nt_userId := UserProfile.id (userProfile states) |} in
       emit CreateBulkPayload;;
       emit (CreateBackup payload_var);;
       try_catch
         (call (AddTask newTask backup_var true) (action_result w);;
          call (OptimisticUIUpdate backup_var) (apply_result w);;
          promise ← call (PostPayloadToServer "/api/bulk" backup_var) (post_result w);
          await promise)
         (λ error,
            emit (ConsoleError "Error adding new task:");;
            emit (RestoreBackup backup_var))
     else skip
   else skip);;
  (if String.eqb (key event) "Escape" then
     emit (SetInputValue "");;
     emit Blur
   else skip).

End handleKeyboard.

End AddNewTask.

Module ProjectButton.

Import Gesture.

Section ProjectButton.

Variable w : World.
Variable project : ProjectId * ProjectType.   (* the [project] prop *)

(** [postPayloadToServer] is called without [await]: its promise is
    dropped, only an exception thrown by the call itself reaches the
    [catch] clause. *)
Definition handleClick : Eff Call unit :=
  emit CreateBulkPayload;;
  emit (CreateBackup payload_var);;
  emit (SetShowCompleted false);;
  emit (SetShowDeleted false);;
  try_catch
    (call (FocusProject (fst project) payload_var) (action_result w);;
     call (OptimisticUIUpdate payload_var) (apply_result w);;
     promise ← call (PostPayloadToServer "/api/bulk" payload_var) (post_result w);
     skip)
    (λ error,
       emit (ConsoleError "Error focusing project:");;
       emit (RestoreBackup backup_var)).

Definition handlePressEnterAndEscape (e : KeyboardEvent) : Eff Call unit :=
  let event := e in
  let oldTitle := Project.title (snd project) in
  let after_enter : Eff Call bool :=   (* [true]: the handler returned *)
    if String.eqb (key event) "Enter" then
      let newTitle := value event in
      if String.eqb (trim newTitle) "" then
        emit (SetInputValue oldTitle);;
        emit Blur;;
        emit (SetIsEditing false);;
        ret true
      else if String.eqb newTitle oldTitle then
        emit Blur;;
        emit (SetIsEditing false);;
        ret true
      else
        emit Blur;;
        emit (SetIsEditing false);;
        emit CreateBulkPayload;;
        emit (CreateBackup payload_var);;
        try_catch
          (call (UpdateProject (fst project) newTitle payload_var) (action_result w);;
           call (OptimisticUIUpdate payload_var) (apply_result w);;
           promise ← call (PostPayloadToServer "/api/bulk" payload_var) (post_result w);
           skip)
          (λ error,
             emit (ConsoleError "Error updating project title:");;
             emit (RestoreBackup backup_var));;
        ret false
    else ret false in
  after_enter ≫= λ returned : bool,
  if returned then skip
  else if String.eqb (key event) "Escape" then
    emit Blur;;
    emit (SetIsEditing false);;
    emit (SetInputValue oldTitle)
  else skip.

Definition handleDeleteButton : Eff Call unit :=
  emit StopPropagation;;
  emit (Confirm ("Are you sure you want to delete the project: "
                 +:+ Project.title (snd project)
                 +:+ "? You cannot undo this action and all tasks will gone!"));;
  if confirm_result w then
    emit CreateBulkPayload;;
    emit (CreateBackup payload_var);;
    try_catch
      (call (DeleteProject (fst project) backup_var) (action_result w);;
       call (OptimisticUIUpdate backup_var) (apply_result w);;
       promise ← call (PostPayloadToServer "/api/bulk" backup_var) (post_result w);
       emit (ConsoleLog "tasks after deletion"))
      (λ error,
         emit (ConsoleError "Error deleting project:");;
         emit (RestoreBackup backup_var));;
    emit (ConsoleLog ("Delete button clicked for project: "
                      +:+ Project.title (snd project)))
  else skip.

End ProjectButton.

End ProjectButton.

(** ** Chain diagnostics ([web-client/src/data/analyze_chains.js]) *)

Module AnalyzeChains.

(** The test data the script reads, [JSON.parse] of the file.  Only
    [taskList] is read by [checkTaskChains]; each of the three objects
    is given by its members as the file has them, from first to last. *)
Record Data : Type := mkData {
  taskList : list (TaskId * TaskType);
  projectList : list (ProjectId * ProjectType);
  statusList : list (StatusId * StatusType)
}.

(** *** Objects used as maps *)

(** The names [Object.prototype] has members for.  An object that
    does not hold such a name itself still yields a value under it:
    a function, or the prototype under [__proto__]. *)
Definition inherited : list string :=
  ["constructor"; "__defineGetter__"; "__defineSetter__"; "hasOwnProperty";
   "__lookupGetter__"; "__lookupSetter__"; "isPrototypeOf";
   "propertyIsEnumerable"; "toString"; "valueOf"; "__proto__"; "toLocaleString"].

(** [JSON.parse] on the members of an object: the object holds its
    properties in the order of their creation; a member whose name
    occurred before replaces the value and keeps the place. *)
Definition define {A} (o : list (string * A)) (member : string * A) : list (string * A) :=
  if existsb (λ e, String.eqb e.1 member.1) o
  then map (λ e, if String.eqb e.1 member.1 then (e.1, member.2) else e) o
  else o ++ [member].

Definition parse {A} (members : list (string * A)) : list (string * A) :=
  foldl define [] members.

(** A property name that is an array index: the decimal numeral,
    without sign and leading zeros, of a number below [2^32 - 1]. *)
Definition digit (c : ascii) : option N :=
  let n := N_of_ascii c in
  if (48 <=? n)%N && (n <=? 57)%N then Some (n - 48)%N else None.

Fixpoint decimal (acc : N) (s : string) : option N :=
  match s with
  | EmptyString => Some acc
  | String c s' =>
      match digit c with
      | Some d => decimal (10 * acc + d)%N s'
      | None => None
      end
  end.

Definition arrayIndex (key : string) : option N :=
  match key with
  | EmptyString => None
  | String c rest =>
      if Ascii.eqb c "0" && negb (String.eqb rest "") then None
      else match decimal 0 key with
           | Some n => if (n <? 2 ^ 32 - 1)%N then Some n else None
           | None => None
           end
  end.

Definition indexOf {A} (e : string * A) : N := default 0%N (arrayIndex e.1).

Definition byIndex {A} (e1 e2 : string * A) : Prop := (indexOf e1 ≤ indexOf e2)%N.

Global Instance byIndex_dec {A} (e1 e2 : string * A) : Decision (byIndex e1 e2).
Proof. unfold byIndex. apply _. Defined.

(** The order in which [Object.values] and [Object.entries] go through
    the properties of an object: the array indices first, ascending,
    then the other names in the order of their creation. *)
Definition ownEntries {A} (o : list (string * A)) : list (string * A) :=
  merge_sort byIndex
    (filter (λ e, is_Some (arrayIndex e.1)) o)
  ++ filter (λ e, ¬ is_Some (arrayIndex e.1)) o.

(** [Object.values(tasks)], for the object with the members [tasks]. *)
Definition values (tasks : list (TaskId * TaskType)) : list TaskType :=
  (ownEntries (parse tasks)).*2.

(** What [tasks[id]] evaluates to: a task the object holds, a member
    of [Object.prototype], or [undefined]. *)
Inductive Member : Type :=
| Own (task : TaskType)
| Inherited
| Missing.

Definition lookupTask (tasks : list (TaskId * TaskType)) (id : TaskId) : Member :=
  match List.find (λ entry, String.eqb (fst entry) id) (parse tasks) with
  | Some entry => Own (snd entry)
  | None => if bool_decide (id ∈ inherited) then Inherited else Missing
  end.

(** What an entry of [issues] says; [message] gives its text. *)
Inductive Issue : Type :=
| HeadCount (statusId : string) (heads : nat)
| Cycle (statusId : string) (taskId : TaskId)
| MissingNext (taskId : TaskId) (next : TaskId)
| Inconsistent (taskId : TaskId) (nextId : TaskId)
| OtherStatus (taskId : TaskId) (nextId : TaskId)
| LengthMismatch (statusId : string) (chainLength total : nat).

Definition message (i : Issue) : string :=
  match i with
  | HeadCount statusId heads =>
      "状态 " +:+ statusId +:+ " 有 " +:+ pretty heads +:+ " 个链表头，应该只有1个"
  | Cycle statusId taskId =>
      "状态 " +:+ statusId +:+ " 的任务链中发现循环，任务ID: " +:+ taskId
  | MissingNext taskId next =>
      "任务 " +:+ taskId +:+ " 的 next 指向不存在的任务: " +:+ next
  | Inconsistent taskId nextId =>
      "任务 " +:+ taskId +:+ " 和 " +:+ nextId +:+ " 之间的双向链接不一致"
  | OtherStatus taskId nextId =>
      "任务 " +:+ taskId +:+ " 的 next 指向不同状态的任务: " +:+ nextId
  | LengthMismatch statusId chainLength total =>
      "状态 " +:+ statusId +:+ " 的链表长度 (" +:+ pretty chainLength
        +:+ ") 与任务总数 (" +:+ pretty total +:+ ") 不匹配"
  end.

(** One iteration of the [forEach] that groups the tasks: the task is
    pushed on the array of its status, which is created on first use.
    [tasksByStatus] starts as [{}]: under a name of [inherited] it
    yields a member of [Object.prototype], so no array is created and
    the call of [push] throws. *)
Definition pushTask (tasksByStatus : list (string * list TaskType)) (task : TaskType)
  : Completion (list (string * list TaskType)) :=
  if existsb (λ entry, String.eqb (fst entry) (Task.status task)) tasksByStatus then
    Normal (map (λ entry, if String.eqb (fst entry) (Task.status task)
                          then (fst entry, snd entry ++ [task]) else entry) tasksByStatus)
  else if bool_decide (Task.status task ∈ inherited) then
    Throw (TypeError "tasksByStatus[task.status].push is not a function")
  else Normal (tasksByStatus ++ [(Task.status task, [task])]).

Fixpoint forEachTask (tasksByStatus : list (string * list TaskType)) (tasks : list TaskType)
  : Completion (list (string * list TaskType)) :=
  match tasks with
  | [] => Normal tasksByStatus
  | t :: rest =>
      match pushTask tasksByStatus t with
      | Normal tasksByStatus' => forEachTask tasksByStatus' rest
      | Throw e => Throw e
      end
  end.

(** The properties of [tasksByStatus] after the loop, in the order of
    their creation. *)
Definition groupByStatus (tasks : list (TaskId * TaskType))
  : Completion (list (string * list TaskType)) :=
  forEachTask [] (values tasks).

(** The [while (current)] loop.  Every iteration that does not leave
    the loop adds a new identifier to [visited], so it runs at most
    once more than there are tasks; [fuel] is that bound.  When
    [tasks[current.next]] is a member of [Object.prototype], neither
    its [prev] nor its [status] is what the checks expect, its [id]
    reads [undefined], and the loop ends on it after one more
    iteration, since it has no [next]. *)
Fixpoint walk (fuel : nat) (tasks : list (TaskId * TaskType)) (statusId : string)
    (current : TaskType) (visited : gset TaskId) (chainLength : nat)
  : list Issue * nat :=
  match fuel with
  | O => ([], chainLength)
  | S fuel' =>
      let chainLength := S chainLength in
      if bool_decide (Task.id current ∈ visited) then
        ([Cycle statusId (Task.id current)], chainLength)
      else
        let visited := {[Task.id current]} ∪ visited in
        if truthy (Task.next current) then
          let next := default "" (Task.next current) in
          match lookupTask tasks next with
          | Missing => ([MissingNext (Task.id current) next], chainLength)
          | Inherited =>
              ([Inconsistent (Task.id current) "undefined";
                OtherStatus (Task.id current) "undefined"], S chainLength)
          | Own nextTask =>
              let inconsistent :=
                if bool_decide (Task.prev nextTask = Some (Task.id current)) then []
                else [Inconsistent (Task.id current) (Task.id nextTask)] in
              let otherStatus :=
                if String.eqb (Task.status nextTask) statusId then []
                else [OtherStatus (Task.id current) (Task.id nextTask)] in
              let '(rest, n) := walk fuel' tasks statusId nextTask visited chainLength in
              (inconsistent ++ otherStatus ++ rest, n)
          end
        else ([], chainLength)
  end.

(** [task.prev === null]. *)
Definition isHead (task : TaskType) : Prop := Task.prev task = None.

Global Instance isHead_dec task : Decision (isHead task).
Proof. unfold isHead. apply _. Defined.

(** The body of the [forEach] over the entries of [tasksByStatus]. *)
Definition checkStatus (tasks : list (TaskId * TaskType))
    (entry : string * list TaskType) : list Issue :=
  let '(statusId, tasksInStatus) := entry in
  let heads := filter isHead tasksInStatus in
  (if Nat.eqb (length heads) 1 then [] else [HeadCount statusId (length heads)])
  ++ match heads with
     | head :: _ =>
         let '(found, chainLength) :=
           walk (S (length tasks)) tasks statusId head ∅ 0 in
         found ++
         (if Nat.eqb chainLength (length tasksInStatus) then []
          else [LengthMismatch statusId chainLength (length tasksInStatus)])
     | [] => []
     end.

(** The [issues] array at the end, unless the grouping threw. *)
Definition findIssues (data : Data) : Completion (list Issue) :=
  let tasks := taskList data in
  match groupByStatus tasks with
  | Normal tasksByStatus => Normal (flat_map (checkStatus tasks) (ownEntries tasksByStatus))
  | Throw e => Throw e
  end.

(** [checkTaskChains()]: the array it returns, or what it throws. *)
Definition checkTaskChains (data : Data) : Completion (list string) :=
  match findIssues data with
  | Normal issues => Normal (map message issues)
  | Throw e => Throw e
  end.

(** The tasks of one status, and which of them have no [next]. *)
Definition tasksInStatus (data : Data) (statusId : string) : list TaskType :=
  filter (λ task, Task.status task = statusId) (values (taskList data)).

Definition isTail (task : TaskType) : Prop := truthy (Task.next task) = false.

Global Instance isTail_dec task : Decision (isTail task).
Proof. unfold isTail. apply _. Defined.

(** The tasks the loop goes through after [current] when it raises no
    issue: each is the [next] of the one before, points back at it and
    has the status walked; the last one has no [next]. *)
Fixpoint linked_path (tasks : list (TaskId * TaskType)) (statusId : string)
    (current : TaskType) (path : list TaskType) : Prop :=
  match path with
  | [] => truthy (Task.next current) = false
  | nextTask :: rest =>
      truthy (Task.next current) = true
      ∧ lookupTask tasks (default "" (Task.next current)) = Own nextTask
      ∧ Task.prev nextTask = Some (Task.id current)
      ∧ Task.status nextTask = statusId
      ∧ linked_path tasks statusId nextTask rest
  end.

(** A snapshot as the loader builds it: every record is stored once,
    under its own identifier, and no link is the empty string. *)
Definition keyed_by_id (tasks : list (TaskId * TaskType)) : Prop :=
  NoDup tasks.*1
  ∧ Forall (λ entry, Task.id entry.2 = entry.1
                     ∧ Task.next entry.2 ≠ Some "") tasks.

Global Instance keyed_by_id_dec tasks : Decision (keyed_by_id tasks).
Proof. unfold keyed_by_id. apply _. Defined.

(** What [tasksByStatus] holds once the tasks [seen] were pushed. *)
Definition grouped (seen : list TaskType) (groups : list (string * list TaskType)) : Prop :=
  (∀ statusId members, (statusId, members) ∈ groups →
     members = filter (λ task, Task.status task = statusId) seen ∧ members ≠ [])
  ∧ (∀ task, task ∈ seen → Task.status task ∈ groups.*1).

(** The identifiers the tasks carry. *)
Definition idsOf (tasks : list (TaskId * TaskType)) : gset TaskId := list_to_set (Task.id <$> values tasks).

End AnalyzeChains.

(** ** Chain operations on one kind of record

    [utils/utils.ts] and [utils/actions.ts], which hold the chain
    operations, the transaction builder, [optimisticUIUpdate] and
    [restoreBackup], are not among the sources: this section and the
    next are modelled from the specification, over the record types of
    [type.ts]. *)

(** What the three ordered kinds have in common: a partition key, the
    two links, and [updatedFields] that can rewrite them. *)
Class Linked (R : Type) : Type := {
  Key : Type;
  Key_eq_dec : EqDecision Key;
  Fields : Type;
  rid : R → string;
  rkey : R → Key;
  rprev : R → option string;
  rnext : R → option string;
  merge : Fields → R → R;
  (** [updatedFields] that hold [prev], [next], or both. *)
  links : option (option string) → option (option string) → Fields;
  (** [updatedFields] of a move of [r]: the new partition key and
      links (for a task also [previousStatus], the key [r] holds). *)
  placed : R → Key → option string → option string → Fields
}.

Global Existing Instance Key_eq_dec.

Global Instance TaskLinked : Linked TaskType := {|
  Key := string;
  Key_eq_dec := _;
  Fields := Task.Partial;
  rid := Task.id;
  rkey := Task.status;
  rprev := Task.prev;
  rnext := Task.next;
  merge := Task.merge;
  links p n := Task.mkPartial None None None None None None p n;
  placed r k p n :=
    Task.mkPartial None None None None (Some k) (Some (Task.status r)) (Some p) (Some n)
|}.

(** All projects of the working copy form one partition. *)
Global Instance ProjectLinked : Linked ProjectType := {|
  Key := unit;
  Key_eq_dec := _;
  Fields := Project.Partial;
  rid := Project.id;
  rkey _ := tt;
  rprev := Project.prev;
  rnext := Project.next;
  merge := Project.merge;
  links p n := Project.mkPartial None None None p n;
  placed r k p n := Project.mkPartial None None None (Some p) (Some n)
|}.

Global Instance StatusLinked : Linked StatusType := {|
  Key := string;
  Key_eq_dec := _;
  Fields := Status.Partial;
  rid := Status.id;
  rkey := Status.project;
  rprev := Status.prev;
  rnext := Status.next;
  merge := Status.merge;
  links p n := Status.mkPartial None None None None None p n;
  placed r k p n := Status.mkPartial None None None None (Some k) (Some p) (Some n)
|}.

(** What [merge] does to the key and the links when the
    [updatedFields] come from [links] or [placed]. *)
Class LinkedLaws (R : Type) `{Linked R} : Prop := {
  rid_links p n r : rid (merge (links p n) r) = rid r;
  rkey_links p n r : rkey (merge (links p n) r) = rkey r;
  rprev_links p n r : rprev (merge (links p n) r) = default (rprev r) p;
  rnext_links p n r : rnext (merge (links p n) r) = default (rnext r) n;
  rkey_placed r0 k p n r : rkey (merge (placed r0 k p n) r) = k;
  rprev_placed r0 k p n r : rprev (merge (placed r0 k p n) r) = p;
  rnext_placed r0 k p n r : rnext (merge (placed r0 k p n) r) = n
}.

(** A primitive operation on the records of one kind: the [add],
    [update] and [delete] of [BulkPayload.ops]. *)
Inductive Mutation (R : Type) `{Linked R} : Type :=
| MAdd (r : R)
| MUpdate (id : string) (updatedFields : Fields)
| MDelete (id : string).
Arguments MAdd {R _} r.
Arguments MUpdate {R _} id updatedFields.
Arguments MDelete {R _} id.

Section Chain.

Context {R : Type} `{Linked R}.

Implicit Types (m : gmap string R) (k : Key) (id : string).

(** The record an operation is aimed at. *)
Definition target (o : Mutation R) : string :=
  match o with
  | MAdd r => rid r
  | MUpdate id _ => id
  | MDelete id => id
  end.

(** Modelled from the spec: the effect of one primitive operation on
    the working copy (the per-kind part of [optimisticUIUpdate], which
    is missing); an update or delete of an absent record changes
    nothing. *)
Definition run_mutation (m : gmap string R) (o : Mutation R) : gmap string R :=
  match o with
  | MAdd r => <[rid r := r]> m
  | MUpdate id f => alter (merge f) id m
  | MDelete id => delete id m
  end.

(** Modelled from the spec: operations are replayed in append order
    (the loop of the missing [optimisticUIUpdate]). *)
Definition run (ops : list (Mutation R)) (m : gmap string R) : gmap string R :=
  foldl run_mutation m ops.

(** The records claiming partition [k], as [Object.values(..).filter]
    enumerates them. *)
Definition members m k : list (string * R) :=
  filter (λ e, rkey e.2 = k) (map_to_list m).

Definition heads m k : list (string * R) :=
  filter (λ e, rprev e.2 = None) (members m k).

Definition tails m k : list (string * R) :=
  filter (λ e, rnext e.2 = None) (members m k).

(** The head of a partition: the first member with [prev = null]
    ([tasksInStatus.find(task => task.prev === null)] in
    [AIChatPanel.tsx]). *)
Definition head_of m k : option string := fst <$> head (heads m k).

(** Modelled from the spec: the neighbours a record gets when linked in
    after [afterId] (part of the missing [insert]): the head position
    for [null], else directly after [afterId]. *)
Definition slot m k (afterId : option string) : option string * option string :=
  match afterId with
  | None => (None, head_of m k)
  | Some a => (Some a, m !! a ≫= rnext)
  end.

(** Modelled from the spec: the updates that point the new neighbours
    at record [id] (part of the missing [insert]). *)
Definition relink id (pn : option string * option string) : list (Mutation R) :=
  match pn.1 with
  | Some a => [MUpdate a (links None (Some (Some id)))]
  | None => []
  end ++
  match pn.2 with
  | Some b => [MUpdate b (links (Some (Some id)) None)]
  | None => []
  end.

(** Modelled from the spec: [insert(newRecord, afterId | null)] of the
    missing chain operations.  Two or three records are touched. *)
Definition insert m (newRecord : R) (afterId : option string) : list (Mutation R) :=
  let pn := slot m (rkey newRecord) afterId in
  MAdd (merge (links (Some pn.1) (Some pn.2)) newRecord) :: relink (rid newRecord) pn.

(** Modelled from the spec: [unlink(id)] of the missing chain
    operations: predecessor and successor are spliced together. *)
Definition unlink m id : list (Mutation R) :=
  match m !! id with
  | None => []
  | Some r =>
      match rprev r with
      | Some a => [MUpdate a (links None (Some (rnext r)))]
      | None => []
      end ++
      match rnext r with
      | Some b => [MUpdate b (links (Some (rprev r)) None)]
      | None => []
      end
  end.

(** Modelled from the spec: the delete action (missing): the record is
    excised from its chain and removed. *)
Definition remove m id : list (Mutation R) :=
  unlink m id ++ [MDelete id].

(** Modelled from the spec: [move(id, newPartitionKey, afterId | null)]
    of the missing chain operations: [unlink] in the old partition
    followed by the insertion in the new one; dropping a record at the
    position it already has gives the empty list. *)
Definition move m id k (afterId : option string) : list (Mutation R) :=
  match m !! id with
  | None => []
  | Some r =>
      if decide (rkey r = k ∧ rprev r = afterId) then []
      else
        let out := unlink m id in
        let pn := slot (delete id (run out m)) k afterId in
        out ++ MUpdate id (placed r k pn.1 pn.2) :: relink id pn
  end.

(** Modelled from the spec: the walk "from head to tail via [next]"
    of the missing [linearize]: the identifiers met from [id] on, at
    most [fuel] of them. *)
Fixpoint follow m (fuel : nat) id : list string :=
  match fuel with
  | O => []
  | S fuel' =>
      id :: match m !! id ≫= rnext with
            | Some b => follow m fuel' b
            | None => []
            end
  end.

(** Modelled from the spec: the traversal of the missing [linearize],
    from the head of partition [k], bounded by one more than the number
    of members ([count + 1] steps). *)
Definition traverse m k : list string :=
  match head_of m k with
  | Some h => follow m (S (length (members m k))) h
  | None => []
  end.

(** Modelled from the spec: [linearize(partitionKey)] of the missing
    chain operations ([sortChain] in the callers); [None] is
    [BrokenChain]: the walk did not end within [count + 1] steps or
    ended before all members were visited. *)
Definition linearize m k : option (list string) :=
  let visited := traverse m k in
  if decide (length visited ≤ length (members m k)
             ∧ Forall (λ e, e.1 ∈ visited) (members m k))
  then Some visited else None.

(** *** The chain invariants of the data model, for one kind

    The invariants are those the specification lists for the data
    model; the sources hold no statement of them. *)

(** Modelled from the spec: every non-empty partition has exactly one
    record with [prev = null] and exactly one with [next = null]. *)
Definition one_head_one_tail m : Prop :=
  map_Forall (λ _ r, length (heads m (rkey r)) = 1 ∧ length (tails m (rkey r)) = 1) m.

(** Modelled from the spec: if A's [next] is B then B's [prev] is A,
    and vice versa. *)
Definition linked_to m (from : option string) (back : R → option string) id : Prop :=
  match from with
  | Some b => match m !! b with
              | Some rb => back rb = Some id
              | None => False
              end
  | None => True
  end.

(** Modelled from the spec: bidirectional consistency of all links. *)
Definition bidirectional m : Prop :=
  map_Forall (λ id r, linked_to m (rnext r) rprev id ∧ linked_to m (rprev r) rnext id) m.

(** Modelled from the spec: no chain followed via [next] revisits a
    record. *)
Definition acyclic m : Prop :=
  map_Forall (λ id _, NoDup (follow m (S (size m)) id)) m.

(** Modelled from the spec: the walk from the head of a partition
    visits every record claiming the partition exactly once. *)
Definition traversal_complete m : Prop :=
  map_Forall (λ _ r, traverse m (rkey r) ≡ₚ (members m (rkey r)).*1) m.

(** The four invariants on chains together. *)
Definition chain_invariants m : Prop :=
  one_head_one_tail m ∧ bidirectional m ∧ acyclic m ∧ traversal_complete m.

Global Instance linked_to_dec `{EqDecision R} m from back id :
  Decision (linked_to m from back id).
Proof. unfold linked_to. destruct from as [b|]; [destruct (m !! b)|]; apply _. Defined.

Global Instance chain_invariants_dec `{EqDecision R} m : Decision (chain_invariants m).
Proof.
  unfold chain_invariants, one_head_one_tail, bidirectional, acyclic, traversal_complete.
  apply _.
Defined.

(** *** Backup and rollback, for one kind *)

(** The identifiers a list of operations touches. *)
Definition touched (ops : list (Mutation R)) : gset string :=
  list_to_set (target <$> ops).

(** Modelled from the spec: the backup (built by the missing
    [createBackup] and actions): a copy of every touched record, as it
    is before the operations are applied. *)
Definition backup_of m (ops : list (Mutation R)) : gmap string R :=
  filter (λ e, e.1 ∈ touched ops) m.

(** Modelled from the spec: the rollback (the per-kind part of the
    missing [restoreBackup]): every touched record is put back as the
    backup has it; one the backup does not hold did not exist. *)
Definition restore (ids : gset string) (saved m : gmap string R) : gmap string R :=
  saved ∪ filter (λ e, e.1 ∉ ids) m.

(** *** Well-formed requests *)

Definition in_partition m k (afterId : option string) : Prop :=
  match afterId with
  | Some a => match m !! a with
              | Some ra => rkey ra = k
              | None => False
              end
  | None => True
  end.

Definition insert_ok m (newRecord : R) afterId : Prop :=
  m !! rid newRecord = None ∧ in_partition m (rkey newRecord) afterId.

Definition remove_ok m id : Prop := is_Some (m !! id).

Definition move_ok m id k afterId : Prop :=
  is_Some (m !! id) ∧ afterId ≠ Some id ∧ in_partition m k afterId.

Global Instance in_partition_dec m k afterId : Decision (in_partition m k afterId).
Proof. unfold in_partition. destruct afterId as [a|]; [destruct (m !! a)|]; apply _. Defined.

Global Instance insert_ok_dec `{EqDecision R} m r afterId : Decision (insert_ok m r afterId).
Proof. unfold insert_ok. apply _. Defined.

Global Instance remove_ok_dec m id : Decision (remove_ok m id).
Proof. unfold remove_ok. apply _. Defined.

Global Instance move_ok_dec m id k afterId : Decision (move_ok m id k afterId).
Proof. unfold move_ok. apply _. Defined.

End Chain.

(** ** Bulk transactions on the working copy *)

Module Engine.

Global Instance OpType_eq_dec : EqDecision OpType.
Proof. solve_decision. Defined.

(** The primitive operations of each kind as entries of
    [BulkPayload.ops]. *)
Definition task_op (o : Mutation TaskType) : Op :=
  match o with
  | MAdd t => mkOp task add (NewTask t)
  | MUpdate id f => mkOp task update (TaskFields id f)
  | MDelete id => mkOp task delete_ (OnlyId id)
  end.

Definition project_op (o : Mutation ProjectType) : Op :=
  match o with
  | MAdd p => mkOp project add (NewProject p)
  | MUpdate id f => mkOp project update (ProjectFields id f)
  | MDelete id => mkOp project delete_ (OnlyId id)
  end.

Definition status_op (o : Mutation StatusType) : Op :=
  match o with
  | MAdd s => mkOp status add (NewStatus s)
  | MUpdate id f => mkOp status update (StatusFields id f)
  | MDelete id => mkOp status delete_ (OnlyId id)
  end.

(** Modelled from the spec: the effect of one entry of the operation
    list on the working copy (the body of the loop of the missing
    [optimisticUIUpdate]).  An entry whose payload does not fit its
    tags changes nothing. *)
Definition apply_op (s : States) (o : Op) : States :=
  match type o, operation o, data o with
  | task, add, NewTask t =>
      mkStates (run_mutation (tasks s) (MAdd t)) (projects s) (statuses s) (userProfile s)
  | task, update, TaskFields id f =>
      mkStates (run_mutation (tasks s) (@MUpdate TaskType _ id f)) (projects s) (statuses s) (userProfile s)
  | task, delete_, OnlyId id =>
      mkStates (run_mutation (tasks s) (MDelete id)) (projects s) (statuses s) (userProfile s)
  | project, add, NewProject p =>
      mkStates (tasks s) (run_mutation (projects s) (MAdd p)) (statuses s) (userProfile s)
  | project, update, ProjectFields id f =>
      mkStates (tasks s) (run_mutation (projects s) (@MUpdate ProjectType _ id f)) (statuses s) (userProfile s)
  | project, delete_, OnlyId id =>
      mkStates (tasks s) (run_mutation (projects s) (MDelete id)) (statuses s) (userProfile s)
  | status, add, NewStatus st =>
      mkStates (tasks s) (projects s) (run_mutation (statuses s) (MAdd st)) (userProfile s)
  | status, update, StatusFields id f =>
      mkStates (tasks s) (projects s) (run_mutation (statuses s) (@MUpdate StatusType _ id f)) (userProfile s)
  | status, delete_, OnlyId id =>
      mkStates (tasks s) (projects s) (run_mutation (statuses s) (MDelete id)) (userProfile s)
  | userProfile_, add, NewUserProfile u =>
      mkStates (tasks s) (projects s) (statuses s) u
  | userProfile_, update, UserProfileFields _ f =>
      mkStates (tasks s) (projects s) (statuses s) (UserProfile.merge f (userProfile s))
  | _, _, _ => s
  end.

(** Modelled from the spec: [apply(opList)], the missing
    [optimisticUIUpdate]: the operations are applied to the working
    copy in order. *)
Definition apply (opList : list Op) (s : States) : States :=
  foldl apply_op s opList.

(** The requests of the user-gesture collaborator. *)
Inductive Intent : Type :=
| AddTask (t : TaskType) (afterId : option TaskId)
| AddProject (p : ProjectType) (afterId : option ProjectId)
| AddStatus (st : StatusType) (afterId : option StatusId)
| UpdateTask (id : TaskId) (fieldChanges : Task.Partial)
| UpdateProject (id : ProjectId) (fieldChanges : Project.Partial)
| UpdateStatus (id : StatusId) (fieldChanges : Status.Partial)
| DeleteTask (id : TaskId)
| DeleteProject (id : ProjectId)
| DeleteStatus (id : StatusId)
| MoveTask (id : TaskId) (newStatus : string) (afterId : option TaskId)
| MoveProject (id : ProjectId) (afterId : option ProjectId)
| MoveStatus (id : StatusId) (newProject : ProjectId) (afterId : option StatusId)
| SwitchFocus (projectId : ProjectId).

(** Modelled from the spec: the operation list the missing actions of
    [utils/actions.ts] append for one request, computed from the
    working copy [s]. *)
Definition ops_of (s : States) (i : Intent) : list Op :=
  match i with
  | AddTask t afterId => task_op <$> insert (tasks s) t afterId
  | AddProject p afterId => project_op <$> insert (projects s) p afterId
  | AddStatus st afterId => status_op <$> insert (statuses s) st afterId
  | UpdateTask id f => [task_op (@MUpdate TaskType _ id f)]
  | UpdateProject id f => [project_op (@MUpdate ProjectType _ id f)]
  | UpdateStatus id f => [status_op (@MUpdate StatusType _ id f)]
  | DeleteTask id => task_op <$> remove (tasks s) id
  | DeleteProject id => project_op <$> remove (projects s) id
  | DeleteStatus id => status_op <$> remove (statuses s) id
  | MoveTask id k afterId => task_op <$> move (tasks s) id k afterId
  | MoveProject id afterId => project_op <$> move (projects s) id tt afterId
  | MoveStatus id k afterId => status_op <$> move (statuses s) id k afterId
  | SwitchFocus projectId =>
      [mkOp userProfile_ update
         (UserProfileFields (default "" (UserProfile.id (userProfile s)))
            (UserProfile.mkPartial None (Some (Some projectId)) None None))]
  end.

(** The record an entry of the operation list is aimed at. *)
Definition target_id (o : Op) : string :=
  match data o with
  | NewTask t => Task.id t
  | NewProject p => Project.id p
  | NewStatus st => Status.id st
  | NewUserProfile u => default "" (UserProfile.id u)
  | TaskFields id _ | ProjectFields id _ | StatusFields id _
  | UserProfileFields id _ | OnlyId id => id
  end.

(** The records of kind [kind] the operation list touches: direct
    targets and relinked neighbours. *)
Definition touched_of (kind : OpType) (opList : list Op) : gset string :=
  list_to_set (target_id <$> filter (λ o, type o = kind) opList).

Definition touches_profile (opList : list Op) : bool :=
  bool_decide (Exists (λ o, type o = userProfile_) opList).

(** Modelled from the spec: the backup of a transaction (filled by the
    missing [createBackup] and actions): a copy, keyed by kind, of every
    record the operation list touches, as the working copy [s] holds it
    before the apply.  The member [userProfile] of the backup is not
    optional in [type.ts]: the profile is copied with every backup. *)
Definition createBackup (s : States) (opList : list Op) : Backup :=
  {| b_statuses := filter (λ e, e.1 ∈ touched_of status opList) (statuses s);
     b_tasks := filter (λ e, e.1 ∈ touched_of task opList) (tasks s);
     b_projects := filter (λ e, e.1 ∈ touched_of project opList) (projects s);
     b_userProfile := userProfile s |}.

(** Modelled from the spec: the bulk transaction of one gesture, as
    the missing builder assembles it: the operations of the request and
    the backup of what they touch. *)
Definition gesture (s : States) (i : Intent) : BulkPayload :=
  {| ops := ops_of s i; backup := createBackup s (ops_of s i) |}.

(** Modelled from the spec: several requests accumulated into one
    builder; each is computed from the state the earlier ones predict,
    the backup is taken from the state before the first. *)
Definition accumulate (s : States) (intents : list Intent) : list Op :=
  foldl (λ opList i, opList ++ ops_of (apply opList s) i) [] intents.

(** Modelled from the spec: the bulk transaction the missing builder
    hands over for several accumulated requests. *)
Definition transaction (s : States) (intents : list Intent) : BulkPayload :=
  {| ops := accumulate s intents; backup := createBackup s (accumulate s intents) |}.

(** Modelled from the spec: [rollback(backup)], the missing
    [restoreBackup], which the callers hand the payload: the records
    the transaction touched are replaced by their copies in the backup;
    records it did not touch are left as they are. *)
Definition restoreBackup (tx : BulkPayload) (s : States) : States :=
  {| tasks := restore (touched_of task (ops tx)) (b_tasks (backup tx)) (tasks s);
     projects := restore (touched_of project (ops tx)) (b_projects (backup tx)) (projects s);
     statuses := restore (touched_of status (ops tx)) (b_statuses (backup tx)) (statuses s);
     userProfile := if touches_profile (ops tx) then b_userProfile (backup tx)
                    else userProfile s |}.

(** *** The five invariants of the data model *)

(** [s] ends with [suffix]. *)
Definition ends_with (suffix s : string) : bool :=
  is_prefix (rev (list_ascii_of_string suffix)) (rev (list_ascii_of_string s)).

(** The pseudo-partitions of the completed and the deleted tasks
    ([status.endsWith('-completed')], [status.endsWith('-deleted')] in
    [TodoColumn.tsx]). *)
Definition is_pseudo (statusId : string) : Prop :=
  ends_with "-completed" statusId || ends_with "-deleted" statusId = true.

Global Instance is_pseudo_dec statusId : Decision (is_pseudo statusId).
Proof. unfold is_pseudo. apply _. Defined.

(** Modelled from the spec: the [status] of a task names a status
    record or a pseudo-partition, the [project] of a status names a
    project record. *)
Definition referential_integrity (s : States) : Prop :=
  map_Forall (λ _ t, Task.status t ∈ dom (statuses s) ∨ is_pseudo (Task.status t)) (tasks s)
  ∧ map_Forall (λ _ st, Status.project st ∈ dom (projects s)) (statuses s).

(** Modelled from the spec: the five invariants, on every partition
    of every kind. *)
Definition five_invariants (s : States) : Prop :=
  chain_invariants (tasks s)
  ∧ chain_invariants (projects s)
  ∧ chain_invariants (statuses s)
  ∧ referential_integrity s.

Global Instance five_invariants_dec s : Decision (five_invariants s).
Proof. unfold five_invariants, referential_integrity. apply _. Defined.

(** *** Requests that make sense in a working copy *)

Definition unreferenced_status (s : States) (id : StatusId) : Prop :=
  map_Forall (λ _ t, Task.status t ≠ id) (tasks s).

Definition unreferenced_project (s : States) (id : ProjectId) : Prop :=
  map_Forall (λ _ st, Status.project st ≠ id) (statuses s).

(** An add, move or delete request that names a fresh record to add,
    existing records to move or delete, a neighbour inside the target
    partition, an existing partition, and deletes no status or project
    that is still referred to. *)
Definition well_formed (s : States) (i : Intent) : Prop :=
  match i with
  | AddTask t afterId =>
      insert_ok (tasks s) t afterId
      ∧ (Task.status t ∈ dom (statuses s) ∨ is_pseudo (Task.status t))
  | AddProject p afterId => insert_ok (projects s) p afterId
  | AddStatus st afterId =>
      insert_ok (statuses s) st afterId ∧ Status.project st ∈ dom (projects s)
  | DeleteTask id => remove_ok (tasks s) id
  | DeleteProject id => remove_ok (projects s) id ∧ unreferenced_project s id
  | DeleteStatus id => remove_ok (statuses s) id ∧ unreferenced_status s id
  | MoveTask id k afterId =>
      move_ok (tasks s) id k afterId ∧ (k ∈ dom (statuses s) ∨ is_pseudo k)
  | MoveProject id afterId => move_ok (projects s) id tt afterId
  | MoveStatus id k afterId =>
      move_ok (statuses s) id k afterId ∧ k ∈ dom (projects s)
  | UpdateTask _ _ | UpdateProject _ _ | UpdateStatus _ _ | SwitchFocus _ => False
  end.

Global Instance well_formed_dec s i : Decision (well_formed s i).
Proof.
  unfold well_formed, unreferenced_project, unreferenced_status.
  destruct i; apply _.
Defined.

(** The working copy after the gesture's transaction is applied. *)
Definition step (s : States) (i : Intent) : States :=
  apply (ops (gesture s i)) s.

(** One gesture after the other. *)
Definition run_gestures (s : States) (intents : list Intent) : States :=
  foldl step s intents.

Fixpoint well_formed_sequence (s : States) (intents : list Intent) : Prop :=
  match intents with
  | [] => True
  | i :: rest => well_formed s i ∧ well_formed_sequence (step s i) rest
  end.

Global Instance well_formed_sequence_dec s intents :
  Decision (well_formed_sequence s intents).
Proof. revert s. induction intents as [|i rest IH]; intros s; simpl; apply _. Defined.

End Engine.

(** ** Chains as lists, and the two elementary steps on them

    The notions the proofs of Part II are stated with. *)

Section ChainNotions.

Context {R : Type} `{Linked R}.

Implicit Types (m : gmap string R) (k : Key) (id : string) (l : list string)
  (p n : option string).

(** Insertion at the head, as a relation between the store [m] before
    and the store [m'] after the add of [r]: the new record has no
    predecessor and the former head as successor, and the former head
    points back at it. *)
Definition head_insertion m (r : R) m' : Prop :=
  (∃ r', m' !! rid r = Some r'
         ∧ rkey r' = rkey r ∧ rprev r' = None ∧ rnext r' = head_of m (rkey r)
         ∧ (members m (rkey r) = [] → rnext r' = None))
  ∧ (∀ h rh, head_of m (rkey r) = Some h → m !! h = Some rh →
       ∃ rh', m' !! h = Some rh'
              ∧ rprev rh' = Some (rid r) ∧ rnext rh' = rnext rh ∧ rkey rh' = rkey rh).

(** The first of [l], or [n] when [l] is empty; the last of [l], or [p]. *)
Definition first_or l n : option string := from_option Some n (head l).
Definition last_or l p : option string := from_option Some p (last l).

(** The records named in [l] are linked in that order, the first one
    to [p] backwards and the last one to [n] forwards. *)
Fixpoint dlseg m p l n : Prop :=
  match l with
  | [] => True
  | x :: l' =>
      ∃ r, m !! x = Some r ∧ rprev r = p ∧ rnext r = first_or l' n
           ∧ dlseg m (Some x) l' n
  end.

(** [l] lists partition [k] of [m] in chain order. *)
Record Repr m k l : Prop := mkRepr {
  repr_nodup : NoDup l;
  repr_members : ∀ id, id ∈ l ↔ ∃ r, m !! id = Some r ∧ rkey r = k;
  repr_links : dlseg m None l None
}.

Definition chain_ok m : Prop := ∀ k, ∃ l, Repr m k l.

(** [m'] is [m] without the record [r] stored under [id], whose
    neighbours are linked to each other. *)
Definition spliced m id (r : R) m' : Prop :=
  m' !! id = None
  ∧ ∀ x, x ≠ id →
      match m !! x with
      | None => m' !! x = None
      | Some rx =>
          ∃ rx', m' !! x = Some rx' ∧ rkey rx' = rkey rx
                 ∧ rprev rx' = (if decide (rnext r = Some x) then rprev r else rprev rx)
                 ∧ rnext rx' = (if decide (rprev r = Some x) then rnext r else rnext rx)
      end.

(** [m'] is [m] with the record [r'] stored under the fresh [id],
    and the neighbours [r'] names pointing at it. *)
Definition linked_in m id (r' : R) m' : Prop :=
  m !! id = None
  ∧ m' !! id = Some r'
  ∧ ∀ x, x ≠ id →
      match m !! x with
      | None => m' !! x = None
      | Some rx =>
          ∃ rx', m' !! x = Some rx' ∧ rkey rx' = rkey rx
                 ∧ rprev rx' = (if decide (rnext r' = Some x) then Some id else rprev rx)
                 ∧ rnext rx' = (if decide (rprev r' = Some x) then Some id else rnext rx)
      end.

(** The shape shared by [unlink] and [relink]: the record [oa] gets
    [na] as [next], the record [ob] gets [pb] as [prev]. *)
Definition pair_updates (oa : option string) (na : option string)
    (ob : option string) (pb : option string) : list (Mutation R) :=
  match oa with
  | Some a => [MUpdate a (links None (Some na))]
  | None => []
  end ++
  match ob with
  | Some b => [MUpdate b (links (Some pb) None)]
  | None => []
  end.

End ChainNotions.

(** ** Sample working copies *)

Module Scenario.

(** A task with the given identifier, partition and links, and the
    other fields of [payload]. *)
Definition task_at (id status : string) (prev next : option TaskId) (payload : TaskType)
  : TaskType :=
  {| Task.id := id;
     Task.title := Task.title payload;
     Task.dueDate := Task.dueDate payload;
     Task.description := Task.description payload;
     Task.status := status;
     Task.previousStatus := Task.previousStatus payload;
     Task.prev := prev;
     Task.next := next;
     Task.userId := Task.userId payload |}.

Definition plain_task (id : string) : TaskType :=
  {| Task.id := id; Task.title := id; Task.dueDate := Undefined;
     Task.description := None; Task.status := ""; Task.previousStatus := "";
     Task.prev := None; Task.next := None; Task.userId := "u1" |}.

Definition plain_project (id : string) (prev next : option ProjectId) : ProjectType :=
  {| Project.id := id; Project.title := id; Project.description := None;
     Project.prev := prev; Project.next := next; Project.userId := "u1" |}.

Definition plain_status (id project : string) (prev next : option StatusId) : StatusType :=
  {| Status.id := id; Status.title := id; Status.description := "";
     Status.color := "#ffffff"; Status.project := project;
     Status.prev := prev; Status.next := next; Status.userId := "u1" |}.

(** Partition [colA] holds [T1 -> T2 -> T3]; nothing else is a task. *)
Definition chainA (t1 t2 t3 : TaskType) : TaskData :=
  list_to_map
    [ ("T1", task_at "T1" "colA" None (Some "T2") t1);
      ("T2", task_at "T2" "colA" (Some "T1") (Some "T3") t2);
      ("T3", task_at "T3" "colA" (Some "T2") None t3) ].

(** One project with the columns [colA] and [colB], and the chain
    above. *)
Definition board : States :=
  {| tasks := chainA (plain_task "T1") (plain_task "T2") (plain_task "T3");
     projects := list_to_map [ ("P1", plain_project "P1" None None) ];
     statuses :=
       list_to_map
         [ ("colA", plain_status "colA" "P1" None (Some "colB"));
           ("colB", plain_status "colB" "P1" (Some "colA") None) ];
     userProfile :=
       {| UserProfile.id := Some "u1"; UserProfile.nickname := Some "demo";
          UserProfile.lastProjectId := Some "P1"; UserProfile.avatarUrl := None;
          UserProfile.language := Some "en-US" |} |}.

(** Gestures that are well formed one after the other on [board]. *)
Definition session : list Engine.Intent :=
  [ Engine.MoveTask "T3" "colB" None;
    Engine.AddTask (task_at "T4" "colA" None None (plain_task "T4")) (Some "T1");
    Engine.DeleteTask "T2";
    Engine.MoveTask "T3" "colA" None;
    Engine.AddStatus (plain_status "colC" "P1" None None) None;
    Engine.DeleteStatus "colB";
    Engine.AddProject (plain_project "P2" None None) (Some "P1");
    Engine.MoveProject "P2" None ].

(** Test data for the diagnostics: two projects that both claim to be
    the head of the project chain, a task in a column that does not
    exist, and no other record. *)
Definition brokenData : AnalyzeChains.Data :=
  {| AnalyzeChains.taskList :=
       [ ("T1", task_at "T1" "ghost" None None (plain_task "T1")) ];
     AnalyzeChains.projectList :=
       [ ("P1", plain_project "P1" None None); ("P2", plain_project "P2" None None) ];
     AnalyzeChains.statusList := [] |}.

(** Test data with two heads in one column. *)
Definition twoHeads : AnalyzeChains.Data :=
  {| AnalyzeChains.taskList :=
       [ ("T1", task_at "T1" "colA" None None (plain_task "T1"));
         ("T2", task_at "T2" "colA" None None (plain_task "T2")) ];
     AnalyzeChains.projectList := [];
     AnalyzeChains.statusList := [] |}.

(** Test data with two heads in a column whose name is that of a
    member of [Object.prototype]. *)
Definition twoHeadsOfConstructor : AnalyzeChains.Data :=
  {| AnalyzeChains.taskList :=
       [ ("T1", task_at "T1" "constructor" None None (plain_task "T1"));
         ("T2", task_at "T2" "constructor" None None (plain_task "T2")) ];
     AnalyzeChains.projectList := [];
     AnalyzeChains.statusList := [] |}.

(** The working copy a snapshot describes: the records its three
    objects hold. *)
Definition working_copy (data : AnalyzeChains.Data) : States :=
  {| tasks := list_to_map (AnalyzeChains.parse (AnalyzeChains.taskList data));
     projects := list_to_map (AnalyzeChains.parse (AnalyzeChains.projectList data));
     statuses := list_to_map (AnalyzeChains.parse (AnalyzeChains.statusList data));
     userProfile := emptyUserProfile |}.

End Scenario.

(** ** Utility functions of the AI service

    The module that exports [sanitizeText], [validateTaskStructure],
    [cleanupOldMemories] and the class [RateLimiter].  Timestamps are
    readings of [Date.now()], whole milliseconds; the limits are the
    whole numbers the callers give. *)

Module RateLimiter.

(** An instance of the class: [this.maxRequests], [this.windowMs] and
    the [Map] [this.requests] from identifier to the array of the
    timestamps kept for it. *)
Record t : Type := mk {
  maxRequests : Z;
  windowMs : Z;
  requests : gmap string (list Z)
}.

(** [new RateLimiter(maxRequests, windowMs)]. *)
Definition new (maxRequests windowMs : Z) : t :=
  {| maxRequests := maxRequests; windowMs := windowMs; requests := ∅ |}.

(** [userRequests.filter(timestamp => timestamp > windowStart)]. *)
Definition recent (windowStart : Z) (userRequests : list Z) : list Z :=
  filter (λ timestamp, windowStart < timestamp)%Z userRequests.

(** [isAllowed(identifier)] when [Date.now()] reads [now]: the answer
    and the instance afterwards.  The array [recentRequests] is stored
    in the map before [now] is pushed on it, so the push shows in the
    map. *)
Definition isAllowed (now : Z) (identifier : string) (this : t) : bool * t :=
  let windowStart := (now - windowMs this)%Z in
  let requests0 :=
    match requests this !! identifier with
    | Some _ => requests this
    | None => <[identifier := []]> (requests this)
    end in
  let userRequests := default [] (requests0 !! identifier) in
  let recentRequests := recent windowStart userRequests in
  if (maxRequests this <=? Z.of_nat (length recentRequests))%Z then
    (false, {| maxRequests := maxRequests this; windowMs := windowMs this;
               requests := <[identifier := recentRequests]> requests0 |})
  else
    (true, {| maxRequests := maxRequests this; windowMs := windowMs this;
              requests := <[identifier := recentRequests ++ [now]]> requests0 |}).

(** [getRemainingRequests(identifier)] when [Date.now()] reads [now]. *)
Definition getRemainingRequests (now : Z) (identifier : string) (this : t) : Z :=
  let userRequests := default [] (requests this !! identifier) in
  let windowStart := (now - windowMs this)%Z in
  let recentRequests := recent windowStart userRequests in
  Z.max 0 (maxRequests this - Z.of_nat (length recentRequests)).

(** A call of [isAllowed] as it is logged below: when, for whom, and
    the answer. *)
Record Served : Type := mkServed {
  at_time : Z;
  who : string;
  allowed : bool
}.

(** A sequence of [isAllowed] calls on one instance, in order. *)
Fixpoint serve (calls : list (Z * string)) (this : t) : list Served * t :=
  match calls with
  | [] => ([], this)
  | (now, identifier) :: calls' =>
      let '(answer, this') := isAllowed now identifier this in
      let '(served, final) := serve calls' this' in
      (mkServed now identifier answer :: served, final)
  end.

(** The calls of [identifier] that were allowed in the window of
    length [windowMs] that ends at [t]. *)
Definition allowed_in_window (windowMs t : Z) (identifier : string)
    (served : list Served) : list Served :=
  filter (λ s, allowed s = true ∧ who s = identifier
               ∧ (t - windowMs < at_time s ≤ t)%Z) served.

(** The timestamps at which [identifier] was allowed. *)
Definition allowed_times (identifier : string) (served : list Served) : list Z :=
  at_time <$> filter (λ s, allowed s = true ∧ who s = identifier) served.

End RateLimiter.

Module Helpers.

(** The JavaScript values the utility functions tell apart. *)
Inductive Value : Type :=
| VUndefined
| VNull
| VBool (b : bool)
| VNumber (n : Z)
| VString (s : string)
| VObject.

(** [!!v]. *)
Definition truthy (v : Value) : bool :=
  match v with
  | VUndefined | VNull => false
  | VObject => true
  | VBool b => b
  | VNumber n => negb (n =? 0)%Z
  | VString s => negb (String.eqb s "")
  end.

(** The members of a task object that [validateTaskStructure] reads. *)
Record TaskObject : Type := mkTaskObject {
  title : Value;
  description : Value;
  priority : Value
}.

(** [array.join(', ')]. *)
Fixpoint join (l : list string) : string :=
  match l with
  | [] => ""
  | [s] => s
  | s :: l' => s +:+ ", " +:+ join l'
  end.

Definition requiredFields : list (string * (TaskObject → Value)) :=
  [("title", title); ("description", description); ("priority", priority)].

Definition validPriorities : list string := ["low"; "medium"; "high"].

(** [validPriorities.includes(v)]: only a string is found in an array
    of strings. *)
Definition includes (l : list string) (v : Value) : bool :=
  match v with
  | VString s => bool_decide (s ∈ l)
  | _ => false
  end.

Definition validateTaskStructure (task : TaskObject) : Completion bool :=
  let missingFields :=
    (filter (λ field, truthy (field.2 task) = false) requiredFields).*1 in
  if negb (Nat.eqb (length missingFields) 0) then
    Throw (Error ("Missing required fields: " +:+ join missingFields))
  else if negb (includes validPriorities (priority task)) then
    Throw (Error ("Invalid priority. Must be one of: " +:+ join validPriorities))
  else Normal true.

(** A conversation memory, of which [cleanupOldMemories] reads
    [lastAccessed]: a timestamp, or [None] when the member is missing. *)
Record Memory : Type := mkMemory {
  lastAccessed : option Z
}.

(** [memory.lastAccessed && (now - memory.lastAccessed) > maxAge]. *)
Definition expired (now maxAge : Z) (memory : Memory) : bool :=
  match lastAccessed memory with
  | Some t => negb (t =? 0)%Z && (maxAge <? now - t)%Z
  | None => false
  end.

(** [cleanupOldMemories(memoriesMap, maxAge)] when [Date.now()] reads
    [now]: the number returned and the map afterwards.  The loops go
    through the entries in the order of the map; neither result depends
    on it. *)
Definition cleanupOldMemories (now : Z) (memoriesMap : gmap string Memory) (maxAge : Z)
  : nat * gmap string Memory :=
  let toDelete :=
    (filter (λ entry, expired now maxAge entry.2 = true) (map_to_list memoriesMap)).*1 in
  (length toDelete, foldl (λ m sessionId, delete sessionId m) memoriesMap toDelete).

(** The default of [maxAge]: [30 * 60 * 1000]. *)
Definition defaultMaxAge : Z := 30 * 60 * 1000.

(** A string as its UTF-16 code units, which is what [substring]
    counts. *)
Definition Text : Type := list N.

(** The code units [\s] matches and [trim] strips: WhiteSpace and
    LineTerminator of ECMAScript. *)
Definition isSpace (c : N) : bool :=
  bool_decide (c ∈ [9; 10; 11; 12; 13; 32; 160; 5760; 8192; 8193; 8194; 8195;
                    8196; 8197; 8198; 8199; 8200; 8201; 8202; 8232; 8233;
                    8239; 8287; 12288; 65279]%N).

Fixpoint dropSpaces (text : Text) : Text :=
  match text with
  | [] => []
  | c :: text' => if isSpace c then dropSpaces text' else text
  end.

(** [text.trim()]. *)
Definition trim (text : Text) : Text :=
  reverse (dropSpaces (reverse (dropSpaces text))).

(** [text.replace(/\s+/g, ' ')]: every maximal run of white space
    becomes one space; [inRun] tells that the unit before was white
    space. *)
Fixpoint collapseFrom (inRun : bool) (text : Text) : Text :=
  match text with
  | [] => []
  | c :: text' =>
      if isSpace c then
        if inRun then collapseFrom true text' else 32%N :: collapseFrom true text'
      else c :: collapseFrom false text'
  end.

Definition collapse (text : Text) : Text := collapseFrom false text.

(** [sanitizeText(text)]; [None] is an argument that is not a string. *)
Definition sanitizeText (text : option Text) : Text :=
  match text with
  | None => []
  | Some text => take 1000 (collapse (trim text))
  end.

(** White space occurs in [text] only as single plain spaces; [inRun]
    tells that the unit before [text] was white space. *)
Fixpoint spaced (inRun : bool) (text : Text) : Prop :=
  match text with
  | [] => True
  | c :: text' =>
      if isSpace c then inRun = false ∧ c = 32%N ∧ spaced true text'
      else spaced false text'
  end.

(** Neither the first nor the last unit of [text] is white space. *)
Definition trimmed (text : Text) : Prop :=
  (∀ c, head text = Some c → isSpace c = false)
  ∧ (∀ c, last text = Some c → isSpace c = false).

End Helpers.

(** ** Rate limiting by address ([ai-service/middleware/rateLimiter.js])

    The class [IPRateLimiter] and the middleware made of it.  Times
    are readings of [Date.now()], whole milliseconds. *)

Module IPRateLimiter.

(** An entry of [this.requestCounts]. *)
Record IpData : Type := mkIpData {
  count : Z;
  resetTime : Z
}.

(** An instance: the map of the entries and the two limits the
    constructor sets. *)
Record t : Type := mk {
  requestCounts : gmap string IpData;
  maxRequests : Z;
  windowMs : Z
}.

(** [new IPRateLimiter()]; the timer that runs [cleanup] every five
    minutes is [cleanup] called from outside. *)
Definition new : t :=
  {| requestCounts := ∅; maxRequests := 30; windowMs := 60 * 60 * 1000 |}.

Definition whitelistedIPs : list string :=
  ["127.0.0.1"; "::1"; "localhost"; "::ffff:127.0.0.1"].

(** What [getClientIP] reads of a request; [None] is a member that is
    [undefined] or [null].  [connectionSocket] is [None] when
    [req.connection.socket] is falsy, else its [remoteAddress]. *)
Record Request : Type := mkRequest {
  ip : option string;
  connectionRemoteAddress : option string;
  socketRemoteAddress : option string;
  connectionSocket : option (option string);
  xForwardedFor : option string;
  xRealIp : option string
}.

(** [a || b] on values that are strings, [undefined] or [null]. *)
Definition orElse (a b : option string) : option string :=
  if truthy a then a else b.

(** [s.split(',')[0]]: the part of [s] before its first comma. *)
Fixpoint beforeComma (s : string) : string :=
  match s with
  | EmptyString => EmptyString
  | String c s' => if Ascii.eqb c "," then EmptyString else String c (beforeComma s')
  end.

Definition getClientIP (req : Request) : string :=
  default "127.0.0.1"
    (orElse (ip req)
    (orElse (connectionRemoteAddress req)
    (orElse (socketRemoteAddress req)
    (orElse (match connectionSocket req with
             | Some remoteAddress => remoteAddress
             | None => None
             end)
    (orElse ((λ header, trim (beforeComma header)) <$> xForwardedFor req)
    (orElse (xRealIp req)
            (Some "127.0.0.1"))))))).

Definition isWhitelisted (ip : string) : bool :=
  if bool_decide (ip ∈ whitelistedIPs) then true
  else if String.prefix "192.168." ip || String.prefix "10." ip
          || String.prefix "172.16." ip || String.eqb ip "0.0.0.0" then true
  else false.

(** [cleanup()] when [Date.now()] reads [now]. *)
Definition cleanup (now : Z) (this : t) : t :=
  {| requestCounts :=
       foldl (λ m entry, if (resetTime entry.2 <? now)%Z then delete entry.1 m else m)
         (requestCounts this) (map_to_list (requestCounts this));
     maxRequests := maxRequests this;
     windowMs := windowMs this |}.

(** The headers [res.set] is given; [reset] is the instant whose ISO
    string is sent. *)
Record Headers : Type := mkHeaders {
  limit : Z;
  remaining : Z;
  reset : Z
}.

(** The body sent with status 429.  [retryAfter] is
    [Math.ceil((resetTime - now) / 1000 / 60)], which on whole
    milliseconds is the whole number of minutes, rounded up. *)
Record Rejection : Type := mkRejection {
  error : string;
  message : string;
  retryAfter : Z;
  currentCount : Z;
  maxRequests' : Z
}.

(** How the middleware answers: it calls [next()], after [res.set] or
    without, or it sends status 429. *)
Inductive Reply : Type :=
| Next (headers : option Headers)
| TooManyRequests (body : Rejection).

(** The middleware on one request, when [process.env.NODE_ENV] is
    [nodeEnv] and [Date.now()] reads [now]: the lines logged, the
    answer, and the instance afterwards. *)
Definition middleware (nodeEnv : option string) (now : Z) (req : Request) (this : t)
  : list string * Reply * t :=
  let clientIP := getClientIP req in
  let log1 := "Rate limiter check for IP: " +:+ clientIP in
  if bool_decide (nodeEnv = Some "development") then
    ([log1; "Development mode: skipping rate limit for IP " +:+ clientIP],
     Next None, this)
  else if isWhitelisted clientIP then
    ([log1; "IP " +:+ clientIP +:+ " is whitelisted, skipping rate limit"],
     Next None, this)
  else
    let ipData :=
      match requestCounts this !! clientIP with
      | Some ipData =>
          if (resetTime ipData <? now)%Z
          then {| count := 0; resetTime := now + windowMs this |}
          else ipData
      | None => {| count := 0; resetTime := now + windowMs this |}
      end in
    let ipData := {| count := count ipData + 1; resetTime := resetTime ipData |} in
    let this' := {| requestCounts := <[clientIP := ipData]> (requestCounts this);
                    maxRequests := maxRequests this;
                    windowMs := windowMs this |} in
    if (maxRequests this <? count ipData)%Z then
      let remainingTime := (- ((now - resetTime ipData) / 60000))%Z in
      ([log1;
        "Rate limit exceeded for IP " +:+ clientIP +:+ ". Count: "
          +:+ pretty (count ipData) +:+ "/" +:+ pretty (maxRequests this)],
       TooManyRequests
         {| error := "Too Many Requests";
            message := "Rate limit exceeded. Maximum " +:+ pretty (maxRequests this)
                         +:+ " requests per hour.";
            retryAfter := remainingTime;
            currentCount := count ipData;
            maxRequests' := maxRequests this |},
       this')
    else
      ([log1;
        "Request allowed for IP " +:+ clientIP +:+ ". Count: "
          +:+ pretty (count ipData) +:+ "/" +:+ pretty (maxRequests this)],
       Next (Some {| limit := maxRequests this;
                     remaining := Z.max 0 (maxRequests this - count ipData);
                     reset := resetTime ipData |}),
       this').

(** [resetIP(ip)]. *)
Definition resetIP (ip : string) (this : t) : list string * t :=
  (["Rate limit reset for IP: " +:+ ip],
   {| requestCounts := delete ip (requestCounts this);
      maxRequests := maxRequests this;
      windowMs := windowMs this |}).



(** A request as the middleware sees it arrive. *)
Record Arrival : Type := mkArrival {
  at_time : Z;
  request : Request
}.

(** The middleware over a sequence of requests, in order: every
    request with its answer, and the instance afterwards. *)
Fixpoint serve (nodeEnv : option string) (arrivals : list Arrival) (this : t)
  : list (Arrival * Reply) * t :=
  match arrivals with
  | [] => ([], this)
  | a :: arrivals' =>
      let '(_, reply, this') := middleware nodeEnv (at_time a) (request a) this in
      let '(served, final) := serve nodeEnv arrivals' this' in
      ((a, reply) :: served, final)
  end.

Definition passed (r : Reply) : bool :=
  match r with Next _ => true | TooManyRequests _ => false end.

(** The requests of the address [ip] that were let through in the
    window of length [windowMs] that ends at [T]. *)
Definition passed_in_window (windowMs T : Z) (ip : string)
    (served : list (Arrival * Reply)) : list (Arrival * Reply) :=
  filter (λ s, passed s.2 = true ∧ getClientIP (request s.1) = ip
               ∧ (T - windowMs < at_time s.1 ≤ T)%Z) served.

(** A request that carries no address: every member [getClientIP]
    looks at is missing or empty. *)
Definition unaddressed (req : Request) : Prop :=
  truthy (ip req) = false
  ∧ truthy (connectionRemoteAddress req) = false
  ∧ truthy (socketRemoteAddress req) = false
  ∧ (∀ remoteAddress, connectionSocket req = Some remoteAddress →
       truthy remoteAddress = false)
  ∧ (∀ header, xForwardedFor req = Some header → trim (beforeComma header) = "")
  ∧ truthy (xRealIp req) = false.

(** A request the middleware does not count. *)
Definition exempt (nodeEnv : option string) (req : Request) : Prop :=
  nodeEnv = Some "development" ∨ isWhitelisted (getClientIP req) = true.

(** The entry a counted request finds or opens, before it is counted. *)
Definition opened (now : Z) (this : t) (ip : string) : IpData :=
  match requestCounts this !! ip with
  | Some ipData =>
      if (resetTime ipData <? now)%Z
      then {| count := 0; resetTime := now + windowMs this |}
      else ipData
  | None => {| count := 0; resetTime := now + windowMs this |}
  end.

(** Two instances that differ only by entries that were over at [now]
    and are missing in the first. *)
Definition same_but_expired (now : Z) (this1 this2 : t) : Prop :=
  maxRequests this1 = maxRequests this2
  ∧ windowMs this1 = windowMs this2
  ∧ ∀ ip, requestCounts this1 !! ip = requestCounts this2 !! ip
          ∨ (requestCounts this1 !! ip = None
             ∧ ∃ ipData, requestCounts this2 !! ip = Some ipData
                         ∧ (resetTime ipData < now)%Z).

End IPRateLimiter.

(** ** The page and its columns ([Todolist.tsx], [TodoColumn.tsx]) *)

Module Todolist.

(** The two display flags of [States] the page reads. *)
Record View : Type := mkView {
  showDeleted : bool;
  showCompleted : bool
}.

(** What the callbacks given to the [set...] functions write on the
    console. *)
Inductive Console : Type :=
| Warn (msg : string)
| Log (msg : string).

(** The callback of [loadAllData(navigate).then]: the working copy
    after the four [set...] calls, and the console lines.
    [Object.assign(draft, d.taskData)] writes every loaded record over
    the draft and keeps the other records of the draft. *)
Definition onLoaded (d : LoadInitData.LoadedData) (s : States) : list Console * States :=
  let tasksLine :=
    if Nat.eqb (size (LoadInitData.taskData d)) 0
    then Warn "No tasks found in the initial data. Please add some tasks to get started."
    else Log "Tasks loaded successfully." in
  let projectsLine :=
    if Nat.eqb (size (LoadInitData.projectData d)) 0
    then Warn "No projects found in the initial data. Please add some projects to get started."
    else Log "Projects loaded successfully." in
  let statusesLine :=
    if Nat.eqb (size (LoadInitData.statusData d)) 0
    then Warn "No statuses found in the initial data. Please add some statuses to get started."
    else Log "Statuses loaded successfully." in
  let loaded := LoadInitData.userProfileData d in
  let '(profileLine, profile) :=
    if negb (truthy (UserProfile.id loaded)) then
      (Warn "No user profile data found. Please set up your profile.", userProfile s)
    else
      (Log "User profile loaded successfully.",
       {| UserProfile.id := UserProfile.id loaded;
          UserProfile.nickname := UserProfile.nickname loaded;
          UserProfile.lastProjectId := UserProfile.lastProjectId loaded;
          UserProfile.avatarUrl := UserProfile.avatarUrl loaded;
          UserProfile.language := UserProfile.language loaded |}) in
  ([tasksLine; projectsLine; statusesLine; profileLine],
   {| tasks := LoadInitData.taskData d ∪ tasks s;
      projects := LoadInitData.projectData d ∪ projects s;
      statuses := LoadInitData.statusData d ∪ statuses s;
      userProfile := profile |}).

(** Every record of the map is stored under its own identifier. *)
Definition stored_under_id {R} (rid : R → string) (m : gmap string R) : Prop :=
  map_Forall (λ key r, rid r = key) m.

(** Of the records the server sent, in the order it sent them, the
    one that is to be found under [id] afterwards: the last that
    carries the identifier.  The name [__proto__] is the exception, no
    record is to be found under it. *)
Definition lastWithId {R} (rid : R → string) (records : list R) (id : string) : option R :=
  if String.eqb id "__proto__" then None
  else last (filter (λ r, rid r = id) records).

(** The working copy [createStatesAndSetStates] starts with. *)
Definition initialStates : States :=
  {| tasks := ∅; projects := ∅; statuses := ∅; userProfile := emptyUserProfile |}.

(** A string-or-null value inside a template literal. *)
Definition template (v : option string) : string := default "null" v.

(** The props of a [TodoColumn]. *)
Record ColumnProps : Type := mkColumn {
  title : string;
  bgColor : string;
  status : StatusId
}.

(** The two columns the page adds for the deleted and the completed
    tasks, in the order they are rendered. *)
Definition pseudoColumns (s : States) (v : View) : list ColumnProps :=
  (if showDeleted v
   then [{| title := "Deleted"; bgColor := "#ffcce6";
            status := template (UserProfile.lastProjectId (userProfile s)) +:+ "-deleted" |}]
   else [])
  ++ (if showCompleted v
      then [{| title := "Completed"; bgColor := "#e6f2ff";
               status := template (UserProfile.lastProjectId (userProfile s)) +:+ "-completed" |}]
      else []).

(** The columns of the page; [statusesSorted] is the result of
    [sortChain(statusesInProject)]. *)
Definition columns (s : States) (v : View) (statusesSorted : list StatusType)
  : list ColumnProps :=
  pseudoColumns s v
  ++ map (λ st, {| title := Status.title st; bgColor := Status.color st;
                   status := Status.id st |}) statusesSorted.

(** [statusesInProject]: the statuses of the focused project. *)
Definition statusesInProject (s : States) : StatusData :=
  filter (λ entry, Some (Status.project entry.2)
                   = UserProfile.lastProjectId (userProfile s)) (statuses s).

End Todolist.

Module TodoColumn.

Import Todolist.

(** The tasks of the column, before they are sorted. *)
Definition tasks (s : States) (props : ColumnProps) : TaskData :=
  filter (λ entry, Task.status entry.2 = status props) (tasks s).

Definition borderColor (props : ColumnProps) : string :=
  if Engine.ends_with "completed" (status props)
     || Engine.ends_with "deleted" (status props)
  then "black" else bgColor props.

Definition isDropDisabled (v : View) (props : ColumnProps) : bool :=
  (Engine.ends_with "-completed" (status props) && negb (showCompleted v))
  || (Engine.ends_with "-deleted" (status props) && negb (showDeleted v)).

(** Whether the column ends with the [AddNewTask] input. *)
Definition showsAddNewTask (props : ColumnProps) : bool :=
  negb (Engine.ends_with "-completed" (status props))
  && negb (Engine.ends_with "-deleted" (status props)).

End TodoColumn.

Module Gestures.

Import Gesture.

(** Every step of the gesture goes through: the action, the
    optimistic update, and the commit. *)
Definition gesture_succeeds (w : World) : Prop :=
  action_result w = Normal tt ∧ apply_result w = Normal tt
  ∧ post_result w = Normal (Fulfilled tt).

End Gestures.

(** A part of [loadAllData] that does not call [navigate]. *)
Definition quiet {A} (m : Eff LoadInitData.Call A) : Prop :=
  Forall (λ c, ∀ path, c ≠ LoadInitData.Navigate path) (trace m).

(** ** The chat panel ([AIChatPanel.tsx]) *)

Module AIChatPanel.

Inductive Sender : Type := user | ai.

(** The interfaces [SuggestedTask] and [ChatMessage]; [None] is a
    member that is missing. *)
Record SuggestedTask : Type := mkSuggestedTask {
  st_title : string;
  st_description : option string;
  st_status : option string
}.

Record ChatMessage : Type := mkChatMessage {
  message : string;
  sender : Sender;
  suggestedTask : option SuggestedTask
}.

(** The initial value of the [messages] state. *)
Definition initialMessages : list ChatMessage :=
  [{| message := "Hello, I am your AI assistant. How can I help you?";
      sender := ai; suggestedTask := None |}].

(** An entry of [conversationHistory]. *)
Record HistoryEntry : Type := mkHistoryEntry {
  content : string;
  h_sender : string
}.

(** The [newTask] object literals. *)
Record NewTask : Type := mkNewTask {
  nt_title : string;
  nt_description : string;
  nt_status : string;
  nt_previousStatus : string;
  nt_prev : option TaskId;
  nt_next : option TaskId;
  nt_userId : string;
  nt_dueDate : Optional Date
}.

(** The calls the handlers make.  [SetMessagesAppend m] is
    [setMessages(prev => [...prev, m])] and [SetMessagesClearTask i]
    is [setMessages] with the [map] that takes the suggested task off
    the message at index [i]. *)
Inductive Call : Type :=
| SetMessagesAppend (m : ChatMessage)
| SetMessagesClearTask (messageIndex : nat)
| SetIsTyping (b : bool)
| Fetch (url : string) (text : string) (conversationHistory : list HistoryEntry)
| FetchOperations (url : string) (payload : Gesture.Var)
| ConsoleError (msg : string)
| CreateBulkPayload
| CreateBackup
| AddTask (newTask : NewTask) (payload : Gesture.Var) (flag : bool)
| OptimisticUIUpdate (payload : Gesture.Var)
| PostPayloadToServer (url : string) (payload : Gesture.Var)
| RestoreBackup (payload : Gesture.Var).

(** The value [response.json()] yields, as far as [handleSend] reads
    it: [aiResponse.reply] and [aiResponse.task]. *)
Record AiResponse : Type := mkAiResponse {
  reply : option string;
  task : option SuggestedTask
}.

Inductive JsonResult : Type :=
| JsonRejects (e : JsError)
| JsonNull                      (* reading [aiResponse.reply] throws *)
| JsonValue (r : AiResponse).

Record Response : Type := mkResponse {
  ok : bool;
  status : nat;
  json : JsonResult
}.

(** How the collaborators behave during one call of a handler. *)
Record World : Type := mkWorld {
  fetch_result : Settled Response;               (* [fetch] *)
  action_result : Completion unit;               (* [actions.addTask] *)
  apply_result : Completion unit;                (* [optimisticUIUpdate] *)
  post_result : Completion (Settled unit)        (* [postPayloadToServer] *)
}.

(** [try { body } finally { final }]. *)
Definition try_finally {E A} (body : Eff E A) (final : Eff E unit) : Eff E A :=
  let '(t, r) := body in
  let '(t', r') := final in
  (t ++ t', match r' with Throw e => Throw e | Normal _ => r end).

(** [array.slice(-10)]. *)
Definition lastTen {A} (l : list A) : list A := drop (length l - 10) l.

(** A double quote, for the template literals that hold one. *)
Definition dquote : string := String (ascii_of_nat 34) EmptyString.

Section handlers.

(** [String.prototype.toLowerCase]. *)
Variable toLowerCase : string → string.

Variable w : World.

(** [states.userProfile], and [Object.values] of [states.statuses]
    and of [states.tasks], in the order of enumeration. *)
Variable userProfile : UserProfileData.
Variable statuses : list StatusType.
Variable tasks : list TaskType.

(** The [messages] state the handler was created with. *)
Variable messages : list ChatMessage.

Definition conversationHistory : list HistoryEntry :=
  map (λ msg, {| content := message msg;
                 h_sender := match sender msg with
                             | ai => "assistant"
                             | user => "user"
                             end |})
      (lastTen messages).

(** The status the generated task goes to: the first status of the
    focused project with the title asked for, whatever the case of the
    letters, or else the first status of the focused project. *)
Definition targetStatus (t : SuggestedTask) : option StatusType :=
  let currentProjectId := UserProfile.lastProjectId userProfile in
  let currentProjectStatuses :=
    filter (λ s, Some (Status.project s) = currentProjectId) statuses in
  let wanted := if truthy (st_status t) then default "" (st_status t) else "now" in
  match List.find (λ s, String.eqb (toLowerCase (Status.title s)) (toLowerCase wanted))
          currentProjectStatuses with
  | Some s => Some s
  | None => head currentProjectStatuses
  end.

Definition newTaskFor (t : SuggestedTask) (target : StatusType) : NewTask :=
  let tasksInStatus := filter (λ task, Task.status task = Status.id target) tasks in
  let firstTask := List.find (λ task, bool_decide (Task.prev task = None)) tasksInStatus in
  {| nt_title := st_title t;
     nt_description :=
       if truthy (st_description t) then default "" (st_description t) else "";
     nt_status := Status.id target;
     nt_previousStatus := Status.id target;
     nt_prev := None;
     nt_next := Task.id <$> firstTask;
     nt_userId :=
       if truthy (UserProfile.id userProfile)
       then default "" (UserProfile.id userProfile) else "";
     nt_dueDate := Undefined |}.

Definition handleSend (text : string) : Eff Call unit :=
  let userMessage := {| message := text; sender := user; suggestedTask := None |} in
  emit (SetMessagesAppend userMessage);;
  emit (SetIsTyping true);;
  try_finally
    (try_catch
       (response ← call (Fetch "/api/ai-chat" text conversationHistory)
                     (Normal (fetch_result w)) ≫= await;
        (if negb (ok response)
         then throw (Error ("HTTP error! status: " +:+ pretty (status response)))
         else skip);;
        aiResponse ← match json response with
                     | JsonRejects e => throw e
                     | JsonNull => throw (TypeError "Cannot read properties of null")
                     | JsonValue r => ret r
                     end;
        let aiMessage :=
          {| message := if truthy (reply aiResponse)
                        then default "" (reply aiResponse)
                        else "I received your message.";
             sender := ai; suggestedTask := None |} in
        aiMessage ←
          match task aiResponse with
          | Some t =>
              match targetStatus t with
              | Some target =>
                  let newTask := newTaskFor t target in
                  emit CreateBulkPayload;;
                  emit CreateBackup;;
                  try_catch
                    (call (AddTask newTask Gesture.backup_var false) (action_result w);;
                     call (OptimisticUIUpdate Gesture.backup_var) (apply_result w);;
                     (call (PostPayloadToServer "/api/bulk" Gesture.backup_var)
                        (post_result w) ≫= await);;
                     ret {| message := "✅ I've added a new task: " +:+ dquote
                                         +:+ nt_title newTask +:+ dquote +:+ " to your "
                                         +:+ Status.title target +:+ " list.";
                            sender := ai; suggestedTask := None |})
                    (λ error,
                       emit (ConsoleError "Error adding task:");;
                       emit (RestoreBackup Gesture.backup_var);;
                       ret {| message := "❌ Failed to add the task. Please try again.";
                              sender := ai; suggestedTask := None |})
              | None => ret aiMessage
              end
          | None => ret aiMessage
          end;
        emit (SetMessagesAppend aiMessage))
       (λ error,
          emit (ConsoleError "Error sending message:");;
          emit (SetMessagesAppend
                  {| message := "Sorry, I encountered an error. Please try again.";
                     sender := ai; suggestedTask := None |})))
    (emit (SetIsTyping false)).

(** The status [handleConfirmTask] picks: among all statuses. *)
Definition confirmStatus (t : SuggestedTask) : option StatusType :=
  match
    match st_status t with
    | Some wanted =>
        List.find (λ s, String.eqb (toLowerCase (Status.title s)) (toLowerCase wanted))
          statuses
    | None => None
    end
  with
  | Some s => Some s
  | None => head statuses
  end.

Definition handleConfirmTask (t : SuggestedTask) (messageIndex : nat) : Eff Call unit :=
  try_catch
    (target ← match confirmStatus t with
              | Some s => ret s
              | None => throw (Error "No available status found")
              end;
     let newTask :=
       {| nt_title := st_title t;
          nt_description :=
            if truthy (st_description t) then default "" (st_description t) else "";
          nt_status := Status.id target;
          nt_previousStatus := Status.id target;
          nt_prev := None;
          nt_next := None;
          nt_userId :=
            if truthy (UserProfile.id userProfile)
            then default "" (UserProfile.id userProfile) else "";
          nt_dueDate := Null |} in
     emit CreateBulkPayload;;
     call (AddTask newTask Gesture.payload_var true) (action_result w);;
     (response ← call (FetchOperations "/api/operations" Gesture.payload_var)
                    (Normal (fetch_result w)) ≫= await;
      skip);;
     emit (SetMessagesClearTask messageIndex);;
     emit (SetMessagesAppend
             {| message := "✅ Task " +:+ dquote +:+ st_title t +:+ dquote
                             +:+ " has been added to your task list!";
                sender := ai; suggestedTask := None |}))
    (λ error,
       emit (ConsoleError "Error creating task:");;
       emit (SetMessagesAppend
               {| message := "❌ Failed to add task. Please try again.";
                  sender := ai; suggestedTask := None |})).

Definition handleDismissTask (messageIndex : nat) : Eff Call unit :=
  emit (SetMessagesClearTask messageIndex).

End handlers.

(** What a [setMessages] call does to the state. *)
Definition clearTask (messageIndex : nat) (messages : list ChatMessage) : list ChatMessage :=
  imap (λ i msg, if Nat.eqb i messageIndex
                 then {| message := message msg; sender := sender msg;
                         suggestedTask := None |}
                 else msg) messages.

Definition setState (messages : list ChatMessage) (c : Call) : list ChatMessage :=
  match c with
  | SetMessagesAppend m => messages ++ [m]
  | SetMessagesClearTask i => clearTask i messages
  | _ => messages
  end.

(** What the user does in the panel: send a text, or press one of the
    two buttons of a card; with the way the collaborators behave
    meanwhile, and the working copy the handler reads. *)
Inductive Event : Type :=
| Send (text : string)
| Confirm (t : SuggestedTask) (messageIndex : nat)
| Dismiss (messageIndex : nat).

Record Moment : Type := mkMoment {
  event : Event;
  world : World;
  m_userProfile : UserProfileData;
  m_statuses : list StatusType;
  m_tasks : list TaskType
}.

Definition handle (toLowerCase : string → string) (messages : list ChatMessage) (m : Moment)
  : Eff Call unit :=
  match event m with
  | Send text =>
      handleSend toLowerCase (world m) (m_userProfile m) (m_statuses m) (m_tasks m)
        messages text
  | Confirm t i =>
      handleConfirmTask toLowerCase (world m) (m_userProfile m) (m_statuses m) t i
  | Dismiss i => handleDismissTask i
  end.

(** The [messages] state after a sequence of events. *)
Definition messagesAfter (toLowerCase : string → string) (moments : list Moment)
  : list ChatMessage :=
  foldl (λ messages m, foldl setState messages (trace (handle toLowerCase messages m)))
    initialMessages moments.

(** A call that puts no suggested task into the [messages] state. *)
Definition cardless (c : Call) : Prop :=
  match c with
  | SetMessagesAppend m => suggestedTask m = None
  | _ => True
  end.

(** A call that leaves the [messages] state and the typing indicator
    alone. *)
Definition backstage (c : Call) : Prop :=
  match c with
  | SetMessagesAppend _ | SetMessagesClearTask _ | SetIsTyping _ => False
  | _ => True
  end.

End AIChatPanel.

(** ** The second diagnostic of [analyze_chains.js] *)

Module AnalyzeTaskChains.

Import AnalyzeChains.

(** The grouping loop, which is that of [checkTaskChains]. *)
Definition groupTasks (tasks : list (TaskId * TaskType))
  : Eff string (list (string * list TaskType)) :=
  ([], groupByStatus tasks).

Definition problemStatuses : list string :=
  ["status_project0_now"; "status_project1_now"; "status_project2_now"; "status_deleted"].

(** [tasksByStatus[statusId] || []]. *)
Definition tasksOf (tasksByStatus : list (string * list TaskType)) (statusId : string)
  : list TaskType :=
  default [] (snd <$> List.find (λ entry, String.eqb entry.1 statusId) tasksByStatus).

Definition heads (tasksInStatus : list TaskType) : list TaskType :=
  filter isHead tasksInStatus.

(** The predicate of the second [filter]: a task whose [prev] is not
    [null] and names no task of the status.  A member of
    [Object.prototype] has no [status], so a name for which [tasks]
    only has such a member names no task of the status either. *)
Definition isOrphan (tasks : list (TaskId * TaskType)) (statusId : string)
    (task : TaskType) : Prop :=
  match Task.prev task with
  | None => False
  | Some prev =>
      match lookupTask tasks prev with
      | Own prevTask => Task.status prevTask ≠ statusId
      | Inherited | Missing => True
      end
  end.

Global Instance isOrphan_dec tasks statusId task : Decision (isOrphan tasks statusId task).
Proof.
  unfold isOrphan. destruct (Task.prev task) as [prev|]; [|apply _].
  destruct (lookupTask tasks prev); apply _.
Defined.

Definition orphans (tasks : list (TaskId * TaskType)) (statusId : string)
    (tasksInStatus : list TaskType) : list TaskType :=
  filter (isOrphan tasks statusId) tasksInStatus.

Definition newline : string := String (ascii_of_nat 10) EmptyString.

Definition headLine (head : TaskType) : string :=
  "  - " +:+ Task.id head +:+ ": " +:+ AIChatPanel.dquote +:+ Task.title head
    +:+ AIChatPanel.dquote.

Definition orphanLine (orphan : TaskType) : string :=
  "  - " +:+ Task.id orphan +:+ ": " +:+ AIChatPanel.dquote +:+ Task.title orphan
    +:+ AIChatPanel.dquote +:+ " (prev: " +:+ default "null" (Task.prev orphan) +:+ ")".

(** What is logged for one status. *)
Definition analyzeStatus (tasks : list (TaskId * TaskType))
    (tasksByStatus : list (string * list TaskType)) (statusId : string) : list string :=
  let tasksInStatus := tasksOf tasksByStatus statusId in
  [newline +:+ "=== 分析状态: " +:+ statusId +:+ " ==="]
  ++ ["链表头任务:"] ++ map headLine (heads tasksInStatus)
  ++ ["孤立任务:"] ++ map orphanLine (orphans tasks statusId tasksInStatus).

(** [analyzeTaskChains()]: the lines it logs. *)
Definition analyzeTaskChains (data : Data) : Eff string unit :=
  tasksByStatus ← groupTasks (taskList data);
  (flat_map (analyzeStatus (taskList data) tasksByStatus) problemStatuses, Normal tt).

End AnalyzeTaskChains.

(** ** The main server: origin check and error answers of the chat route

    The [origin] function given to [cors] in the entry file of the
    server, and the [catch] clause of [routes/ai-chat.js]. *)

Module Server.

(** [hay.includes(needle)]. *)
Fixpoint includes (needle hay : string) : bool :=
  String.prefix needle hay
  || match hay with
     | EmptyString => false
     | String _ hay' => includes needle hay'
     end.

(** [s.split(',')]. *)
Fixpoint splitComma (s : string) : list string :=
  match s with
  | EmptyString => [EmptyString]
  | String c s' =>
      if Ascii.eqb c "," then EmptyString :: splitComma s'
      else match splitComma s' with
           | piece :: pieces => String c piece :: pieces
           | [] => [String c EmptyString]
           end
  end.

(** The two environment variables the origin check reads. *)
Record Env : Type := mkEnv {
  ALLOWED_ORIGINS : option string;
  NODE_ENV : option string
}.

(** What the callback is called with: [(null, true)] or an error. *)
Inductive Verdict : Type :=
| Allow
| Deny (msg : string).

Definition defaultOrigins : list string :=
  ["http://localhost:3000"; "http://localhost:5173"; "http://localhost:3001"].

(** The [origin] function; [None] is a request without [Origin]. *)
Definition corsOrigin (env : Env) (origin : option string) : Verdict :=
  if negb (truthy origin) then Allow
  else
    let origin := default "" origin in
    let allowedOrigins :=
      match ALLOWED_ORIGINS env with
      | Some listed => splitComma listed
      | None => defaultOrigins
      end in
    if bool_decide (origin ∈ allowedOrigins) then Allow
    else if negb (bool_decide (NODE_ENV env = Some "production"))
            && includes "localhost" origin then Allow
    else if includes ".vercel.app" origin || includes ".onrender.com" origin then Allow
    else Deny "The CORS policy for this site does not allow access from the specified Origin.".

(** What the [catch] clause reads of the error it is given;
    [causeCode] is [error.cause.code] when [error.cause] is there. *)
Record Failure : Type := mkFailure {
  name : string;
  code : option string;
  message : string;
  causeCode : option string
}.

(** The answer of the [catch] clause: the status and the body. *)
Record Answer : Type := mkAnswer {
  status : nat;
  error : string;
  a_message : string;
  service_status : option string;
  fallback : bool
}.

Definition isDigit (c : ascii) : bool :=
  (48 <=? nat_of_ascii c) && (nat_of_ascii c <=? 57).

(** [parseInt] of a string that starts with digits: the number its
    leading digits spell.  That is what [parseInt] returns as long as
    the number is below [2^53], as the statuses read here are; beyond
    that JavaScript rounds. *)
Fixpoint parseDigits (acc : nat) (s : string) : nat :=
  match s with
  | String c s' =>
      if isDigit c then parseDigits (10 * acc + (nat_of_ascii c - 48)) s' else acc
  | EmptyString => acc
  end.

Definition startsWithDigit (s : string) : bool :=
  match s with
  | String c _ => isDigit c
  | EmptyString => false
  end.

(** [parseInt(message.match(/status: (\d+)/)[1])], if there is a
    match: the digits after the leftmost [status: ] that digits
    follow. *)
Fixpoint matchStatus (s : string) : option nat :=
  if String.prefix "status: " s
     && startsWithDigit (String.substring 8 (String.length s - 8) s)
  then Some (parseDigits 0 (String.substring 8 (String.length s - 8) s))
  else match s with
       | EmptyString => None
       | String _ s' => matchStatus s'
       end.

Definition answerFor (e : Failure) : Answer :=
  if String.eqb (name e) "AbortError" then
    {| status := 504; error := "Request timeout";
       a_message := "AI service took too long to respond. Please try again.";
       service_status := Some "timeout"; fallback := false |}
  else if bool_decide (code e = Some "ECONNREFUSED") || includes "fetch failed" (message e) then
    {| status := 503; error := "AI service unavailable";
       a_message := "The AI microservice is currently unavailable. Please try again later.";
       service_status := Some "offline"; fallback := false |}
  else if includes "status:" (message e) then
    let status := default 500 (matchStatus (message e)) in
    {| status := status; error := "AI service error";
       a_message := "AI service encountered an error";
       service_status := Some ("error_" +:+ pretty status); fallback := false |}
  else if bool_decide (causeCode e = Some "ENOTFOUND") then
    {| status := 503; error := "Network error";
       a_message := "Cannot reach AI service. Please check network connection.";
       service_status := Some "unreachable"; fallback := false |}
  else
    {| status := 500; error := "Failed to generate AI reply";
       a_message := "An unexpected error occurred while processing your request.";
       service_status := None; fallback := true |}.

(** The error the route throws when the AI service answers with a
    status that is not OK: [aiResponse.status] and the text of the
    body. *)
Definition serviceError (status : nat) (errorText : string) : Failure :=
  {| name := "Error"; code := None;
     message := "AI service responded with status: " +:+ pretty status
                  +:+ " - " +:+ errorText;
     causeCode := None |}.

End Server.

(** ** The guard of the protected pages ([ProtectedPage.tsx]) *)

Module ProtectedPage.

Inductive Call : Type :=
| Fetch (url : string)
| ConsoleError (msg : string)
| Navigate (path : string).

(** [import.meta.env]. *)
Record Env : Type := mkEnv {
  VITE_NODE_ENV : option string;
  VITE_API_BASE_URL : option string
}.

(** What [fetch] settles to: a rejection, or a response that is OK or
    not. *)
Definition FetchResult : Type := Settled bool.

Definition checkAuthentication (env : Env) (net : FetchResult) : Eff Call unit :=
  try_catch
    (let apiUrl :=
       if bool_decide (VITE_NODE_ENV env = Some "production")
       then VITE_API_BASE_URL env
       else Some "http://localhost:3001" in
     ok ← call (Fetch (default "undefined" apiUrl +:+ "/api/me")) (Normal net) ≫= await;
     if negb ok then throw (Error "Unauthorized access, redirecting to login")
     else skip)
    (λ error,
       emit (ConsoleError "Error fetching user data:");;
       emit (Navigate "/login")).

End ProtectedPage.

(** ** Sample inputs for the server side and the pages *)

Module Samples.

(** Four calls of one identifier, the last one after the window. *)
Definition calls : list (Z * string) :=
  [(0, "a"); (100, "a"); (200, "a"); (1500, "a")]%Z.

(** A request that carries no address at all, and one from outside. *)
Definition unaddressedRequest : IPRateLimiter.Request :=
  {| IPRateLimiter.ip := None;
     IPRateLimiter.connectionRemoteAddress := None;
     IPRateLimiter.socketRemoteAddress := None;
     IPRateLimiter.connectionSocket := None;
     IPRateLimiter.xForwardedFor := Some ", 8.8.8.8";
     IPRateLimiter.xRealIp := Some "" |}.

Definition requestFrom (ip : string) : IPRateLimiter.Request :=
  {| IPRateLimiter.ip := Some ip;
     IPRateLimiter.connectionRemoteAddress := None;
     IPRateLimiter.socketRemoteAddress := None;
     IPRateLimiter.connectionSocket := None;
     IPRateLimiter.xForwardedFor := None;
     IPRateLimiter.xRealIp := None |}.

Definition arrivalsAt (times : list Z) : list IPRateLimiter.Arrival :=
  map (λ t, IPRateLimiter.mkArrival t (requestFrom "8.8.8.8")) times.

(** A limiter of two requests per ten milliseconds. *)
Definition smallLimiter : IPRateLimiter.t :=
  {| IPRateLimiter.requestCounts := ∅;
     IPRateLimiter.maxRequests := 2;
     IPRateLimiter.windowMs := 10 |}.

(** The same with an entry that was over at the instant 100. *)
Definition staleLimiter : IPRateLimiter.t :=
  {| IPRateLimiter.requestCounts :=
       {[ "8.8.8.8" := {| IPRateLimiter.count := 5; IPRateLimiter.resetTime := 90 |} ]};
     IPRateLimiter.maxRequests := 2;
     IPRateLimiter.windowMs := 10 |}.

(** A response of [/api/getAll] with three tasks: two of them carry
    the same identifier, one is called [__proto__]; and what
    [loadAllData] makes of it. *)
Definition taskJson (id title : string) : LoadInitData.TaskJson :=
  {| LoadInitData.j_id := id; LoadInitData.j_title := title;
     LoadInitData.j_dueDate := None; LoadInitData.j_description := None;
     LoadInitData.j_status := "colA"; LoadInitData.j_previousStatus := "colA";
     LoadInitData.j_prev := None; LoadInitData.j_next := None;
     LoadInitData.j_userId := "u1" |}.

Definition sentTasks : list LoadInitData.TaskJson :=
  [taskJson "T1" "Buy milk"; taskJson "__proto__" "Buy eggs"; taskJson "T1" "Buy bread"].

Definition threeTasksResponse : LoadInitData.Response :=
  {| LoadInitData.ok := true; LoadInitData.status := 200;
     LoadInitData.json :=
       LoadInitData.JsonValue
         {| LoadInitData.body_tasks := Some (Some <$> sentTasks);
            LoadInitData.body_projects := Some (Some <$> []);
            LoadInitData.body_statuses := Some (Some <$> []);
            LoadInitData.body_userProfile := Some emptyUserProfile |} |}.

Definition threeTasksLoaded : LoadInitData.LoadedData :=
  {| LoadInitData.taskData :=
       {[ "T1" := LoadInitData.toTask (taskJson "T1" "Buy bread") ]};
     LoadInitData.projectData := ∅;
     LoadInitData.statusData := ∅;
     LoadInitData.userProfileData := emptyUserProfile |}.

(** A gesture whose commit is rejected, and one nobody confirms. *)
Definition rejectedCommit : Gesture.World :=
  {| Gesture.action_result := Normal tt;
     Gesture.apply_result := Normal tt;
     Gesture.post_result := Normal (Rejected (NetworkError "offline"));
     Gesture.confirm_result := false |}.

(** The chat service answers with a task for the column [colB]. *)
Definition suggested : AIChatPanel.SuggestedTask :=
  {| AIChatPanel.st_title := "Write the report";
     AIChatPanel.st_description := None;
     AIChatPanel.st_status := Some "colB" |}.

Definition taskSuggested : AIChatPanel.World :=
  {| AIChatPanel.fetch_result :=
       Fulfilled
         {| AIChatPanel.ok := true; AIChatPanel.status := 200;
            AIChatPanel.json :=
              AIChatPanel.JsonValue
                {| AIChatPanel.reply := Some "Done.";
                   AIChatPanel.task := Some suggested |} |};
     AIChatPanel.action_result := Normal tt;
     AIChatPanel.apply_result := Normal tt;
     AIChatPanel.post_result := Normal (Fulfilled tt) |}.

Definition boardStatuses : list StatusType :=
  [Scenario.plain_status "colA" "P1" None (Some "colB");
   Scenario.plain_status "colB" "P1" (Some "colA") None].

Definition boardTasks : list TaskType :=
  [Scenario.task_at "T1" "colB" None (Some "T2") (Scenario.plain_task "T1");
   Scenario.task_at "T2" "colB" (Some "T1") None (Scenario.plain_task "T2")].

(** The task the panel builds from [suggested] on that board. *)
Definition generated : AIChatPanel.NewTask :=
  {| AIChatPanel.nt_title := "Write the report";
     AIChatPanel.nt_description := "";
     AIChatPanel.nt_status := "colB";
     AIChatPanel.nt_previousStatus := "colB";
     AIChatPanel.nt_prev := None;
     AIChatPanel.nt_next := Some "T1";
     AIChatPanel.nt_userId := "u1";
     AIChatPanel.nt_dueDate := Undefined |}.

(** A snapshot with one chain in one of the statuses the second
    diagnostic looks at. *)
Definition chainData : AnalyzeChains.Data :=
  {| AnalyzeChains.taskList :=
       [("T1", Scenario.task_at "T1" "status_deleted" None (Some "T2")
                 (Scenario.plain_task "T1"));
        ("T2", Scenario.task_at "T2" "status_deleted" (Some "T1") None
                 (Scenario.plain_task "T2"))];
     AnalyzeChains.projectList := [];
     AnalyzeChains.statusList := [] |}.

(** A thousand and one code units: 999 letters, a space, a letter. *)
Definition longText : Helpers.Text := replicate 999 97%N ++ [32; 98]%N.

End Samples.

(** * Part II. Properties *)

(** ** The effect monad *)

Section EffLemmas.

Context {E : Type}.


Lemma completion_bind {A B} (m : Eff E A) (k : A → Eff E B) :
  completion (m ≫= k) =
  match completion m with
  | Normal a => completion (k a)
  | Throw e => Throw e
  end.
Proof.
  destruct m as [t [a|e]]; simpl; [|done].
  unfold mbind, eff_bind, Js.bind. by destruct (k a).
Qed.

Lemma trace_bind {A B} (m : Eff E A) (k : A → Eff E B) :
  trace (m ≫= k) =
  match completion m with
  | Normal a => trace m ++ trace (k a)
  | Throw e => trace m
  end.
Proof.
  destruct m as [t [a|e]]; simpl; [|done].
  unfold mbind, eff_bind, Js.bind. by destruct (k a).
Qed.

Lemma throws_bind_l {A B} (m : Eff E A) (k : A → Eff E B) :
  throws m → throws (m ≫= k).
Proof. intros [e He]. exists e. by rewrite completion_bind, He. Qed.

Lemma throws_bind_r {A B} (m : Eff E A) (k : A → Eff E B) :
  (∀ a, throws (k a)) → throws (m ≫= k).
Proof.
  intros Hk. unfold throws. rewrite completion_bind.
  destruct (completion m) as [a|e]; [apply Hk | by exists e].
Qed.

Lemma throws_bind_normal {A B} (m : Eff E A) (k : A → Eff E B) a :
  completion m = Normal a → throws (k a) → throws (m ≫= k).
Proof. intros Hm [e He]. exists e. by rewrite completion_bind, Hm. Qed.

Lemma throws_throw {A} e : throws (@throw E A e).
Proof. by exists e. Qed.

Lemma completion_try_catch {A} (body : Eff E A) handler :
  completion (try_catch body handler) =
  match completion body with
  | Normal a => Normal a
  | Throw e => completion (handler e)
  end.
Proof.
  destruct body as [t [a|e]]; simpl; [done|].
  unfold try_catch. by destruct (handler e).
Qed.

Lemma trace_try_catch {A} (body : Eff E A) handler :
  trace (try_catch body handler) =
  match completion body with
  | Normal a => trace body
  | Throw e => trace body ++ trace (handler e)
  end.
Proof.
  destruct body as [t [a|e]]; simpl; [done|].
  unfold try_catch. by destruct (handler e).
Qed.

End EffLemmas.

(** ** The initial load *)

Section LoadAllData.

Import LoadInitData.

Variable navigate : string → Eff Call unit.

Lemma mapTasks_null l acc : None ∈ l → throws (mapTasks l acc).
Proof.
  revert acc. induction l as [|[t|] l IH]; intros acc Hin.
  - by apply elem_of_nil in Hin.
  - apply elem_of_cons in Hin as [?|Hin]; [done|].
    cbn [mapTasks]. apply throws_bind_r. intros ?. by apply IH.
  - apply throws_throw.
Qed.

Lemma mapProjects_null l acc : None ∈ l → throws (mapProjects l acc).
Proof.
  revert acc. induction l as [|[t|] l IH]; intros acc Hin.
  - by apply elem_of_nil in Hin.
  - apply elem_of_cons in Hin as [?|Hin]; [done|]. simpl. by apply IH.
  - apply throws_throw.
Qed.

Lemma mapStatuses_null l acc : None ∈ l → throws (mapStatuses l acc).
Proof.
  revert acc. induction l as [|[t|] l IH]; intros acc Hin.
  - by apply elem_of_nil in Hin.
  - apply elem_of_cons in Hin as [?|Hin]; [done|]. simpl. by apply IH.
  - apply throws_throw.
Qed.

Lemma arrayOf_map_throws {A B} (member : option (list (option A)))
    (f : list (option A) → Eff Call B) {C} (k : B → Eff Call C) :
  (∀ l, None ∈ l → throws (f l)) →
  (member = None ∨ ∃ l, member = Some l ∧ None ∈ l) →
  throws (l ← arrayOf member; x ← f l; k x).
Proof.
  intros Hf [->|(l & -> & Hin)].
  - apply throws_bind_l, throws_throw.
  - eapply throws_bind_normal; [done|]. by apply throws_bind_l, Hf.
Qed.

Lemma loadAllData_try_throws net :
  LoadFailure net → throws (loadAllData_try navigate net).
Proof.
  intros Hfail.
  destruct Hfail as [e|res Hok|res e Hj|res Hj|res b Hj Ht|res b Hj Hp
                      |res b Hj Hs|res b Hj Hu];
    unfold loadAllData_try; (eapply throws_bind_normal; [done|]).
  - apply throws_bind_l, throws_throw.
  - eapply throws_bind_normal; [done|]. apply throws_bind_l.
    rewrite Hok. simpl. destruct (status res =? 401)%nat.
    + apply throws_bind_r. intros ?. apply throws_throw.
    + apply throws_throw.
  - eapply throws_bind_normal; [done|]. apply throws_bind_r. intros ?.
    rewrite Hj. apply throws_bind_l, throws_throw.
  - eapply throws_bind_normal; [done|]. apply throws_bind_r. intros ?.
    rewrite Hj. apply throws_bind_l, throws_throw.
  - eapply throws_bind_normal; [done|]. apply throws_bind_r. intros ?.
    rewrite Hj. eapply throws_bind_normal; [done|].
    apply arrayOf_map_throws; [|done]. intros; by apply mapTasks_null.
  - eapply throws_bind_normal; [done|]. apply throws_bind_r. intros ?.
    rewrite Hj. eapply throws_bind_normal; [done|].
    apply throws_bind_r. intros ?. apply throws_bind_r. intros ?.
    apply arrayOf_map_throws; [|done]. intros; by apply mapProjects_null.
  - eapply throws_bind_normal; [done|]. apply throws_bind_r. intros ?.
    rewrite Hj. eapply throws_bind_normal; [done|].
    do 4 (apply throws_bind_r; intros ?).
    apply arrayOf_map_throws; [|done]. intros; by apply mapStatuses_null.
  - eapply throws_bind_normal; [done|]. apply throws_bind_r. intros ?.
    rewrite Hj. eapply throws_bind_normal; [done|].
    do 6 (apply throws_bind_r; intros ?).
    rewrite Hu. apply throws_bind_l, throws_throw.
Qed.

(** The promise of [loadAllData] is fulfilled on every input: the
    [catch] clause turns each error into a value. *)
Lemma loadAllData_never_rejects net :
  ∃ d, loadAllData navigate net = Fulfilled d.
Proof.
  unfold loadAllData, loadAllData_body. rewrite completion_try_catch.
  destruct (completion (loadAllData_try navigate net)); simpl; eauto.
Qed.

(** C10.  Whenever the initial load fails (the request is rejected,
    the response is not OK, 401 included, or processing the response
    throws), [loadAllData] does not reject: its promise is fulfilled
    with the empty working copy, which is also the value an OK response
    without any data is turned into, so the caller cannot tell the two
    apart. *)
Theorem loadAllData_failure_resolves_empty net :
  LoadFailure net →
  loadAllData navigate net = Fulfilled emptyLoaded
  ∧ loadAllData navigate (FetchResolves noDataResponse) = Fulfilled emptyLoaded.
Proof.
  intros Hfail. split; [|reflexivity].
  destruct (loadAllData_try_throws net Hfail) as [e He].
  unfold loadAllData, loadAllData_body.
  by rewrite completion_try_catch, He.
Qed.

End LoadAllData.

(** A 401 response, with a [navigate] that returns normally. *)
Lemma loadAllData_failure_resolves_empty_witness :
  let navigate := λ path, emit (LoadInitData.Navigate path) in
  let unauthorized :=
    LoadInitData.FetchResolves
      {| LoadInitData.ok := false; LoadInitData.status := 401;
         LoadInitData.json := LoadInitData.JsonNullish |} in
  LoadInitData.loadAllData navigate unauthorized
    = Fulfilled LoadInitData.emptyLoaded
  ∧ LoadInitData.loadAllData navigate
      (LoadInitData.FetchResolves LoadInitData.noDataResponse)
    = Fulfilled LoadInitData.emptyLoaded.
Proof.
  intros navigate unauthorized.
  apply (loadAllData_failure_resolves_empty navigate unauthorized).
  apply LoadInitData.fail_not_ok. reflexivity.
Defined.

(** On a 401 the user is sent to the login page before the error is
    swallowed. *)
Example loadAllData_unauthorized_trace :
  trace (LoadInitData.loadAllData_body
           (λ path, emit (LoadInitData.Navigate path))
           (LoadInitData.FetchResolves
              {| LoadInitData.ok := false; LoadInitData.status := 401;
                 LoadInitData.json := LoadInitData.JsonNullish |}))
  = [LoadInitData.Fetch "/api/getAll"; LoadInitData.Navigate "/login";
     LoadInitData.ConsoleError "Error loading test tasks:"].
Proof. reflexivity. Qed.

(** ** Gesture handlers *)

Section Gestures.

Import Gesture.


(** C9.  An add-task or rename-project gesture whose title is empty or
    trims to the empty string never starts a transaction: the handlers
    only reset the input field; no payload or backup is created, the
    working copy is neither applied to nor restored, and nothing is
    posted to the server. *)
Theorem empty_title_never_starts_transaction
    (w : World) (states : States) (status title : string)
    (project : ProjectId * ProjectType) :
  trim title = "" →
  let enter := {| key := "Enter"; value := title |} in
  AddNewTask.handleKeyboard w states status enter
    = ([SetInputValue ""], Normal tt)
  ∧ ProjectButton.handlePressEnterAndEscape w project enter
    = ([SetInputValue (Project.title (snd project)); Blur; SetIsEditing false],
       Normal tt)
  ∧ Forall outside_transaction
      (trace (AddNewTask.handleKeyboard w states status enter)
       ++ trace (ProjectButton.handlePressEnterAndEscape w project enter)).
Proof.
  intros Htrim enter.
  assert (Hadd : AddNewTask.handleKeyboard w states status enter
                 = ([SetInputValue ""], Normal tt)).
  { unfold AddNewTask.handleKeyboard. cbn [key value enter String.eqb Ascii.eqb Bool.eqb].
    rewrite Htrim. reflexivity. }
  assert (Hren : ProjectButton.handlePressEnterAndEscape w project enter
                 = ([SetInputValue (Project.title (snd project)); Blur;
                     SetIsEditing false], Normal tt)).
  { unfold ProjectButton.handlePressEnterAndEscape.
    cbn [key value enter String.eqb Ascii.eqb Bool.eqb].
    rewrite Htrim. reflexivity. }
  rewrite Hadd, Hren. repeat split.
  cbn [trace fst app]. repeat constructor.
Qed.

(** The add-task handler awaits the commit: a rejected commit reaches
    its [catch] clause and the backup is restored, as the last call of
    the gesture. *)
Lemma handleKeyboard_commit_failure_rolls_back
    (w : World) (states : States) (status title : string) :
  trim title ≠ "" → local_apply_succeeds w → commit_fails w →
  ∃ calls,
    trace (AddNewTask.handleKeyboard w states status
             {| key := "Enter"; value := title |})
    = calls ++ [RestoreBackup backup_var]
    ∧ existsb is_apply calls = true.
Proof.
  intros Htitle [Hact Happ] [e Hpost].
  unfold AddNewTask.handleKeyboard.
  cbn [key value String.eqb Ascii.eqb Bool.eqb].
  apply String.eqb_neq in Htitle. rewrite Htitle, Hact, Happ, Hpost.
  eexists [_; _; _; _; _; _; _]. split; reflexivity.
Qed.

(** The three handlers of [ProjectButton.tsx] drop the promise of
    [postPayloadToServer]; when it is rejected the [catch] clause is
    not entered. *)
Lemma handleClick_commit_failure (w : World) project :
  local_apply_succeeds w → commit_fails w →
  trace (ProjectButton.handleClick w project)
  = [CreateBulkPayload; CreateBackup payload_var; SetShowCompleted false;
     SetShowDeleted false; FocusProject (fst project) payload_var;
     OptimisticUIUpdate payload_var;
     PostPayloadToServer "/api/bulk" payload_var].
Proof.
  intros [Hact Happ] [e Hpost]. unfold ProjectButton.handleClick.
  by rewrite Hact, Happ, Hpost.
Qed.

Lemma handlePressEnter_commit_failure (w : World) project title :
  trim title ≠ "" → title ≠ Project.title (snd project) →
  local_apply_succeeds w → commit_fails w →
  trace (ProjectButton.handlePressEnterAndEscape w project
           {| key := "Enter"; value := title |})
  = [Blur; SetIsEditing false; CreateBulkPayload; CreateBackup payload_var;
     UpdateProject (fst project) title payload_var;
     OptimisticUIUpdate payload_var;
     PostPayloadToServer "/api/bulk" payload_var].
Proof.
  intros Htrim Hnew [Hact Happ] [e Hpost].
  unfold ProjectButton.handlePressEnterAndEscape.
  cbn [key value String.eqb Ascii.eqb Bool.eqb].
  apply String.eqb_neq in Htrim, Hnew.
  by rewrite Htrim, Hnew, Hact, Happ, Hpost.
Qed.

Lemma handleDeleteButton_commit_failure (w : World) project :
  confirm_result w = true → local_apply_succeeds w → commit_fails w →
  trace (ProjectButton.handleDeleteButton w project)
  = [StopPropagation;
     Confirm ("Are you sure you want to delete the project: "
              +:+ Project.title (snd project)
              +:+ "? You cannot undo this action and all tasks will gone!");
     CreateBulkPayload; CreateBackup payload_var;
     DeleteProject (fst project) backup_var; OptimisticUIUpdate backup_var;
     PostPayloadToServer "/api/bulk" backup_var;
     ConsoleLog "tasks after deletion";
     ConsoleLog ("Delete button clicked for project: "
                 +:+ Project.title (snd project))].
Proof.
  intros Hconfirm [Hact Happ] [e Hpost].
  unfold ProjectButton.handleDeleteButton.
  by rewrite Hconfirm, Hact, Happ, Hpost.
Qed.

(** C4 (on the code).  When the commit of a switch-focus, rename or
    delete gesture on a project fails after the optimistic apply went
    through, the handler has applied the change and never calls
    [restoreBackup]: the optimistic state stays. *)
Theorem project_gestures_commit_failure_no_rollback
    (w : World) (project : ProjectId * ProjectType) (title : string) :
  trim title ≠ "" → title ≠ Project.title (snd project) →
  confirm_result w = true → local_apply_succeeds w → commit_fails w →
  Forall (λ calls, existsb is_apply calls = true
                   ∧ existsb is_rollback calls = false)
    [ trace (ProjectButton.handleClick w project);
      trace (ProjectButton.handlePressEnterAndEscape w project
               {| key := "Enter"; value := title |});
      trace (ProjectButton.handleDeleteButton w project) ].
Proof.
  intros Htrim Hnew Hconfirm Hlocal Hfail.
  rewrite handleClick_commit_failure, handlePressEnter_commit_failure,
    handleDeleteButton_commit_failure by done.
  repeat constructor.
Qed.

End Gestures.

(** Renaming project [p1] from [Old] to [New] while the server is
    unreachable. *)
Lemma project_gestures_commit_failure_no_rollback_witness :
  let w := {| Gesture.action_result := Normal tt;
              Gesture.apply_result := Normal tt;
              Gesture.post_result := Normal (Rejected (NetworkError "Failed to fetch"));
              Gesture.confirm_result := true |} in
  let project := ("p1", {| Project.id := "p1"; Project.title := "Old";
                           Project.description := None; Project.prev := None;
                           Project.next := None; Project.userId := "u1" |}) in
  Forall (λ calls, existsb Gesture.is_apply calls = true
                   ∧ existsb Gesture.is_rollback calls = false)
    [ trace (ProjectButton.handleClick w project);
      trace (ProjectButton.handlePressEnterAndEscape w project
               {| Gesture.key := "Enter"; Gesture.value := "New" |});
      trace (ProjectButton.handleDeleteButton w project) ].
Proof.
  intros w project.
  apply (project_gestures_commit_failure_no_rollback w project "New").
  - vm_compute. discriminate.
  - simpl. discriminate.
  - reflexivity.
  - split; reflexivity.
  - eexists. reflexivity.
Defined.

(** Three blanks typed into the add-task field and into the title
    field of project [p1]. *)
Lemma empty_title_never_starts_transaction_witness :
  let w := {| Gesture.action_result := Normal tt;
              Gesture.apply_result := Normal tt;
              Gesture.post_result := Normal (Fulfilled tt);
              Gesture.confirm_result := true |} in
  let states := {| tasks := ∅; projects := ∅; statuses := ∅;
                   userProfile := emptyUserProfile |} in
  let project := ("p1", {| Project.id := "p1"; Project.title := "Old";
                           Project.description := None; Project.prev := None;
                           Project.next := None; Project.userId := "u1" |}) in
  let enter := {| Gesture.key := "Enter"; Gesture.value := "   " |} in
  AddNewTask.handleKeyboard w states "colA" enter
    = ([Gesture.SetInputValue ""], Normal tt)
  ∧ ProjectButton.handlePressEnterAndEscape w project enter
    = ([Gesture.SetInputValue "Old"; Gesture.Blur; Gesture.SetIsEditing false],
       Normal tt)
  ∧ Forall Gesture.outside_transaction
      (trace (AddNewTask.handleKeyboard w states "colA" enter)
       ++ trace (ProjectButton.handlePressEnterAndEscape w project enter)).
Proof.
  intros w states project enter.
  apply (empty_title_never_starts_transaction w states "colA" "   " project).
  vm_compute. reflexivity.
Defined.

(** ** The chain diagnostics *)

Section CheckTaskChains.

Import AnalyzeChains.

Implicit Types (tasks : list (TaskId * TaskType)) (task : TaskType).

(** *** Objects *)

Lemma define_keys {A} (o : list (string * A)) (member : string * A) :
  (define o member).*1 = if decide (member.1 ∈ o.*1) then o.*1 else o.*1 ++ [member.1].
Proof.
  unfold define.
  assert (Hex : existsb (λ e : string * A, String.eqb e.1 member.1) o = true
                ↔ member.1 ∈ o.*1).
  { rewrite existsb_exists, list_elem_of_fmap. split.
    - intros ([k v] & Hin & Heq). apply String.eqb_eq in Heq. simpl in Heq.
      exists (k, v). split; [done|]. by apply list_elem_of_In.
    - intros ([k v] & -> & Hin). exists (k, v). split; [by apply list_elem_of_In|].
      apply String.eqb_refl. }
  destruct (existsb _ o) eqn:Hfound.
  - rewrite decide_True by by apply Hex.
    clear. induction o as [|[k v] o IH]; [done|].
    cbn [map fmap list_fmap]. f_equal; [|exact IH].
    simpl. by destruct (String.eqb k member.1).
  - rewrite decide_False; [by rewrite fmap_app|].
    intros Hin. apply Hex in Hin. congruence.
Qed.

Lemma foldl_define_NoDup {A} (members o : list (string * A)) :
  NoDup o.*1 → NoDup (foldl define o members).*1.
Proof.
  revert o. induction members as [|member members IH]; intros o Ho; [done|].
  cbn [foldl]. apply IH. rewrite define_keys.
  destruct (decide (member.1 ∈ o.*1)) as [|Hnew]; [done|].
  apply NoDup_app. split_and!; [done| |apply NoDup_singleton].
  intros k Hk Hk'. apply list_elem_of_singleton in Hk'. by subst k.
Qed.

(** An object holds every name once. *)
Lemma parse_NoDup {A} (members : list (string * A)) : NoDup (parse members).*1.
Proof. apply foldl_define_NoDup. constructor. Qed.

Lemma foldl_define_distinct {A} (members o : list (string * A)) :
  NoDup (o.*1 ++ members.*1) → foldl define o members = o ++ members.
Proof.
  revert o. induction members as [|member members IH]; intros o Hnodup.
  - by rewrite app_nil_r.
  - cbn [foldl]. rewrite fmap_cons in Hnodup.
    assert (Hnew : member.1 ∉ o.*1).
    { apply NoDup_app in Hnodup as (_ & Hdisj & _). intros Hin.
      apply (Hdisj _ Hin). by left. }
    assert (Hdef : define o member = o ++ [member]).
    { unfold define. destruct (existsb _ o) eqn:Hfound; [|done].
      apply existsb_exists in Hfound as ([k v] & Hin & Heq).
      apply String.eqb_eq in Heq. simpl in Heq. subst k. exfalso. apply Hnew.
      apply list_elem_of_fmap. exists (member.1, v). split; [done|].
      by apply list_elem_of_In. }
    rewrite Hdef, IH; [by rewrite <- (assoc_L (++))|].
    by rewrite fmap_app, <- (assoc_L (++)).
Qed.

(** Members with pairwise different names are the properties of the
    object, in their order. *)
Lemma parse_distinct {A} (members : list (string * A)) :
  NoDup members.*1 → parse members = members.
Proof. intros Hnodup. by apply (foldl_define_distinct members []). Qed.

Lemma length_define {A} (o : list (string * A)) member :
  length (define o member) ≤ S (length o).
Proof.
  unfold define. destruct (existsb _ o).
  - rewrite length_map. lia.
  - rewrite length_app. simpl. lia.
Qed.

Lemma length_foldl_define {A} (members o : list (string * A)) :
  length (foldl define o members) ≤ length o + length members.
Proof.
  revert o. induction members as [|member members IH]; intros o; [simpl; lia|].
  cbn [foldl length]. etrans; [apply IH|]. pose proof (length_define o member). lia.
Qed.

Lemma length_parse {A} (members : list (string * A)) :
  length (parse members) ≤ length members.
Proof. apply (length_foldl_define members []). Qed.

(** [Object.entries] goes through every property once. *)
Lemma ownEntries_Permutation {A} (o : list (string * A)) : ownEntries o ≡ₚ o.
Proof.
  unfold ownEntries. rewrite merge_sort_Permutation.
  apply (filter_app_complement (λ e : string * A, is_Some (arrayIndex e.1))).
Qed.

Lemma values_Permutation tasks : values tasks ≡ₚ (parse tasks).*2.
Proof. unfold values. by rewrite ownEntries_Permutation. Qed.

Lemma length_values tasks : length (values tasks) ≤ length tasks.
Proof.
  rewrite values_Permutation, length_fmap. apply length_parse.
Qed.

Lemma lookupTask_values tasks id task :
  lookupTask tasks id = Own task → task ∈ values tasks.
Proof.
  unfold lookupTask. intros H.
  destruct (List.find _ (parse tasks)) as [[k t]|] eqn:Hfind.
  - injection H as <-. apply find_some in Hfind as [Hin _].
    apply list_elem_of_In in Hin. rewrite values_Permutation.
    by apply (list_elem_of_fmap_2 snd) in Hin.
  - by destruct (bool_decide _).
Qed.

Lemma filter_none {A} (P : A → Prop) `{!∀ x, Decision (P x)} (l : list A) :
  (∀ x, x ∈ l → ¬ P x) → filter P l = [].
Proof.
  induction l as [|x l IH]; intros Hall; [done|].
  rewrite filter_cons, decide_False by (apply Hall; by left).
  apply IH. intros y Hy. apply Hall. by right.
Qed.

(** *** Grouping *)


Lemma existsb_status groups statusId :
  existsb (λ entry : string * list TaskType, String.eqb (fst entry) statusId) groups = true
  ↔ statusId ∈ groups.*1.
Proof.
  rewrite existsb_exists, list_elem_of_fmap. split.
  - intros ([k v] & Hin & Heq). apply String.eqb_eq in Heq. simpl in Heq.
    exists (k, v). split; [done|]. by apply list_elem_of_In.
  - intros ([k v] & -> & Hin). exists (k, v). split; [by apply list_elem_of_In|].
    apply String.eqb_refl.
Qed.

Lemma push_keys (groups : list (string * list TaskType)) task :
  (map (λ entry : string * list TaskType,
          if String.eqb (fst entry) (Task.status task)
          then (fst entry, snd entry ++ [task]) else entry) groups).*1
  = groups.*1.
Proof.
  induction groups as [|[k v] groups IH]; [done|].
  cbn [map fmap list_fmap]. f_equal; [|exact IH].
  simpl. by destruct (String.eqb k (Task.status task)).
Qed.

Lemma pushTask_grouped seen groups groups' task :
  grouped seen groups → pushTask groups task = Normal groups' →
  grouped (seen ++ [task]) groups'.
Proof.
  intros [Hmem Hcov]. unfold pushTask.
  destruct (existsb _ groups) eqn:Hex.
  - intros [= <-]. apply existsb_status in Hex. split.
    + intros statusId members Hin.
      apply list_elem_of_fmap in Hin as ([k v] & Heq & Hin).
      specialize (Hmem k v Hin) as [-> Hne]. simpl in Heq.
      rewrite filter_app, filter_cons, filter_nil.
      destruct (String.eqb k (Task.status task)) eqn:Hk; simplify_eq.
      * apply String.eqb_eq in Hk. subst k.
        rewrite decide_True by done. split; [done|].
        intros Happ. by apply app_eq_nil in Happ as [_ ?].
      * apply String.eqb_neq in Hk.
        rewrite decide_False by done. by rewrite app_nil_r.
    + intros t Hin. rewrite push_keys.
      apply elem_of_app in Hin as [Hin|Hin]; [by apply Hcov|].
      by apply list_elem_of_singleton in Hin as ->.
  - case_bool_decide; [done|]. intros [= <-].
    assert (Hnew : Task.status task ∉ groups.*1).
    { intros Hin. apply existsb_status in Hin. congruence. }
    split.
    + intros statusId members Hin. apply elem_of_app in Hin as [Hin|Hin].
      * specialize (Hmem _ _ Hin) as [-> Hne].
        rewrite filter_app, filter_cons, filter_nil.
        rewrite decide_False, app_nil_r; [done|].
        intros <-. apply Hnew. apply list_elem_of_fmap. by exists (Task.status task, filter (λ task0, Task.status task0 = Task.status task) seen).
      * apply list_elem_of_singleton in Hin. simplify_eq.
        rewrite filter_app, filter_cons, filter_nil, decide_True by done.
        split; [|done].
        replace (filter (λ task0, Task.status task0 = Task.status task) seen)
          with (@nil TaskType); [done|].
        symmetry. apply filter_none.
        intros t Ht Hst. apply Hcov in Ht. by rewrite Hst in Ht.
    + intros t Hin. rewrite fmap_app. apply elem_of_app.
      apply elem_of_app in Hin as [Hin|Hin]; [left; by apply Hcov|].
      apply list_elem_of_singleton in Hin as ->. right. simpl. by left.
Qed.

(** The push goes through unless the status of the task is a name of
    [inherited]; the entries of [tasksByStatus] never are. *)
Lemma pushTask_throws seen groups task :
  grouped seen groups → Forall (λ t, Task.status t ∉ inherited) seen →
  (∃ e, pushTask groups task = Throw e) ↔ Task.status task ∈ inherited.
Proof.
  intros [Hmem Hcov] Hplain. unfold pushTask.
  destruct (existsb _ groups) eqn:Hex.
  - apply existsb_status in Hex. split; [by intros [? ?]|]. intros Hbad. exfalso.
    apply list_elem_of_fmap in Hex as ([k members] & Hk & Hin). simpl in Hk. subst k.
    destruct (Hmem _ _ Hin) as [-> Hne].
    destruct (filter _ seen) as [|t l] eqn:Hf; [done|].
    assert (Ht : t ∈ filter (λ t, Task.status t = Task.status task) seen)
      by (rewrite Hf; by left).
    apply list_elem_of_filter in Ht as [Hst Ht].
    rewrite Forall_forall in Hplain. apply (Hplain t Ht). by rewrite Hst.
  - case_bool_decide; [split; [done|eauto]|]. split; [by intros [? ?]|done].
Qed.

Lemma forEachTask_grouped seen rest groups groups' :
  grouped seen groups → forEachTask groups rest = Normal groups' →
  grouped (seen ++ rest) groups'.
Proof.
  revert seen groups. induction rest as [|task rest IH]; intros seen groups Hg.
  - intros [= <-]. by rewrite app_nil_r.
  - cbn [forEachTask]. destruct (pushTask groups task) as [pushed|e] eqn:Hpush; [|done].
    rewrite (assoc_L (++) seen [task] rest : seen ++ task :: rest = (seen ++ [task]) ++ rest).
    apply IH. by apply (pushTask_grouped seen groups).
Qed.

Lemma forEachTask_throws seen rest groups :
  grouped seen groups → Forall (λ t, Task.status t ∉ inherited) seen →
  (∃ e, forEachTask groups rest = Throw e)
  ↔ Exists (λ t, Task.status t ∈ inherited) rest.
Proof.
  revert seen groups. induction rest as [|task rest IH]; intros seen groups Hg Hplain.
  - cbn. rewrite Exists_nil. split; [by intros [? ?]|done].
  - cbn [forEachTask]. rewrite Exists_cons.
    pose proof (pushTask_throws seen groups task Hg Hplain) as Hpush.
    destruct (pushTask groups task) as [pushed|e] eqn:Hp.
    + assert (Hok : Task.status task ∉ inherited).
      { intros Hbad. apply Hpush in Hbad as [? ?]. done. }
      rewrite (IH (seen ++ [task]) pushed).
      * tauto.
      * by apply (pushTask_grouped seen groups).
      * apply Forall_app. split; [done|]. by constructor.
    + split; [intros _; left; apply Hpush; eauto|eauto].
Qed.

Lemma grouped_nil : grouped [] [].
Proof.
  split; intros *; [intros H; by apply elem_of_nil in H|intros H; by apply elem_of_nil in H].
Qed.

Lemma groupByStatus_grouped tasks groups :
  groupByStatus tasks = Normal groups → grouped (values tasks) groups.
Proof. apply (forEachTask_grouped [] (values tasks) []), grouped_nil. Qed.

(** The grouping throws exactly when the status of some task is a
    name of [inherited]. *)
Lemma groupByStatus_throws tasks :
  (∃ e, groupByStatus tasks = Throw e)
  ↔ Exists (λ t, Task.status t ∈ inherited) (values tasks).
Proof. apply (forEachTask_throws [] (values tasks) []); [apply grouped_nil|constructor]. Qed.

Lemma groupByStatus_returns tasks :
  Forall (λ t, Task.status t ∉ inherited) (values tasks) →
  ∃ groups, groupByStatus tasks = Normal groups.
Proof.
  intros Hplain. destruct (groupByStatus tasks) as [groups|e] eqn:Hg; [eauto|].
  exfalso. assert (Hex : ∃ e, groupByStatus tasks = Throw e) by eauto.
  apply groupByStatus_throws, Exists_exists in Hex as (t & Hin & Hbad).
  rewrite Forall_forall in Hplain. by apply (Hplain t).
Qed.

(** Every status that occurs has its entry, holding its tasks. *)
Lemma groupByStatus_entry data statusId groups :
  groupByStatus (taskList data) = Normal groups →
  tasksInStatus data statusId ≠ [] →
  (statusId, tasksInStatus data statusId) ∈ ownEntries groups.
Proof.
  intros Hgroups Hne. rewrite ownEntries_Permutation.
  destruct (groupByStatus_grouped _ _ Hgroups) as [Hmem Hcov].
  destruct (tasksInStatus data statusId) as [|task rest] eqn:HP; [done|].
  assert (Hin : task ∈ tasksInStatus data statusId) by (rewrite HP; by left).
  apply list_elem_of_filter in Hin as [Hst Hin].
  apply Hcov in Hin. rewrite Hst in Hin.
  apply list_elem_of_fmap in Hin as ([k members] & Heq & Hin). simpl in Heq. subst k.
  destruct (Hmem _ _ Hin) as [Heq _]. fold (tasksInStatus data statusId) in Heq.
  by rewrite <- HP, <- Heq.
Qed.

(** Whatever the check of a status finds is in the array returned. *)
Lemma checkStatus_reported data statusId issues issue :
  findIssues data = Normal issues →
  tasksInStatus data statusId ≠ [] →
  issue ∈ checkStatus (taskList data) (statusId, tasksInStatus data statusId) →
  issue ∈ issues.
Proof.
  unfold findIssues. intros Hfound Hne Hin.
  destruct (groupByStatus (taskList data)) as [groups|e] eqn:Hgroups; [|done].
  injection Hfound as <-.
  apply list_elem_of_In, in_flat_map.
  exists (statusId, tasksInStatus data statusId).
  split; apply list_elem_of_In; [by apply groupByStatus_entry|done].
Qed.

(** *** The walk along a chain *)


Lemma size_list_to_set_le (l : list TaskId) :
  size (list_to_set l : gset TaskId) ≤ length l.
Proof.
  induction l as [|x l IH]; [done|]. cbn [list_to_set foldr length].
  rewrite size_union_alt, size_singleton.
  assert (size ((list_to_set l : gset TaskId) ∖ {[x]}) ≤ size (list_to_set l : gset TaskId)).
  { apply subseteq_size. set_solver. }
  lia.
Qed.

Lemma size_idsOf tasks : size (idsOf tasks) ≤ length tasks.
Proof.
  unfold idsOf. etrans; [apply size_list_to_set_le|].
  rewrite length_fmap. apply length_values.
Qed.

Lemma idsOf_elem tasks task : task ∈ values tasks → Task.id task ∈ idsOf tasks.
Proof. intros Hin. unfold idsOf. apply elem_of_list_to_set. by apply list_elem_of_fmap_2. Qed.

Lemma visit_shrinks tasks task (visited : gset TaskId) :
  task ∈ values tasks → Task.id task ∉ visited →
  size (idsOf tasks ∖ ({[Task.id task]} ∪ visited)) < size (idsOf tasks ∖ visited).
Proof.
  intros Hin Hfresh. apply subset_size. apply idsOf_elem in Hin.
  split; [set_solver|]. intros Hsub. specialize (Hsub (Task.id task)). set_solver.
Qed.

(** The bound on the iterations is never reached: more fuel changes
    nothing. *)
Lemma walk_fuel fuel fuel' tasks statusId current visited chainLength :
  current ∈ values tasks →
  size (idsOf tasks ∖ visited) < fuel →
  size (idsOf tasks ∖ visited) < fuel' →
  walk fuel tasks statusId current visited chainLength
  = walk fuel' tasks statusId current visited chainLength.
Proof.
  revert fuel' current visited chainLength.
  induction fuel as [|fuel IH]; intros [|fuel'] current visited chainLength Hin Hsize Hsize';
    [lia..|].
  cbn [walk]. case_bool_decide as Hvis; [done|].
  destruct (truthy (Task.next current)); [|done].
  destruct (lookupTask tasks _) as [nextTask| |] eqn:Hnext; [|done..].
  pose proof (visit_shrinks tasks current visited Hin Hvis).
  rewrite (IH fuel'); [done|by eapply lookupTask_values|lia..].
Qed.

(** A walk that raises no issue went along a path of tasks with
    pairwise different identifiers, each after the first one found in
    the status walked, and stopped at the only one without [next]. *)
Lemma walk_clean fuel tasks statusId current visited chainLength n :
  current ∈ values tasks →
  size (idsOf tasks ∖ visited) < fuel →
  walk fuel tasks statusId current visited chainLength = ([], n) →
  ∃ path,
    n = chainLength + length (current :: path)
    ∧ NoDup (Task.id <$> current :: path)
    ∧ (∀ task, task ∈ current :: path → Task.id task ∉ visited)
    ∧ (∀ task, task ∈ path → Task.status task = statusId ∧ task ∈ values tasks)
    ∧ length (filter isTail (current :: path)) = 1
    ∧ linked_path tasks statusId current path.
Proof.
  revert current visited chainLength.
  induction fuel as [|fuel IH]; intros current visited chainLength Hin Hsize; [lia|].
  cbn [walk]. case_bool_decide as Hvis; [done|].
  destruct (truthy (Task.next current)) eqn:Htruthy.
  - destruct (lookupTask tasks _) as [nextTask| |] eqn:Hnext; [|done..].
    destruct (walk fuel _ _ nextTask _ _) as [rest n'] eqn:Hwalk.
    case_bool_decide as Hprev; [|done].
    destruct (String.eqb (Task.status nextTask) statusId) eqn:Hstatus; [|done].
    intros [= -> ->]. apply String.eqb_eq in Hstatus.
    pose proof (lookupTask_values _ _ _ Hnext) as Hnin.
    destruct (IH nextTask ({[Task.id current]} ∪ visited) (S chainLength))
      as (path & Hn & Hnodup & Hfresh & Hpath & Htail & Hlinked); [done| |done|].
    { pose proof (visit_shrinks tasks current visited Hin Hvis). lia. }
    exists (nextTask :: path). split_and!.
    + simpl in *. lia.
    + rewrite fmap_cons. apply NoDup_cons. split; [|done].
      intros Hdup. apply list_elem_of_fmap in Hdup as (task & Hid & Htask).
      apply Hfresh in Htask. rewrite <- Hid in Htask. set_solver.
    + intros task Htask. apply elem_of_cons in Htask as [->|Htask]; [done|].
      apply Hfresh in Htask. set_solver.
    + intros task Htask. apply elem_of_cons in Htask as [->|Htask]; [done|].
      by apply Hpath.
    + rewrite filter_cons, decide_False; [done|].
      unfold isTail. by rewrite Htruthy.
    + done.
  - intros [= <-]. exists []. split_and!.
    + simpl. lia.
    + apply NoDup_singleton.
    + intros task Htask. by apply list_elem_of_singleton in Htask as ->.
    + intros task Htask. by apply elem_of_nil in Htask.
    + by rewrite filter_cons, decide_True, filter_nil.
    + done.
Qed.

(** *** What the report tells about a status *)

(** A status whose check raises nothing is one chain: its tasks are
    those of a linked path that starts at its only head. *)
Lemma checkStatus_path data statusId :
  checkStatus (taskList data) (statusId, tasksInStatus data statusId) = [] →
  ∃ head path,
    filter isHead (tasksInStatus data statusId) = [head]
    ∧ head :: path ≡ₚ tasksInStatus data statusId
    ∧ NoDup (Task.id <$> head :: path)
    ∧ length (filter isTail (head :: path)) = 1
    ∧ linked_path (taskList data) statusId head path.
Proof.
  unfold checkStatus. set (members := tasksInStatus data statusId).
  intros Hclean. apply app_eq_nil in Hclean as [Hcount Hwalk].
  destruct (Nat.eqb _ 1) eqn:Hone; [|done]. apply Nat.eqb_eq in Hone.
  destruct (filter isHead members) as [|head [|? ?]] eqn:Hheads; [done| |done].
  assert (Hhead : head ∈ members).
  { assert (Hin : head ∈ filter isHead members) by (rewrite Hheads; by left).
    by apply list_elem_of_filter in Hin as [_ ?]. }
  assert (Hvalues : ∀ task, task ∈ members → task ∈ values (taskList data)).
  { intros task Htask. by apply list_elem_of_filter in Htask as [_ ?]. }
  destruct (walk _ _ _ head ∅ 0) as [found n] eqn:Hw.
  apply app_eq_nil in Hwalk as [-> Hlen].
  destruct (Nat.eqb n (length members)) eqn:Hn; [|done]. apply Nat.eqb_eq in Hn.
  apply walk_clean in Hw as (path & Hlength & Hnodup & _ & Hpath & Htail & Hlinked);
    [|by apply Hvalues|].
  2:{ pose proof (size_idsOf (taskList data)).
      assert (size (idsOf (taskList data) ∖ ∅) ≤ size (idsOf (taskList data)))
        by (apply subseteq_size; set_solver).
      lia. }
  exists head, path. split_and!; [done| |done..].
  apply submseteq_length_Permutation; [|simpl in *; lia].
  apply NoDup_submseteq; [by eapply NoDup_fmap_1|].
  intros task Htask. apply elem_of_cons in Htask as [->|Htask]; [done|].
  apply Hpath in Htask as [Hst Hin]. by apply list_elem_of_filter.
Qed.

(** So it has exactly one head and exactly one task without [next]. *)
Lemma checkStatus_clean data statusId :
  checkStatus (taskList data) (statusId, tasksInStatus data statusId) = [] →
  length (filter isHead (tasksInStatus data statusId)) = 1
  ∧ length (filter isTail (tasksInStatus data statusId)) = 1.
Proof.
  intros (head & path & Hheads & Hperm & _ & Htail & _)%checkStatus_path.
  rewrite Hheads. split; [done|]. by rewrite <- Hperm.
Qed.

End CheckTaskChains.

(** ** Operations on the records of one kind *)


Global Instance TaskLaws : LinkedLaws TaskType.
Proof. by split. Qed.

Global Instance ProjectLaws : LinkedLaws ProjectType.
Proof. split; try done. by intros ? []. Qed.

Global Instance StatusLaws : LinkedLaws StatusType.
Proof. by split. Qed.

Section Store.

Context {R : Type} `{LinkedLaws R}.

Implicit Types (m : gmap string R) (k : Key) (id : string) (ops : list (Mutation R)).

Lemma run_app ops1 ops2 m : run (ops1 ++ ops2) m = run ops2 (run ops1 m).
Proof. apply foldl_app. Qed.

Lemma run_cons o ops m : run (o :: ops) m = run ops (run_mutation m o).
Proof. done. Qed.

(** An operation changes the record it is aimed at and no other. *)
Lemma run_mutation_frame o m id :
  id ≠ target o → run_mutation m o !! id = m !! id.
Proof.
  destruct o as [r|id' f|id']; simpl; intros Hne.
  - by rewrite lookup_insert_ne.
  - by rewrite lookup_alter_ne.
  - by rewrite lookup_delete_ne.
Qed.

Lemma touched_cons o ops : touched (o :: ops) = {[target o]} ∪ touched ops.
Proof. done. Qed.

Lemma run_frame ops m id :
  id ∉ touched ops → run ops m !! id = m !! id.
Proof.
  revert m. induction ops as [|o ops IH]; intros m Hid; [done|].
  rewrite touched_cons in Hid. rewrite run_cons, IH by set_solver.
  apply run_mutation_frame. set_solver.
Qed.

(** A snapshot of the records named in [ids]. *)
Lemma snapshot_lookup (ids : gset string) m id :
  filter (λ e : string * R, e.1 ∈ ids) m !! id
  = if decide (id ∈ ids) then m !! id else None.
Proof.
  case_decide as Hin.
  - destruct (m !! id) as [r|] eqn:Hm.
    + by apply map_lookup_filter_Some.
    + apply map_lookup_filter_None. by left.
  - apply map_lookup_filter_None. right. by intros r _.
Qed.

Lemma restore_lookup ids (saved m : gmap string R) id :
  (∀ i, i ∉ ids → saved !! i = None) →
  restore ids saved m !! id = if decide (id ∈ ids) then saved !! id else m !! id.
Proof.
  intros Hsaved. unfold restore. case_decide as Hin.
  - destruct (saved !! id) as [r|] eqn:Hs.
    + by apply lookup_union_Some_l.
    + apply lookup_union_None. split; [done|].
      apply map_lookup_filter_None. right. intros ? _ Hn. by apply Hn.
  - rewrite lookup_union_r by by apply Hsaved.
    destruct (m !! id) as [r|] eqn:Hm.
    + by apply map_lookup_filter_Some.
    + apply map_lookup_filter_None. by left.
Qed.

(** Rollback from a snapshot leaves a record outside [ids] as it is,
    in whatever store it is applied. *)
Lemma restore_snapshot_frame ids m0 m id :
  id ∉ ids →
  restore ids (filter (λ e : string * R, e.1 ∈ ids) m0) m !! id = m !! id.
Proof.
  intros Hid. rewrite restore_lookup, decide_False; [done..|].
  intros i Hi. by rewrite snapshot_lookup, decide_False.
Qed.

(** A store that differs from [m0] inside [ids] only is taken back to
    [m0]. *)
Lemma restore_snapshot ids m0 m :
  (∀ id, id ∉ ids → m !! id = m0 !! id) →
  restore ids (filter (λ e : string * R, e.1 ∈ ids) m0) m = m0.
Proof.
  intros Hframe. apply map_eq. intros id. rewrite restore_lookup.
  - case_decide as Hin.
    + by rewrite snapshot_lookup, decide_True.
    + by apply Hframe.
  - intros i Hi. by rewrite snapshot_lookup, decide_False.
Qed.

(** Apply followed by rollback gives back the store. *)
Lemma restore_run ops m :
  restore (touched ops) (backup_of m ops) (run ops m) = m.
Proof. apply restore_snapshot. intros id Hid. by apply run_frame. Qed.

End Store.

(** ** Apply and rollback on the working copy *)

Section Rollback.

Import Engine.

Implicit Types (s : States) (o : Op) (opList : list Op).

Lemma touched_of_cons kind o opList :
  touched_of kind (o :: opList)
  = (if decide (type o = kind) then {[target_id o]} else ∅) ∪ touched_of kind opList.
Proof.
  unfold touched_of. rewrite filter_cons.
  case_decide; [done|]. by rewrite (left_id_L ∅ (∪)).
Qed.

Lemma touches_profile_cons o opList :
  touches_profile (o :: opList) = false →
  type o ≠ userProfile_ ∧ touches_profile opList = false.
Proof.
  unfold touches_profile. rewrite !bool_decide_eq_false, Exists_cons. tauto.
Qed.

(** An entry of the operation list changes, in the store of its kind,
    the record it is aimed at and nothing else. *)
Local Ltac frame_cases o :=
  destruct o as [[] [] []]; cbn [apply_op type operation data tasks projects
    statuses userProfile target_id]; try done.

Lemma apply_op_tasks_frame s o id :
  (type o = task → id ≠ target_id o) →
  tasks (apply_op s o) !! id = tasks s !! id.
Proof.
  frame_cases o; intros Hne; specialize (Hne eq_refl);
    by apply (run_mutation_frame (R:=TaskType)).
Qed.

Lemma apply_op_projects_frame s o id :
  (type o = project → id ≠ target_id o) →
  projects (apply_op s o) !! id = projects s !! id.
Proof.
  frame_cases o; intros Hne; specialize (Hne eq_refl);
    by apply (run_mutation_frame (R:=ProjectType)).
Qed.

Lemma apply_op_statuses_frame s o id :
  (type o = status → id ≠ target_id o) →
  statuses (apply_op s o) !! id = statuses s !! id.
Proof.
  frame_cases o; intros Hne; specialize (Hne eq_refl);
    by apply (run_mutation_frame (R:=StatusType)).
Qed.

Lemma apply_op_profile_frame s o :
  type o ≠ userProfile_ → userProfile (apply_op s o) = userProfile s.
Proof. by frame_cases o. Qed.

Lemma apply_tasks_frame opList s id :
  id ∉ touched_of task opList → tasks (apply opList s) !! id = tasks s !! id.
Proof.
  revert s. induction opList as [|o opList IH]; intros s Hid; [done|].
  rewrite touched_of_cons in Hid. unfold apply in *. cbn [foldl].
  rewrite IH by set_solver. apply apply_op_tasks_frame.
  intros Hty. rewrite decide_True in Hid by done. set_solver.
Qed.

Lemma apply_projects_frame opList s id :
  id ∉ touched_of project opList → projects (apply opList s) !! id = projects s !! id.
Proof.
  revert s. induction opList as [|o opList IH]; intros s Hid; [done|].
  rewrite touched_of_cons in Hid. unfold apply in *. cbn [foldl].
  rewrite IH by set_solver. apply apply_op_projects_frame.
  intros Hty. rewrite decide_True in Hid by done. set_solver.
Qed.

Lemma apply_statuses_frame opList s id :
  id ∉ touched_of status opList → statuses (apply opList s) !! id = statuses s !! id.
Proof.
  revert s. induction opList as [|o opList IH]; intros s Hid; [done|].
  rewrite touched_of_cons in Hid. unfold apply in *. cbn [foldl].
  rewrite IH by set_solver. apply apply_op_statuses_frame.
  intros Hty. rewrite decide_True in Hid by done. set_solver.
Qed.

Lemma apply_profile_frame opList s :
  touches_profile opList = false → userProfile (apply opList s) = userProfile s.
Proof.
  revert s. induction opList as [|o opList IH]; intros s Hprof; [done|].
  apply touches_profile_cons in Hprof as [Hty Hprof].
  unfold apply in *. cbn [foldl]. rewrite IH by done.
  by apply apply_op_profile_frame.
Qed.

(** Apply followed by rollback gives back the working copy. *)
Lemma rollback_after_apply (s : States) (opList : list Op) :
  restoreBackup {| ops := opList; backup := createBackup s opList |} (apply opList s) = s.
Proof.
  unfold restoreBackup, createBackup.
  cbn [ops backup b_tasks b_projects b_statuses b_userProfile].
  destruct s as [ts ps ss u]. f_equal.
  - apply restore_snapshot. intros id Hid.
    by apply (apply_tasks_frame opList (mkStates ts ps ss u)).
  - apply restore_snapshot. intros id Hid.
    by apply (apply_projects_frame opList (mkStates ts ps ss u)).
  - apply restore_snapshot. intros id Hid.
    by apply (apply_statuses_frame opList (mkStates ts ps ss u)).
  - destruct (touches_profile opList) eqn:Hprof; [done|].
    by apply (apply_profile_frame opList (mkStates ts ps ss u)).
Qed.

(** The transactions the builder assembles are of that form. *)
Corollary gesture_rollback s i :
  restoreBackup (gesture s i) (step s i) = s.
Proof. apply (rollback_after_apply s (ops_of s i)). Qed.

Corollary transaction_rollback s intents :
  restoreBackup (transaction s intents) (apply (ops (transaction s intents)) s) = s.
Proof. apply (rollback_after_apply s (accumulate s intents)). Qed.

(** C3.  For every working copy [s] and every operation list whose
    backup is taken from [s] before the optimistic apply, apply followed
    at once by the rollback gives back [s]: every record the transaction
    touched has its fields of before the apply, [prev] and [next]
    included, and so has every other record. *)
Theorem apply_then_rollback_restores (s : States) (opList : list Op) :
  let tx := {| ops := opList; backup := createBackup s opList |} in
  restoreBackup tx (apply opList s) = s
  ∧ (∀ id, id ∈ touched_of task opList →
       tasks (restoreBackup tx (apply opList s)) !! id = tasks s !! id)
  ∧ (∀ id, id ∈ touched_of project opList →
       projects (restoreBackup tx (apply opList s)) !! id = projects s !! id)
  ∧ (∀ id, id ∈ touched_of status opList →
       statuses (restoreBackup tx (apply opList s)) !! id = statuses s !! id).
Proof. intros tx. unfold tx. by rewrite rollback_after_apply. Qed.

(** With the [createBackup] of the specification, the maps of the
    backup hold a copy of exactly the records the operations are aimed
    at (direct targets and relinked neighbours) that exist in the
    working copy, each as the working copy has it, and the profile of
    the working copy; the rollback, in whatever state [s'] it is run,
    leaves every record the transaction did not touch as it is. *)
Lemma backup_is_scoped_to_touched_records (s : States) (opList : list Op) :
  let tx := {| ops := opList; backup := createBackup s opList |} in
  (∀ id,
     b_tasks (backup tx) !! id
       = (if decide (id ∈ touched_of task opList) then tasks s !! id else None)
     ∧ b_projects (backup tx) !! id
       = (if decide (id ∈ touched_of project opList) then projects s !! id else None)
     ∧ b_statuses (backup tx) !! id
       = (if decide (id ∈ touched_of status opList) then statuses s !! id else None))
  ∧ b_userProfile (backup tx) = userProfile s
  ∧ (∀ s' id,
       (id ∉ touched_of task opList →
        tasks (restoreBackup tx s') !! id = tasks s' !! id)
       ∧ (id ∉ touched_of project opList →
          projects (restoreBackup tx s') !! id = projects s' !! id)
       ∧ (id ∉ touched_of status opList →
          statuses (restoreBackup tx s') !! id = statuses s' !! id))
  ∧ (∀ s', touches_profile opList = false →
       userProfile (restoreBackup tx s') = userProfile s').
Proof.
  intros tx. unfold tx, restoreBackup, createBackup.
  cbn [ops backup b_tasks b_projects b_statuses b_userProfile tasks projects
       statuses userProfile].
  split_and!.
  - intros id. split_and!; apply snapshot_lookup.
  - done.
  - intros s' id. split_and!; intros Hid; by apply restore_snapshot_frame.
  - intros s' ->. done.
Qed.

End Rollback.

(** ** Insertion at the head, self-move, and the move scenario *)

Section HeadInsertion.

Context {R : Type} `{LinkedLaws R}.

Implicit Types (m : gmap string R) (k : Key) (id : string).

Lemma members_lookup m k id r :
  (id, r) ∈ members m k ↔ m !! id = Some r ∧ rkey r = k.
Proof.
  unfold members. rewrite list_elem_of_filter, elem_of_map_to_list. simpl. tauto.
Qed.

Lemma heads_lookup m k id r :
  (id, r) ∈ heads m k ↔ m !! id = Some r ∧ rkey r = k ∧ rprev r = None.
Proof.
  unfold heads. rewrite list_elem_of_filter, members_lookup. simpl. tauto.
Qed.

Lemma tails_lookup m k id r :
  (id, r) ∈ tails m k ↔ m !! id = Some r ∧ rkey r = k ∧ rnext r = None.
Proof.
  unfold tails. rewrite list_elem_of_filter, members_lookup. simpl. tauto.
Qed.

(** The head found is a member of the partition without predecessor. *)
Lemma head_of_Some m k h :
  head_of m k = Some h → ∃ rh, m !! h = Some rh ∧ rkey rh = k ∧ rprev rh = None.
Proof.
  unfold head_of. destruct (heads m k) as [|[h' rh] rest] eqn:Hheads; [done|].
  intros [= <-]. exists rh. apply heads_lookup. rewrite Hheads. by left.
Qed.

Lemma head_of_empty m k : members m k = [] → head_of m k = None.
Proof. unfold head_of, heads. by intros ->. Qed.


Lemma insert_at_head m r :
  m !! rid r = None → head_insertion m r (run (insert m r None) m).
Proof.
  intros Hfresh. unfold head_insertion, insert, slot, relink. cbn [fst snd].
  set (r1 := merge (links (Some None) (Some (head_of m (rkey r)))) r).
  assert (Hid : rid r1 = rid r) by apply rid_links.
  rewrite app_nil_l, run_cons. cbn [run_mutation]. rewrite Hid.
  destruct (head_of m (rkey r)) as [h|] eqn:Hhead.
  - destruct (head_of_Some _ _ _ Hhead) as (rh & Hh & Hk & Hp).
    assert (Hne : h ≠ rid r) by (intros ->; congruence).
    cbn [run foldl run_mutation]. split.
    + exists r1. rewrite lookup_alter_ne, lookup_insert_eq by done.
      unfold r1. rewrite rkey_links, rprev_links, rnext_links. split_and!; try done.
      intros Hempty. apply head_of_empty in Hempty. congruence.
    + intros h' rh' Heq Hh'. simplify_eq.
      exists (merge (links (Some (Some (rid r))) None) rh).
      rewrite lookup_alter_eq, lookup_insert_ne, Hh by done.
      by rewrite rkey_links, rprev_links, rnext_links.
  - cbn [run foldl]. split; [|done].
    exists r1. rewrite lookup_insert_eq. unfold r1.
    by rewrite rkey_links, rprev_links, rnext_links.
Qed.

(** Dropping a record where it is yields no operation. *)
Lemma move_self m id r :
  m !! id = Some r → move m id (rkey r) (rprev r) = [].
Proof. intros Hr. unfold move. rewrite Hr. by rewrite decide_True. Qed.

End HeadInsertion.

Section EngineOps.

Import Engine.

Implicit Types (s : States).

(** The operations of one kind act on the store of that kind. *)
Lemma apply_task_ops (muts : list (Mutation TaskType)) s :
  apply (task_op <$> muts) s
  = mkStates (run muts (tasks s)) (projects s) (statuses s) (userProfile s).
Proof.
  revert s. induction muts as [|o muts IH]; intros s; [by destruct s|].
  rewrite fmap_cons. unfold apply in *. cbn [foldl]. rewrite IH.
  by destruct o.
Qed.

Lemma apply_project_ops (muts : list (Mutation ProjectType)) s :
  apply (project_op <$> muts) s
  = mkStates (tasks s) (run muts (projects s)) (statuses s) (userProfile s).
Proof.
  revert s. induction muts as [|o muts IH]; intros s; [by destruct s|].
  rewrite fmap_cons. unfold apply in *. cbn [foldl]. rewrite IH.
  by destruct o.
Qed.

Lemma apply_status_ops (muts : list (Mutation StatusType)) s :
  apply (status_op <$> muts) s
  = mkStates (tasks s) (projects s) (run muts (statuses s)) (userProfile s).
Proof.
  revert s. induction muts as [|o muts IH]; intros s; [by destruct s|].
  rewrite fmap_cons. unfold apply in *. cbn [foldl]. rewrite IH.
  by destruct o.
Qed.

(** With the [insert] of the specification, an add of a task, project
    or status without neighbour ([afterId = null]) puts the new record
    at the head of its partition:
    afterwards the new record has [prev = null] and as [next] the
    identifier of the former head (or [null] if the partition was
    empty), and the former head has the new record as [prev]. *)
Theorem add_without_neighbour_inserts_at_head (s : States) :
  (∀ t : TaskType, tasks s !! Task.id t = None →
     head_insertion (tasks s) t (tasks (step s (AddTask t None))))
  ∧ (∀ p : ProjectType, projects s !! Project.id p = None →
       head_insertion (projects s) p (projects (step s (AddProject p None))))
  ∧ (∀ st : StatusType, statuses s !! Status.id st = None →
       head_insertion (statuses s) st (statuses (step s (AddStatus st None)))).
Proof.
  unfold step, gesture. cbn [ops ops_of]. split_and!.
  - intros t Hfresh. rewrite apply_task_ops. by apply insert_at_head.
  - intros p Hfresh. rewrite apply_project_ops. by apply insert_at_head.
  - intros st Hfresh. rewrite apply_status_ops. by apply insert_at_head.
Qed.

(** C6.  Moving a record to the partition it is in, after the record
    it already follows, produces the empty operation list and leaves
    the working copy, every field of every record, as it was. *)
Theorem self_move_is_noop (s : States) :
  (∀ id t, tasks s !! id = Some t →
     ops_of s (MoveTask id (Task.status t) (Task.prev t)) = []
     ∧ step s (MoveTask id (Task.status t) (Task.prev t)) = s)
  ∧ (∀ id p, projects s !! id = Some p →
       ops_of s (MoveProject id (Project.prev p)) = []
       ∧ step s (MoveProject id (Project.prev p)) = s)
  ∧ (∀ id st, statuses s !! id = Some st →
       ops_of s (MoveStatus id (Status.project st) (Status.prev st)) = []
       ∧ step s (MoveStatus id (Status.project st) (Status.prev st)) = s).
Proof.
  unfold step, gesture. cbn [ops ops_of]. split_and!.
  - intros id t Ht. pose proof (move_self (tasks s) id t Ht) as Hmove.
    cbn [rkey rprev TaskLinked] in Hmove. by rewrite Hmove.
  - intros id p Hp. pose proof (move_self (projects s) id p Hp) as Hmove.
    cbn [rkey rprev ProjectLinked] in Hmove. by rewrite Hmove.
  - intros id st Hst. pose proof (move_self (statuses s) id st Hst) as Hmove.
    cbn [rkey rprev StatusLinked] in Hmove. by rewrite Hmove.
Qed.

End EngineOps.

(** ** The move scenario *)

Section MoveScenario.

Import Engine Scenario.

(** C5.  With partition [colA] holding [T1 -> T2 -> T3] and [colB]
    empty, moving [T3] to [colB] with [afterId = null] leaves [colA]
    with the chain [T1 -> T2], [T2.next = null], and [colB] with [T3]
    alone, [T3.prev = T3.next = null]; [T3.status] is [colB] and
    [T3.previousStatus] is [colA], whatever it was before. *)
Theorem move_T3_to_empty_colB (t1 t2 t3 : TaskType) (ps : ProjectData)
    (ss : StatusData) (u : UserProfileData) :
  let s := {| tasks := chainA t1 t2 t3; projects := ps; statuses := ss;
              userProfile := u |} in
  let s' := step s (MoveTask "T3" "colB" None) in
  linearize (tasks s') "colA" = Some ["T1"; "T2"]
  ∧ linearize (tasks s') "colB" = Some ["T3"]
  ∧ tasks s' !! "T1" = Some (task_at "T1" "colA" None (Some "T2") t1)
  ∧ tasks s' !! "T2" = Some (task_at "T2" "colA" (Some "T1") None t2)
  ∧ tasks s' !! "T3"
    = Some {| Task.id := "T3"; Task.title := Task.title t3;
              Task.dueDate := Task.dueDate t3;
              Task.description := Task.description t3;
              Task.status := "colB"; Task.previousStatus := "colA";
              Task.prev := None; Task.next := None;
              Task.userId := Task.userId t3 |}
  ∧ projects s' = ps ∧ statuses s' = ss ∧ userProfile s' = u.
Proof.
  intros s s'. unfold s', s, step, gesture. cbn [ops ops_of].
  rewrite apply_task_ops. cbn [tasks projects statuses userProfile].
  split_and!; try done; vm_compute; reflexivity.
Qed.

End MoveScenario.

(** ** Chains as lists

    A partition satisfies the chain invariants exactly when its members,
    put in a list, are linked to their neighbours in the list. *)

Section Repr.

Context {R : Type} `{LinkedLaws R}.

Implicit Types (m : gmap string R) (k : Key) (id : string) (l : list string)
  (p n : option string).

Lemma first_or_app l1 l2 n : first_or (l1 ++ l2) n = first_or l1 (first_or l2 n).
Proof. by destruct l1. Qed.

Lemma last_or_cons x l p : last_or (x :: l) p = last_or l (Some x).
Proof.
  unfold last_or. destruct l as [|y l]; [done|]. rewrite last_cons_cons.
  destruct (last (y :: l)) eqn:Hlast; [done|]. by apply last_None in Hlast.
Qed.

Lemma last_or_snoc l x p : last_or (l ++ [x]) p = Some x.
Proof. unfold last_or. by rewrite last_snoc. Qed.

Lemma dlseg_app m p l1 l2 n :
  dlseg m p (l1 ++ l2) n
  ↔ dlseg m p l1 (first_or l2 n) ∧ dlseg m (last_or l1 p) l2 n.
Proof.
  revert p. induction l1 as [|x l1 IH]; intros p; simpl.
  - unfold last_or. simpl. tauto.
  - rewrite last_or_cons. setoid_rewrite IH. setoid_rewrite first_or_app.
    split.
    + intros (r & ? & ? & ? & ? & ?). split; [exists r|]; done.
    + intros [(r & ? & ? & ? & ?) ?]. exists r. done.
Qed.

Lemma dlseg_lookup m p l n x :
  dlseg m p l n → x ∈ l → is_Some (m !! x).
Proof.
  revert p. induction l as [|y l IH]; intros p Hseg Hin; [by apply elem_of_nil in Hin|].
  destruct Hseg as (r & Hr & _ & _ & Hrest).
  apply elem_of_cons in Hin as [->|Hin]; [by eexists|]. by eapply IH.
Qed.

(** The links of the record at a given place of the chain. *)
Lemma dlseg_at m p l1 x l2 n :
  dlseg m p (l1 ++ x :: l2) n →
  ∃ r, m !! x = Some r ∧ rprev r = last_or l1 p ∧ rnext r = first_or l2 n.
Proof.
  intros Hseg. apply dlseg_app in Hseg as [_ (r & ? & ? & ? & _)]. by exists r.
Qed.

(** A chain stays one in a store whose records along it have the same
    links, but for new outer ends. *)
Lemma dlseg_transport m m' p p' l n n' :
  NoDup l →
  dlseg m p l n →
  (∀ x r, x ∈ l → m !! x = Some r →
     ∃ r', m' !! x = Some r'
           ∧ rprev r' = (if decide (head l = Some x) then p' else rprev r)
           ∧ rnext r' = (if decide (last l = Some x) then n' else rnext r)) →
  dlseg m' p' l n'.
Proof.
  revert p p'. induction l as [|x l IH]; intros p p' Hnodup Hseg Hsame; [done|].
  apply NoDup_cons in Hnodup as [Hx Hnodup].
  destruct Hseg as (r & Hr & Hp & Hn & Hrest).
  destruct (Hsame x r) as (r' & Hr' & Hp' & Hn'); [by left|done|].
  exists r'. split; [done|]. rewrite decide_True in Hp' by done. split; [done|].
  split.
  - destruct l as [|y l].
    + by rewrite decide_True in Hn'.
    + rewrite decide_False in Hn'; [by rewrite Hn', Hn|].
      rewrite last_cons_cons. intros Hlast. apply Hx.
      by apply last_Some_elem_of in Hlast.
  - apply (IH (Some x)); [done..|].
    intros y ry Hy Hry. destruct (Hsame y ry) as (ry' & Hry' & Hyp & Hyn); [by right|done|].
    exists ry'. split; [done|].
    assert (x ≠ y) by (intros ->; done).
    rewrite decide_False in Hyp by (simpl; congruence). split.
    + rewrite Hyp. destruct (decide (head l = Some y)) as [Hhead|Hhead]; [|done].
      destruct l as [|z l]; [done|]. simpl in Hhead. simplify_eq.
      destruct Hrest as (rz & Hrz & Hzp & _). congruence.
    + destruct l as [|z l]; [by apply elem_of_nil in Hy|].
      by rewrite last_cons_cons in Hyn.
Qed.

Lemma dlseg_frame m m' p l n :
  NoDup l → dlseg m p l n →
  (∀ x r, x ∈ l → m !! x = Some r →
     ∃ r', m' !! x = Some r' ∧ rprev r' = rprev r ∧ rnext r' = rnext r) →
  dlseg m' p l n.
Proof.
  intros Hnodup Hseg Hsame. revert p Hseg.
  induction l as [|x l IH]; intros p Hseg; [done|].
  apply NoDup_cons in Hnodup as [Hx Hnodup].
  destruct Hseg as (r & Hr & Hp & Hn & Hrest).
  destruct (Hsame x r) as (r' & Hr' & Hp' & Hn'); [by left|done|].
  exists r'. split_and!; [done|congruence|congruence|].
  apply IH; [done| |done]. intros y ry Hy. apply Hsame. by right.
Qed.

End Repr.

(** ** Splicing a record out of its chain and linking one in *)

Section Splice.

Context {R : Type} `{LinkedLaws R}.

Implicit Types (m : gmap string R) (k : Key) (id : string) (l : list string)
  (p n : option string).

Lemma Repr_lookup m k l x :
  Repr m k l → x ∈ l → ∃ r, m !! x = Some r ∧ rkey r = k.
Proof. intros Hrepr Hx. by apply (repr_members _ _ _ Hrepr). Qed.

(** Partitions of different keys share no record. *)
Lemma Repr_disjoint m k k' l l' x :
  Repr m k l → Repr m k' l' → k ≠ k' → x ∈ l → x ∉ l'.
Proof.
  intros Hl Hl' Hne Hx Hx'.
  destruct (Repr_lookup _ _ _ _ Hl Hx) as (r & Hr & Hk).
  destruct (Repr_lookup _ _ _ _ Hl' Hx') as (r' & Hr' & Hk'). congruence.
Qed.

(** The record at a place of the chain, and its neighbours. *)
Lemma Repr_at m k l1 x l2 :
  Repr m k (l1 ++ x :: l2) →
  ∃ r, m !! x = Some r ∧ rkey r = k
       ∧ rprev r = last l1 ∧ rnext r = head l2
       ∧ (x ∉ l1) ∧ (x ∉ l2) ∧ (∀ y, y ∈ l1 → y ∉ l2).
Proof.
  intros [Hnodup Hmem Hlinks].
  destruct (dlseg_at _ _ _ _ _ _ Hlinks) as (r & Hr & Hp & Hn).
  destruct (proj1 (Hmem x)) as (r' & Hr' & Hk); [set_solver|].
  assert (r' = r) as -> by congruence.
  exists r. split_and!; try done.
  - rewrite Hp. unfold last_or. by destruct (last l1).
  - rewrite Hn. unfold first_or. by destruct (head l2).
  - apply NoDup_app in Hnodup as (_ & Hdisj & _). intros Hx. apply (Hdisj x Hx). by left.
  - apply NoDup_app in Hnodup as (_ & _ & Hnd). by apply NoDup_cons in Hnd as [? _].
  - apply NoDup_app in Hnodup as (_ & Hdisj & _). intros y Hy Hy2.
    apply (Hdisj y Hy). by right.
Qed.

(** The only member without predecessor is the first of the list. *)
Lemma Repr_head m k l x r :
  Repr m k l → m !! x = Some r → rkey r = k → rprev r = None → head l = Some x.
Proof.
  intros Hrepr Hr Hk Hp.
  assert (Hx : x ∈ l) by (apply (repr_members _ _ _ Hrepr); eauto).
  apply list_elem_of_split in Hx as (l1 & l2 & ->).
  destruct (Repr_at _ _ _ _ _ Hrepr) as (r' & Hr' & _ & Hp' & _).
  assert (r' = r) as -> by congruence.
  destruct l1 as [|y l1 _] using rev_ind; [done|].
  rewrite last_snoc in Hp'. congruence.
Qed.

Lemma Repr_last m k l x r :
  Repr m k l → m !! x = Some r → rkey r = k → rnext r = None → last l = Some x.
Proof.
  intros Hrepr Hr Hk Hn.
  assert (Hx : x ∈ l) by (apply (repr_members _ _ _ Hrepr); eauto).
  apply list_elem_of_split in Hx as (l1 & l2 & ->).
  destruct (Repr_at _ _ _ _ _ Hrepr) as (r' & Hr' & _ & _ & Hn' & _).
  assert (r' = r) as -> by congruence.
  destruct l2 as [|y l2]; [by rewrite last_snoc|]. simpl in Hn'. congruence.
Qed.

Lemma Repr_head_record m k x l :
  Repr m k (x :: l) → ∃ r, m !! x = Some r ∧ rkey r = k ∧ rprev r = None.
Proof.
  intros Hrepr. destruct (Repr_at m k [] x l Hrepr) as (r & ? & ? & ? & _).
  by exists r.
Qed.

(** A list without repetition, all of whose entries are [e], has one
    entry when it has [e]. *)
Lemma NoDup_all_same {A} (e : A) (L : list A) :
  NoDup L → e ∈ L → (∀ e', e' ∈ L → e' = e) → L = [e].
Proof.
  intros Hnodup Hin Hall. destruct L as [|a L]; [by apply elem_of_nil in Hin|].
  assert (a = e) as -> by (apply Hall; by left).
  destruct L as [|b L]; [done|].
  assert (b = e) as -> by (apply Hall; right; by left).
  apply NoDup_cons in Hnodup as [Hne _]. exfalso. apply Hne. by left.
Qed.

Lemma members_NoDup m k : NoDup (members m k).
Proof. apply NoDup_filter, NoDup_map_to_list. Qed.

Lemma heads_Repr m k x l r :
  Repr m k (x :: l) → m !! x = Some r → heads m k = [(x, r)].
Proof.
  intros Hrepr Hr. destruct (Repr_head_record _ _ _ _ Hrepr) as (r' & Hr' & Hk & Hp).
  assert (r' = r) as -> by congruence.
  apply NoDup_all_same.
  - apply NoDup_filter, members_NoDup.
  - by apply heads_lookup.
  - intros [y ry] Hy. apply heads_lookup in Hy as (Hy & Hky & Hpy).
    pose proof (Repr_head _ _ _ _ _ Hrepr Hy Hky Hpy) as Hhead.
    simpl in Hhead. simplify_eq. done.
Qed.

Lemma members_Repr_nil m k : Repr m k [] → members m k = [].
Proof.
  intros Hrepr. apply filter_none. intros [x r] Hx Hk.
  apply elem_of_map_to_list in Hx.
  assert (x ∈ []) as Hnil by (apply (repr_members _ _ _ Hrepr); eauto).
  by apply elem_of_nil in Hnil.
Qed.

(** [head_of] finds the first record of the chain. *)
Lemma head_of_Repr m k l : Repr m k l → head_of m k = head l.
Proof.
  intros Hrepr. destruct l as [|x l].
  - apply head_of_empty. by apply members_Repr_nil.
  - destruct (Repr_head_record _ _ _ _ Hrepr) as (r & Hr & _).
    unfold head_of. by rewrite (heads_Repr _ _ _ _ _ Hrepr Hr).
Qed.

(** *** Splicing out *)


Lemma spliced_chain_ok m id r m' :
  chain_ok m → m !! id = Some r → spliced m id r m' → chain_ok m'.
Proof.
  intros Hok Hr [Hgone Hrest] k.
  destruct (Hok (rkey r)) as [l0 Hl0].
  assert (Hid : id ∈ l0) by (apply (repr_members _ _ _ Hl0); eauto).
  apply list_elem_of_split in Hid as (l1 & l2 & ->).
  destruct (Repr_at _ _ _ _ _ Hl0) as (r0 & Hr0 & _ & Hp & Hn & Hid1 & Hid2 & Hdisj).
  assert (r0 = r) as -> by congruence.
  assert (Hnodup12 : NoDup (l1 ++ l2)).
  { pose proof (repr_nodup _ _ _ Hl0) as Hnd. apply NoDup_app in Hnd as (? & ? & Hnd).
    apply NoDup_cons in Hnd as [_ ?]. apply NoDup_app. split_and!; [done| |done].
    intros y Hy. by apply Hdisj. }
  (* what the splice does to the members of a partition *)
  assert (Hmembers : ∀ k' l', Repr m k' l' → ∀ x, x ≠ id →
            (x ∈ l' ↔ ∃ rx', m' !! x = Some rx' ∧ rkey rx' = k')).
  { intros k' l' Hl' x Hx. rewrite (repr_members _ _ _ Hl').
    specialize (Hrest x Hx). destruct (m !! x) as [rx|].
    - destruct Hrest as (rx' & Hrx' & Hkx & _). split.
      + intros (? & [= <-] & ?). exists rx'. split; [done|congruence].
      + intros (? & ? & ?). exists rx. split; [done|congruence].
    - rewrite Hrest. split; intros (? & ? & ?); done. }
  destruct (decide (k = rkey r)) as [->|Hk].
  - exists (l1 ++ l2). split; [done| |].
    + intros x. destruct (decide (x = id)) as [->|Hx].
      * split; [set_solver|]. intros (? & ? & ?). congruence.
      * rewrite <- (Hmembers _ _ Hl0 x Hx). set_solver.
    + pose proof (repr_links _ _ _ Hl0) as Hlinks.
      apply dlseg_app in Hlinks as [Hseg1 Hseg2].
      destruct Hseg2 as (_ & _ & _ & _ & Hseg2).
      apply NoDup_app in Hnodup12 as (Hnd1 & _ & Hnd2).
      apply dlseg_app. split.
      * apply (dlseg_transport m m' None None l1 (first_or (id :: l2) None)); [done..|].
        intros x rx Hx Hrx. assert (x ≠ id) by (intros ->; done).
        specialize (Hrest x ltac:(done)). rewrite Hrx in Hrest.
        destruct Hrest as (rx' & Hrx' & _ & Hpx & Hnx). exists rx'. split; [done|].
        split.
        -- rewrite Hpx, decide_False.
           { destruct (decide (head l1 = Some x)) as [Hhead|Hhead]; [|done].
             destruct l1 as [|y l1]; [done|].
             simpl in Hhead. simplify_eq.
             pose proof (repr_links _ _ _ Hl0) as (ry & Hry & Hyp & _).
             simpl in Hry. congruence. }
           rewrite Hn. intros Hhead. apply head_Some_elem_of in Hhead.
           by apply (Hdisj x).
        -- rewrite Hnx, Hp. destruct (decide (last l1 = Some x)) as [Hlast|Hlast].
           ++ rewrite Hn. unfold first_or. by destruct (head l2).
           ++ done.
      * apply (dlseg_transport m m' (Some id) (last_or l1 None) l2 None); [done..|].
        intros x rx Hx Hrx. assert (x ≠ id) by (intros ->; done).
        specialize (Hrest x ltac:(done)). rewrite Hrx in Hrest.
        destruct Hrest as (rx' & Hrx' & _ & Hpx & Hnx). exists rx'. split; [done|].
        split.
        -- rewrite Hpx, Hn. destruct (decide (head l2 = Some x)) as [Hhead|Hhead].
           ++ rewrite Hp. unfold last_or. by destruct (last l1).
           ++ done.
        -- rewrite Hnx, decide_False.
           { destruct (decide (last l2 = Some x)) as [Hlast|Hlast]; [|done].
             pose proof (repr_links _ _ _ Hl0) as Hlinks.
             rewrite (assoc_L (++) l1 [id] l2 : l1 ++ id :: l2 = (l1 ++ [id]) ++ l2) in Hlinks.
             apply list_elem_of_split in Hx as (l3 & l4 & ->).
             rewrite last_app_cons in Hlast.
             rewrite app_assoc in Hlinks.
             destruct (dlseg_at _ _ _ _ _ _ Hlinks) as (rx0 & Hrx0 & _ & Hn0).
             assert (rx0 = rx) as -> by congruence.
             destruct l4 as [|z l4]; [done|].
             rewrite last_cons_cons in Hlast.
             apply last_Some_elem_of in Hlast.
             apply NoDup_app in Hnd2 as (_ & _ & Hnd2).
             apply NoDup_cons in Hnd2 as [Hx4 _]. done. }
           rewrite Hp. intros Hlast. apply last_Some_elem_of in Hlast.
           by apply (Hdisj x).
  - destruct (Hok k) as [l Hl]. exists l.
    assert (Hnotin : id ∉ l).
    { intros Hin. destruct (Repr_lookup _ _ _ _ Hl Hin) as (? & ? & ?). congruence. }
    split; [apply (repr_nodup _ _ _ Hl)| |].
    + intros x. destruct (decide (x = id)) as [->|Hx].
      * split; [done|]. intros (? & ? & ?). congruence.
      * by apply Hmembers.
    + apply (dlseg_frame m m'); [apply (repr_nodup _ _ _ Hl)|apply (repr_links _ _ _ Hl)|].
      intros x rx Hx Hrx. assert (x ≠ id) by (intros ->; done).
      specialize (Hrest x ltac:(done)). rewrite Hrx in Hrest.
      destruct Hrest as (rx' & Hrx' & _ & Hpx & Hnx). exists rx'. split; [done|].
      assert (Hx0 : x ∉ l1 ++ id :: l2).
      { intros Hx0. by apply (Repr_disjoint _ _ _ _ _ _ Hl0 Hl) in Hx0. }
      rewrite Hpx, Hnx, !decide_False; [done| |].
      * rewrite Hp. intros Hlast. apply last_Some_elem_of in Hlast. set_solver.
      * rewrite Hn. intros Hhead. apply head_Some_elem_of in Hhead. set_solver.
Qed.

End Splice.

(** *** Linking in *)

Section LinkIn.

Context {R : Type} `{LinkedLaws R}.

Implicit Types (m : gmap string R) (k : Key) (id : string) (l : list string)
  (p n : option string).


Lemma linked_chain_ok m id r' m' l1 l2 :
  chain_ok m → linked_in m id r' m' →
  Repr m (rkey r') (l1 ++ l2) → rprev r' = last l1 → rnext r' = head l2 →
  chain_ok m'.
Proof.
  intros Hok (Hfresh & Hnew & Hrest) Hl0 Hp Hn k.
  pose proof (repr_nodup _ _ _ Hl0) as Hnodup.
  apply NoDup_app in Hnodup as (Hnd1 & Hdisj & Hnd2).
  assert (Hnotin : ∀ k' l', Repr m k' l' → id ∉ l').
  { intros k' l' Hl' Hin. destruct (Repr_lookup _ _ _ _ Hl' Hin) as (? & ? & ?). congruence. }
  assert (Hmembers : ∀ k' l', Repr m k' l' → ∀ x, x ≠ id →
            (x ∈ l' ↔ ∃ rx', m' !! x = Some rx' ∧ rkey rx' = k')).
  { intros k' l' Hl' x Hx. rewrite (repr_members _ _ _ Hl').
    specialize (Hrest x Hx). destruct (m !! x) as [rx|].
    - destruct Hrest as (rx' & Hrx' & Hkx & _). split.
      + intros (? & [= <-] & ?). exists rx'. split; [done|congruence].
      + intros (? & ? & ?). exists rx. split; [done|congruence].
    - rewrite Hrest. split; intros (? & ? & ?); done. }
  destruct (decide (k = rkey r')) as [->|Hk].
  - exists (l1 ++ id :: l2).
    pose proof (Hnotin _ _ Hl0) as Hid. split.
    + apply NoDup_app. split_and!; [done| |].
      * intros x Hx1 Hx2. apply elem_of_cons in Hx2 as [->|Hx2]; [set_solver|].
        by apply (Hdisj x).
      * apply NoDup_cons. split; [set_solver|done].
    + intros x. destruct (decide (x = id)) as [->|Hx].
      * split; [eauto|set_solver].
      * rewrite <- (Hmembers _ _ Hl0 x Hx). set_solver.
    + pose proof (repr_links _ _ _ Hl0) as Hlinks.
      apply dlseg_app in Hlinks as [Hseg1 Hseg2].
      apply dlseg_app. split; [|exists r'; split_and!].
      * apply (dlseg_transport m m' None None l1 (first_or l2 None)); [done..|].
        intros x rx Hx Hrx. assert (x ≠ id) by (intros ->; set_solver).
        specialize (Hrest x ltac:(done)). rewrite Hrx in Hrest.
        destruct Hrest as (rx' & Hrx' & _ & Hpx & Hnx). exists rx'. split; [done|].
        split.
        -- rewrite Hpx, decide_False.
           { destruct (decide (head l1 = Some x)) as [Hhead|Hhead]; [|done].
             destruct l1 as [|y l1]; [done|]. simpl in Hhead. simplify_eq.
             destruct Hseg1 as (ry & Hry & Hyp & _). congruence. }
           rewrite Hn. intros Hhead. apply head_Some_elem_of in Hhead.
           by apply (Hdisj x).
        -- rewrite Hnx, Hp. by destruct (decide (last l1 = Some x)).
      * done.
      * rewrite Hp. unfold last_or. by destruct (last l1).
      * rewrite Hn. unfold first_or. by destruct (head l2).
      * apply (dlseg_transport m m' (last_or l1 None) (Some id) l2 None); [done..|].
        intros x rx Hx Hrx. assert (x ≠ id) by (intros ->; set_solver).
        specialize (Hrest x ltac:(done)). rewrite Hrx in Hrest.
        destruct Hrest as (rx' & Hrx' & _ & Hpx & Hnx). exists rx'. split; [done|].
        split.
        -- rewrite Hpx, Hn. by destruct (decide (head l2 = Some x)).
        -- rewrite Hnx, decide_False.
           { destruct (decide (last l2 = Some x)) as [Hlast|Hlast]; [|done].
             apply list_elem_of_split in Hx as (l3 & l4 & ->).
             rewrite last_app_cons in Hlast.
             destruct (dlseg_at _ _ _ _ _ _ Hseg2) as (rx0 & Hrx0 & _ & Hn0).
             assert (rx0 = rx) as -> by congruence.
             destruct l4 as [|z l4]; [done|].
             rewrite last_cons_cons in Hlast. apply last_Some_elem_of in Hlast.
             apply NoDup_app in Hnd2 as (_ & _ & Hnd2).
             apply NoDup_cons in Hnd2 as [Hx4 _]. done. }
           rewrite Hp. intros Hlast. apply last_Some_elem_of in Hlast.
           by apply (Hdisj x).
  - destruct (Hok k) as [l Hl]. exists l.
    pose proof (Hnotin _ _ Hl) as Hid.
    split; [apply (repr_nodup _ _ _ Hl)| |].
    + intros x. destruct (decide (x = id)) as [->|Hx].
      * split; [done|]. intros (? & ? & ?). congruence.
      * by apply Hmembers.
    + apply (dlseg_frame m m'); [apply (repr_nodup _ _ _ Hl)|apply (repr_links _ _ _ Hl)|].
      intros x rx Hx Hrx. assert (x ≠ id) by (intros ->; done).
      specialize (Hrest x ltac:(done)). rewrite Hrx in Hrest.
      destruct Hrest as (rx' & Hrx' & _ & Hpx & Hnx). exists rx'. split; [done|].
      assert (Hx0 : x ∉ l1 ++ l2).
      { intros Hx0. by apply (Repr_disjoint _ _ _ _ _ _ Hl0 Hl) in Hx0. }
      rewrite Hpx, Hnx, !decide_False; [done| |].
      * rewrite Hp. intros Hlast. apply last_Some_elem_of in Hlast. set_solver.
      * rewrite Hn. intros Hhead. apply head_Some_elem_of in Hhead. set_solver.
Qed.

(** The place [slot] computes lies in the chain of the partition. *)
Lemma slot_Repr m k l afterId :
  Repr m k l → in_partition m k afterId →
  ∃ l1 l2, l = l1 ++ l2
           ∧ (slot m k afterId).1 = last l1 ∧ (slot m k afterId).2 = head l2.
Proof.
  intros Hrepr Hafter. destruct afterId as [a|]; simpl.
  - unfold in_partition in Hafter. destruct (m !! a) as [ra|] eqn:Hra; [|done].
    assert (Ha : a ∈ l) by (apply (repr_members _ _ _ Hrepr); eauto).
    apply list_elem_of_split in Ha as (l1 & l2 & ->).
    destruct (Repr_at _ _ _ _ _ Hrepr) as (ra' & Hra' & _ & _ & Hn & _).
    assert (ra' = ra) as -> by congruence.
    exists (l1 ++ [a]), l2. split_and!.
    + by rewrite <- app_assoc.
    + by rewrite last_snoc.
    + done.
  - exists [], l. split_and!; [done..|]. by apply head_of_Repr.
Qed.

End LinkIn.

(** ** The chain operations keep the chains *)

Section ChainOps.

Context {R : Type} `{LinkedLaws R}.

Implicit Types (m : gmap string R) (k : Key) (id : string) (l : list string)
  (p n : option string).


Lemma unlink_pair m id r :
  m !! id = Some r → unlink m id = pair_updates (rprev r) (rnext r) (rnext r) (rprev r).
Proof. intros Hr. unfold unlink. by rewrite Hr. Qed.

Lemma relink_pair id (pn : option string * option string) :
  relink id pn = pair_updates pn.1 (Some id) pn.2 (Some id).
Proof. done. Qed.

Lemma pair_updates_lookup m oa na ob pb x :
  match m !! x with
  | None => run (pair_updates oa na ob pb) m !! x = None
  | Some rx =>
      ∃ rx', run (pair_updates oa na ob pb) m !! x = Some rx'
             ∧ rkey rx' = rkey rx
             ∧ rprev rx' = (if decide (ob = Some x) then pb else rprev rx)
             ∧ rnext rx' = (if decide (oa = Some x) then na else rnext rx)
  end.
Proof.
  unfold pair_updates.
  assert (Hstep1 : ∀ m0,
    match m0 !! x with
    | None => run (match oa with Some a => [MUpdate a (links None (Some na))]
                                | None => [] end) m0 !! x = None
    | Some rx =>
        ∃ rx', run (match oa with Some a => [MUpdate a (links None (Some na))]
                                 | None => [] end) m0 !! x = Some rx'
               ∧ rkey rx' = rkey rx ∧ rprev rx' = rprev rx
               ∧ rnext rx' = (if decide (oa = Some x) then na else rnext rx)
    end).
  { intros m0. destruct oa as [a|]; cbn [run foldl run_mutation].
    - rewrite lookup_alter. destruct (decide (a = x)) as [->|Hne].
      + destruct (m0 !! x) as [rx|]; [|done]. eexists. split; [done|].
        rewrite rkey_links, rprev_links, rnext_links, decide_True by done. done.
      + destruct (m0 !! x) as [rx|]; [|done]. exists rx.
        by rewrite decide_False by congruence.
    - destruct (m0 !! x) as [rx|]; [|done]. by exists rx. }
  assert (Hstep2 : ∀ m0,
    match m0 !! x with
    | None => run (match ob with Some b => [MUpdate b (links (Some pb) None)]
                                | None => [] end) m0 !! x = None
    | Some rx =>
        ∃ rx', run (match ob with Some b => [MUpdate b (links (Some pb) None)]
                                 | None => [] end) m0 !! x = Some rx'
               ∧ rkey rx' = rkey rx
               ∧ rprev rx' = (if decide (ob = Some x) then pb else rprev rx)
               ∧ rnext rx' = rnext rx
    end).
  { intros m0. destruct ob as [b|]; cbn [run foldl run_mutation].
    - rewrite lookup_alter. destruct (decide (b = x)) as [->|Hne].
      + destruct (m0 !! x) as [rx|]; [|done]. eexists. split; [done|].
        rewrite rkey_links, rprev_links, rnext_links, decide_True by done. done.
      + destruct (m0 !! x) as [rx|]; [|done]. exists rx.
        by rewrite decide_False by congruence.
    - destruct (m0 !! x) as [rx|]; [|done]. by exists rx. }
  rewrite run_app. specialize (Hstep1 m).
  destruct (m !! x) as [rx|].
  - destruct Hstep1 as (rx1 & Hrx1 & Hk1 & Hp1 & Hn1).
    specialize (Hstep2 (run (match oa with Some a => [MUpdate a (links None (Some na))]
                                        | None => [] end) m)).
    rewrite Hrx1 in Hstep2. destruct Hstep2 as (rx2 & Hrx2 & Hk2 & Hp2 & Hn2).
    exists rx2. split; [done|]. rewrite Hk2, Hp2, Hn2, Hk1, Hp1, Hn1. done.
  - specialize (Hstep2 (run (match oa with Some a => [MUpdate a (links None (Some na))]
                                        | None => [] end) m)).
    by rewrite Hstep1 in Hstep2.
Qed.

(** [unlink] followed by the removal splices the record out. *)
Lemma unlink_spliced m id r :
  m !! id = Some r → spliced m id r (delete id (run (unlink m id) m)).
Proof.
  intros Hr. split; [apply lookup_delete_eq|].
  intros x Hx. rewrite lookup_delete_ne by done.
  rewrite (unlink_pair _ _ _ Hr).
  pose proof (pair_updates_lookup m (rprev r) (rnext r) (rnext r) (rprev r) x) as Hlook.
  destruct (m !! x) as [rx|]; [|done].
  destruct Hlook as (rx' & ? & ? & ? & ?). by exists rx'.
Qed.

(** What is left of the keys and of the domain. *)
Lemma spliced_keys m id r m' x rx' :
  spliced m id r m' → m' !! x = Some rx' →
  x ≠ id ∧ ∃ rx, m !! x = Some rx ∧ rkey rx' = rkey rx.
Proof.
  intros [Hgone Hrest] Hx.
  assert (x ≠ id) by (intros ->; congruence). split; [done|].
  specialize (Hrest x ltac:(done)). destruct (m !! x) as [rx|]; [|congruence].
  destruct Hrest as (rx0 & ? & ? & _). exists rx. split; [done|congruence].
Qed.

Lemma spliced_dom m id r m' :
  m !! id = Some r → spliced m id r m' → dom m' = dom m ∖ {[id]}.
Proof.
  intros Hr [Hgone Hrest]. apply set_eq. intros x.
  rewrite elem_of_difference, !elem_of_dom, not_elem_of_singleton.
  destruct (decide (x = id)) as [->|Hx].
  - rewrite Hgone. split; [by intros [? ?]|by intros [_ ?]].
  - specialize (Hrest x Hx). destruct (m !! x) as [rx|].
    + destruct Hrest as (rx' & -> & _). split; [by eauto|by eauto].
    + rewrite Hrest. split; [by intros [? ?]|by intros [[? ?] _]].
Qed.

Lemma linked_keys m id r' m' x rx' :
  linked_in m id r' m' → m' !! x = Some rx' → x ≠ id →
  ∃ rx, m !! x = Some rx ∧ rkey rx' = rkey rx.
Proof.
  intros (_ & _ & Hrest) Hx Hne. specialize (Hrest x Hne).
  destruct (m !! x) as [rx|]; [|congruence].
  destruct Hrest as (rx0 & ? & ? & _). exists rx. split; [done|congruence].
Qed.

Lemma linked_dom m id r' m' :
  linked_in m id r' m' → dom m' = {[id]} ∪ dom m.
Proof.
  intros (Hfresh & Hnew & Hrest). apply set_eq. intros x.
  rewrite elem_of_union, !elem_of_dom, elem_of_singleton.
  destruct (decide (x = id)) as [->|Hx].
  - rewrite Hnew. split; [by left|by eauto].
  - specialize (Hrest x Hx). destruct (m !! x) as [rx|].
    + destruct Hrest as (rx' & -> & _). split; [by eauto|by eauto].
    + rewrite Hrest. split; [by intros [? ?]|by intros [?|[? ?]]].
Qed.

(** A record with the links [slot] computed, stored under a fresh
    identifier, followed by [relink], is linked in. *)
Lemma place_linked m1 M id r' k afterId :
  chain_ok m1 → m1 !! id = None → in_partition m1 k afterId →
  M !! id = Some r' → (∀ x, x ≠ id → M !! x = m1 !! x) →
  rkey r' = k →
  rprev r' = (slot m1 k afterId).1 → rnext r' = (slot m1 k afterId).2 →
  linked_in m1 id r' (run (relink id (slot m1 k afterId)) M)
  ∧ chain_ok (run (relink id (slot m1 k afterId)) M).
Proof.
  intros Hok Hfresh Hafter Hnew Hsame Hk Hp Hn.
  destruct (Hok k) as [l Hl].
  destruct (slot_Repr _ _ _ _ Hl Hafter) as (l1 & l2 & -> & Hp1 & Hn2).
  set (pn := slot m1 k afterId) in *.
  assert (Hnotin : id ∉ l1 ++ l2).
  { intros Hin. destruct (Repr_lookup _ _ _ _ Hl Hin) as (? & ? & ?). congruence. }
  assert (Hpid : pn.1 ≠ Some id).
  { rewrite Hp1. intros Hlast. apply last_Some_elem_of in Hlast. set_solver. }
  assert (Hnid : pn.2 ≠ Some id).
  { rewrite Hn2. intros Hhead. apply head_Some_elem_of in Hhead. set_solver. }
  assert (Hlinked : linked_in m1 id r' (run (relink id pn) M)).
  { rewrite relink_pair. split; [done|]. split.
    - pose proof (pair_updates_lookup M pn.1 (Some id) pn.2 (Some id) id) as Hlook.
      rewrite Hnew in Hlook. destruct Hlook as (rx' & Hrx' & _).
      (* the record under [id] is no neighbour, so it is not updated *)
      rewrite <- Hnew. apply run_frame. unfold touched, pair_updates.
      destruct pn as [[a|] [b|]]; simpl in *; set_solver.
    - intros x Hx.
      pose proof (pair_updates_lookup M pn.1 (Some id) pn.2 (Some id) x) as Hlook.
      rewrite (Hsame x Hx) in Hlook. destruct (m1 !! x) as [rx|]; [|done].
      destruct Hlook as (rx' & ? & ? & Hpx & Hnx). exists rx'.
      rewrite Hp, Hn. done. }
  split; [done|].
  apply (linked_chain_ok m1 id r' _ l1 l2); [done|done|by rewrite Hk| |]; congruence.
Qed.

Lemma in_partition_fresh m k afterId id :
  m !! id = None → in_partition m k afterId → afterId ≠ Some id.
Proof. intros Hfresh Hin ->. unfold in_partition in Hin. by rewrite Hfresh in Hin. Qed.

(** What an insertion leaves: the chains, the old records with their
    keys, and the new record in its partition. *)
Lemma insert_result m r afterId :
  chain_ok m → insert_ok m r afterId →
  let m' := run (insert m r afterId) m in
  chain_ok m'
  ∧ dom m' = {[rid r]} ∪ dom m
  ∧ (∃ r', m' !! rid r = Some r' ∧ rkey r' = rkey r)
  ∧ (∀ x rx', x ≠ rid r → m' !! x = Some rx' →
       ∃ rx, m !! x = Some rx ∧ rkey rx' = rkey rx).
Proof.
  intros Hok [Hfresh Hafter] m'. unfold m', insert.
  set (pn := slot m (rkey r) afterId).
  set (r1 := merge (links (Some pn.1) (Some pn.2)) r).
  assert (Hid : rid r1 = rid r) by apply rid_links.
  rewrite run_cons. cbn [run_mutation]. rewrite Hid.
  destruct (place_linked m (<[rid r := r1]> m) (rid r) r1 (rkey r) afterId)
    as [Hlinked Hok']; try done.
  - apply lookup_insert_eq.
  - intros x Hx. by rewrite lookup_insert_ne.
  - apply rkey_links.
  - unfold r1. by rewrite rprev_links.
  - unfold r1. by rewrite rnext_links.
  - split_and!; [done|by eapply linked_dom| |].
    + exists r1. split; [apply Hlinked|apply rkey_links].
    + intros x rx' Hx Hrx'. by eapply linked_keys.
Qed.

Lemma remove_result m id :
  chain_ok m → remove_ok m id →
  let m' := run (remove m id) m in
  chain_ok m'
  ∧ dom m' = dom m ∖ {[id]}
  ∧ (∀ x rx', m' !! x = Some rx' → ∃ rx, m !! x = Some rx ∧ rkey rx' = rkey rx).
Proof.
  intros Hok [r Hr] m'. unfold m', remove. rewrite run_app.
  cbn [run foldl run_mutation].
  pose proof (unlink_spliced m id r Hr) as Hspliced. split_and!.
  - by eapply spliced_chain_ok.
  - by eapply spliced_dom.
  - intros x rx' Hx. by eapply spliced_keys.
Qed.

Lemma move_result m id k afterId :
  chain_ok m → move_ok m id k afterId →
  let m' := run (move m id k afterId) m in
  chain_ok m'
  ∧ dom m' = dom m
  ∧ (∀ x rx', m' !! x = Some rx' →
       (x = id ∧ rkey rx' = k) ∨ (∃ rx, m !! x = Some rx ∧ rkey rx' = rkey rx)).
Proof.
  intros Hok ([r Hr] & Hself & Hafter) m'. unfold m', move. rewrite Hr.
  case_decide as Hsame.
  - split_and!; [done..|]. intros x rx' Hx. right. by exists rx'.
  - set (out := unlink m id).
    set (m1 := delete id (run out m)).
    set (pn := slot m1 k afterId).
    pose proof (unlink_spliced m id r Hr) as Hspliced. fold out m1 in Hspliced.
    assert (Hok1 : chain_ok m1) by by eapply spliced_chain_ok.
    rewrite run_app, run_cons. cbn [run_mutation].
    destruct (run out m !! id) as [r_out|] eqn:Hout.
    2:{ exfalso. assert (Hfr : id ∉ touched out → run out m !! id = m !! id)
          by apply run_frame.
        pose proof (pair_updates_lookup m (rprev r) (rnext r) (rnext r) (rprev r) id) as Hl.
        rewrite Hr in Hl. destruct Hl as (? & Hl & _).
        unfold out in Hout. rewrite (unlink_pair _ _ _ Hr) in Hout. congruence. }
    destruct (place_linked m1 (alter (merge (placed r k pn.1 pn.2)) id (run out m))
                id (merge (placed r k pn.1 pn.2) r_out) k afterId)
      as [Hlinked Hok']; try done.
    + apply lookup_delete_eq.
    + destruct afterId as [a|]; [|done]. unfold in_partition in *.
      assert (a ≠ id) by congruence.
      destruct Hspliced as [_ Hrest]. specialize (Hrest a ltac:(done)).
      destruct (m !! a) as [ra|]; [|done].
      destruct Hrest as (ra' & -> & ? & _). congruence.
    + by rewrite lookup_alter_eq, Hout.
    + intros x Hx. unfold m1. by rewrite lookup_alter_ne, lookup_delete_ne.
    + apply rkey_placed.
    + apply rprev_placed.
    + apply rnext_placed.
    + subst pn. split_and!; [done| |].
      * rewrite (linked_dom _ _ _ _ Hlinked), (spliced_dom _ _ _ _ Hr Hspliced).
        apply set_eq. intros x. rewrite elem_of_union, elem_of_difference,
          elem_of_singleton, elem_of_dom.
        destruct (decide (x = id)) as [->|?]; [rewrite Hr; split; eauto|tauto].
      * intros x rx' Hx. destruct (decide (x = id)) as [->|Hne].
        -- left. split; [done|]. destruct Hlinked as (_ & Hnew & _).
           assert (rx' = merge (placed r k (slot m1 k afterId).1 (slot m1 k afterId).2) r_out)
             as -> by congruence.
           apply rkey_placed.
        -- right. destruct (linked_keys _ _ _ _ _ _ Hlinked Hx Hne) as (rx1 & Hrx1 & Hk1).
           destruct (spliced_keys _ _ _ _ _ _ Hspliced Hrx1) as (_ & rx & Hrx & Hk).
           exists rx. split; [done|congruence].
Qed.

End ChainOps.

(** ** The chain invariants say that every partition is a chain *)

Section Invariants.

Context {R : Type} `{LinkedLaws R}.

Implicit Types (m : gmap string R) (k : Key) (id : string) (l : list string)
  (p n : option string).

Lemma members_ids_NoDup m k : NoDup (members m k).*1.
Proof.
  eapply sublist_NoDup; [apply (NoDup_fst_map_to_list m)|].
  apply fmap_sublist, sublist_filter.
Qed.

Lemma members_ids m k id :
  id ∈ (members m k).*1 ↔ ∃ r, m !! id = Some r ∧ rkey r = k.
Proof.
  rewrite list_elem_of_fmap. split.
  - intros ([x r] & -> & Hin). apply members_lookup in Hin. by exists r.
  - intros (r & Hr & Hk). exists (id, r). split; [done|]. by apply members_lookup.
Qed.

Lemma members_Permutation m k l : Repr m k l → (members m k).*1 ≡ₚ l.
Proof.
  intros Hrepr. apply NoDup_Permutation.
  - apply members_ids_NoDup.
  - apply (repr_nodup _ _ _ Hrepr).
  - intros id. rewrite members_ids. symmetry. apply (repr_members _ _ _ Hrepr).
Qed.

(** *** From the chain to the invariants *)

Lemma follow_Repr m k l1 x l2 fuel :
  Repr m k (l1 ++ x :: l2) → follow m fuel x = take fuel (x :: l2).
Proof.
  revert l1 x l2. induction fuel as [|fuel IH]; intros l1 x l2 Hrepr; [done|].
  destruct (Repr_at _ _ _ _ _ Hrepr) as (r & Hr & _ & _ & Hn & _).
  cbn [follow take]. rewrite Hr. cbn [mbind option_bind]. rewrite Hn. f_equal.
  destruct l2 as [|b l2]; [by destruct fuel|]. cbn [head].
  apply (IH (l1 ++ [x])). by rewrite <- app_assoc.
Qed.

Lemma tails_Repr m k l y r :
  Repr m k (l ++ [y]) → m !! y = Some r → tails m k = [(y, r)].
Proof.
  intros Hrepr Hr. destruct (Repr_at _ _ _ _ _ Hrepr) as (r' & Hr' & Hk & _ & Hn & _).
  assert (r' = r) as -> by congruence.
  apply NoDup_all_same.
  - apply NoDup_filter, members_NoDup.
  - by apply tails_lookup.
  - intros [z rz] Hz. apply tails_lookup in Hz as (Hz & Hkz & Hnz).
    pose proof (Repr_last _ _ _ _ _ Hrepr Hz Hkz Hnz) as Hlast.
    rewrite last_snoc in Hlast. simplify_eq. done.
Qed.

Lemma traverse_Repr m k l : Repr m k l → traverse m k = l.
Proof.
  intros Hrepr. unfold traverse. rewrite (head_of_Repr _ _ _ Hrepr).
  destruct l as [|x l]; [done|]. cbn [head].
  rewrite (follow_Repr m k [] x l) by done.
  apply take_ge.
  pose proof (members_Permutation _ _ _ Hrepr) as Hperm.
  apply Permutation_length in Hperm. rewrite length_fmap in Hperm. lia.
Qed.

Lemma chain_ok_invariants m : chain_ok m → chain_invariants m.
Proof.
  intros Hok. split_and!.
  - intros id r Hr. destruct (Hok (rkey r)) as [l Hl].
    assert (Hid : id ∈ l) by (apply (repr_members _ _ _ Hl); eauto).
    split.
    + destruct l as [|x l]; [by apply elem_of_nil in Hid|].
      destruct (Repr_head_record _ _ _ _ Hl) as (rx & Hrx & _).
      by rewrite (heads_Repr _ _ _ _ _ Hl Hrx).
    + destruct l as [|y l _] using rev_ind; [by apply elem_of_nil in Hid|].
      destruct (Repr_at _ _ _ _ _ Hl) as (ry & Hry & _).
      by rewrite (tails_Repr _ _ _ _ _ Hl Hry).
  - intros id r Hr. destruct (Hok (rkey r)) as [l Hl].
    assert (Hid : id ∈ l) by (apply (repr_members _ _ _ Hl); eauto).
    apply list_elem_of_split in Hid as (l1 & l2 & ->).
    destruct (Repr_at _ _ _ _ _ Hl) as (r' & Hr' & _ & Hp & Hn & _).
    assert (r' = r) as -> by congruence. split.
    + rewrite Hn. destruct l2 as [|b l2]; [done|]. cbn [head linked_to].
      rewrite (assoc_L (++) l1 [id] (b :: l2) : l1 ++ id :: b :: l2 = (l1 ++ [id]) ++ b :: l2) in Hl.
      destruct (Repr_at _ _ _ _ _ Hl) as (rb & -> & _ & Hpb & _).
      by rewrite last_snoc in Hpb.
    + rewrite Hp. destruct l1 as [|a l1 _] using rev_ind; [done|].
      rewrite last_snoc. cbn [linked_to].
      rewrite <- app_assoc in Hl. cbn [app] in Hl.
      destruct (Repr_at _ _ _ _ _ Hl) as (ra & -> & _ & _ & Hna & _).
      done.
  - intros id r Hr. destruct (Hok (rkey r)) as [l Hl].
    assert (Hid : id ∈ l) by (apply (repr_members _ _ _ Hl); eauto).
    apply list_elem_of_split in Hid as (l1 & l2 & ->).
    rewrite (follow_Repr _ _ _ _ _ _ Hl).
    eapply sublist_NoDup; [|apply sublist_take].
    pose proof (repr_nodup _ _ _ Hl) as Hnd. by apply NoDup_app in Hnd as (_ & _ & ?).
  - intros id r Hr. destruct (Hok (rkey r)) as [l Hl].
    rewrite (traverse_Repr _ _ _ Hl). symmetry. by apply members_Permutation.
Qed.

(** *** From the invariants to the chain *)

Lemma follow_dlseg m fuel x r p :
  bidirectional m → m !! x = Some r → rprev r = p →
  length (follow m fuel x) < fuel →
  dlseg m p (follow m fuel x) None.
Proof.
  intros Hbi. revert x r p. induction fuel as [|fuel IH]; intros x r p Hr Hp Hlen; [done|].
  cbn [follow] in *. rewrite Hr in *. cbn [mbind option_bind] in *.
  exists r. split; [done|]. split; [done|].
  destruct (Hbi x r Hr) as [Hnext _].
  destruct (rnext r) as [b|]; [|done].
  cbn [linked_to] in Hnext. destruct (m !! b) as [rb|] eqn:Hrb; [|done].
  cbn [length] in Hlen.
  destruct fuel as [|fuel]; [cbn in Hlen; lia|].
  split; [done|]. apply (IH b rb); [done..|lia].
Qed.

Lemma invariants_chain_ok m : chain_invariants m → chain_ok m.
Proof.
  intros (_ & Hbi & _ & Htrav) k.
  destruct (members m k) as [|[x0 r0] rest] eqn:Hmem.
  - exists []. split; [constructor| |done].
    intros id. split; [by intros ?%elem_of_nil|].
    intros (r & Hr & Hk). assert ((id, r) ∈ members m k) by by apply members_lookup.
    rewrite Hmem in *. by apply elem_of_nil in H1.
  - assert (Hx0 : (x0, r0) ∈ members m k) by (rewrite Hmem; by left).
    apply members_lookup in Hx0 as [Hr0 Hk0]. subst k.
    specialize (Htrav x0 r0 Hr0). cbn beta in Htrav.
    exists (traverse m (rkey r0)). split.
    + rewrite Htrav. apply members_ids_NoDup.
    + intros id. rewrite Htrav. apply members_ids.
    + pose proof (Permutation_length Htrav) as Hlen. rewrite length_fmap in Hlen.
      unfold traverse in *.
      destruct (head_of m (rkey r0)) as [h|] eqn:Hhead; [|done].
      destruct (head_of_Some _ _ _ Hhead) as (rh & Hrh & _ & Hp).
      apply (follow_dlseg m _ h rh); [done..|lia].
Qed.

Lemma chain_invariants_iff m : chain_invariants m ↔ chain_ok m.
Proof. split; [apply invariants_chain_ok|apply chain_ok_invariants]. Qed.

(** Under the invariants [linearize] does not fail. *)
Lemma linearize_total m k : chain_invariants m → is_Some (linearize m k).
Proof.
  intros Hinv. apply invariants_chain_ok in Hinv. destruct (Hinv k) as [l Hl].
  unfold linearize. rewrite (traverse_Repr _ _ _ Hl).
  pose proof (members_Permutation _ _ _ Hl) as Hperm.
  rewrite decide_True; [by eexists|]. split.
  - apply Permutation_length in Hperm. rewrite length_fmap in Hperm. lia.
  - apply Forall_forall. intros [x r] Hx. simpl. rewrite <- Hperm.
    by apply (list_elem_of_fmap_2 fst) in Hx.
Qed.

End Invariants.

(** ** A clean report means the Task chains are well formed *)

Section CheckSound.

Import AnalyzeChains.

Implicit Types (tasks : list (TaskId * TaskType)) (task : TaskType).

Lemma flat_map_nil {A B} (f : A → list B) (l : list A) x :
  flat_map f l = [] → x ∈ l → f x = [].
Proof.
  induction l as [|y l IH]; intros Hnil Hin; [by apply elem_of_nil in Hin|].
  simpl in Hnil. apply app_eq_nil in Hnil as [Hy Hl].
  apply elem_of_cons in Hin as [->|Hin]; [done|by apply IH].
Qed.

Lemma values_entry tasks task :
  keyed_by_id tasks → task ∈ values tasks → ∃ id, (id, task) ∈ tasks.
Proof.
  intros [Hnodup _]. rewrite values_Permutation, (parse_distinct tasks Hnodup).
  intros Hin. apply list_elem_of_fmap in Hin as ([id t] & Heq & Hin).
  simpl in Heq. subst t. by exists id.
Qed.

Lemma keyed_entry tasks id task :
  keyed_by_id tasks → (id, task) ∈ tasks →
  Task.id task = id ∧ Task.next task ≠ Some "".
Proof.
  intros [_ Hall] Hin. rewrite Forall_forall in Hall. exact (Hall _ Hin).
Qed.

Lemma keyed_lookup tasks task :
  keyed_by_id tasks → task ∈ values tasks →
  (list_to_map tasks : gmap string TaskType) !! Task.id task = Some task.
Proof.
  intros Hkeyed Hin. apply values_entry in Hin as [id Hin]; [|done].
  destruct (keyed_entry _ _ _ Hkeyed Hin) as [-> _].
  apply elem_of_list_to_map; [apply Hkeyed|done].
Qed.

Lemma lookupTask_keyed tasks id task :
  keyed_by_id tasks → lookupTask tasks id = Own task → Task.id task = id.
Proof.
  unfold lookupTask. intros Hkeyed Hfind.
  rewrite (parse_distinct tasks (proj1 Hkeyed)) in Hfind.
  destruct (List.find _ tasks) as [[k t]|] eqn:Hf; [|by destruct (bool_decide _)].
  injection Hfind as <-.
  apply find_some in Hf as [Hin Heq]. apply String.eqb_eq in Heq. simpl in Heq. subst k.
  apply list_elem_of_In in Hin. by destruct (keyed_entry _ _ _ Hkeyed Hin).
Qed.

Lemma keyed_tail tasks task :
  keyed_by_id tasks → task ∈ values tasks →
  truthy (Task.next task) = false → Task.next task = None.
Proof.
  intros Hkeyed Hin Htruthy. apply values_entry in Hin as [id Hin]; [|done].
  destruct (keyed_entry _ _ _ Hkeyed Hin) as [_ Hnext].
  destruct (Task.next task) as [s|]; [|done]. simpl in Htruthy.
  apply negb_false_iff, String.eqb_eq in Htruthy. by subst s.
Qed.

(** The path of a clean walk is a chain of the store. *)
Lemma linked_path_dlseg tasks statusId current path :
  keyed_by_id tasks → current ∈ values tasks →
  linked_path tasks statusId current path →
  dlseg (list_to_map tasks : gmap string TaskType) (Task.prev current)
    (Task.id <$> current :: path) None.
Proof.
  intros Hkeyed. revert current.
  induction path as [|nextTask path IH]; intros current Hin Hlinked.
  - exists current. split_and!; [by apply keyed_lookup|done| |done].
    by apply keyed_tail with tasks.
  - destruct Hlinked as (Htruthy & Hnext & Hprev & _ & Hrest).
    pose proof (lookupTask_values _ _ _ Hnext) as Hnin.
    apply lookupTask_keyed in Hnext; [|done].
    exists current. split_and!; [by apply keyed_lookup|done| |].
    + cbn [fmap list_fmap first_or head from_option rnext TaskLinked].
      destruct (Task.next current) as [s|]; [|done]. simpl in Hnext. by subst s.
    + rewrite <- Hprev. by apply IH.
Qed.

(** On a snapshot keyed by identifier, a report without issues is only
    given when every Task partition is a chain. *)
Lemma checkTaskChains_sound data :
  keyed_by_id (taskList data) →
  checkTaskChains data = Normal [] →
  chain_invariants (tasks (Scenario.working_copy data)).
Proof.
  intros Hkeyed Hclean. apply chain_ok_invariants. intros statusId.
  cbn [Scenario.working_copy tasks]. rewrite (parse_distinct _ (proj1 Hkeyed)).
  unfold checkTaskChains in Hclean.
  destruct (findIssues data) as [issues|e] eqn:Hfound; [|done].
  injection Hclean as Hclean. apply fmap_nil_inv in Hclean. subst issues.
  assert (Hmember : ∀ id task,
    (list_to_map (taskList data) : gmap string TaskType) !! id = Some task →
    Task.id task = id ∧ task ∈ values (taskList data)).
  { intros id task Hlookup. apply elem_of_list_to_map in Hlookup; [|apply Hkeyed].
    split; [by destruct (keyed_entry _ _ _ Hkeyed Hlookup)|].
    rewrite values_Permutation, (parse_distinct _ (proj1 Hkeyed)).
    by apply (list_elem_of_fmap_2 snd) in Hlookup. }
  destruct (decide (tasksInStatus data statusId = [])) as [Hnone|Hsome].
  - exists []. split; [constructor| |done].
    intros id. split; [by intros ?%elem_of_nil|].
    intros (task & Hlookup & Hstatus). apply Hmember in Hlookup as [_ Hin].
    assert (Htask : task ∈ tasksInStatus data statusId) by by apply list_elem_of_filter.
    rewrite Hnone in Htask. by apply elem_of_nil in Htask.
  - assert (Hclean : checkStatus (taskList data) (statusId, tasksInStatus data statusId) = []).
    { destruct (checkStatus _ _) as [|issue rest] eqn:Hcheck; [done|]. exfalso.
      assert (Hin : issue ∈ @nil Issue); [|by apply elem_of_nil in Hin].
      apply (checkStatus_reported data statusId []); [exact Hfound|exact Hsome|].
      pose proof (list_elem_of_here issue rest) as Hhere.
      rewrite <- Hcheck in Hhere. exact Hhere. }
    apply checkStatus_path in Hclean as (head & path & Hheads & Hperm & Hnodup & _ & Hlinked).
    assert (Hhead : isHead head ∧ head ∈ tasksInStatus data statusId).
    { apply (list_elem_of_filter isHead). rewrite Hheads. by left. }
    destruct Hhead as [Hprev Hhead].
    exists (Task.id <$> head :: path). split; [done| |].
    + intros id. split.
      * intros (task & -> & Htask)%list_elem_of_fmap. rewrite Hperm in Htask.
        apply list_elem_of_filter in Htask as [Hstatus Hin].
        exists task. split; [by apply keyed_lookup|done].
      * intros (task & Hlookup & Hstatus). apply Hmember in Hlookup as [<- Hin].
        apply list_elem_of_fmap_2. rewrite Hperm. by apply list_elem_of_filter.
    + apply list_elem_of_filter in Hhead as [_ Hin].
      pose proof (linked_path_dlseg _ _ _ _ Hkeyed Hin Hlinked) as Hchain.
      unfold isHead in Hprev. by rewrite Hprev in Hchain.
Qed.

(** C7, as the script has it.  On a snapshot in which no task has a
    status named like a member of [Object.prototype],
    [checkTaskChains] goes through the Task partitions (the tasks
    grouped by [status]) and returns its findings as messages, every
    one of them.  For every status that has tasks it reports a
    head-count message whenever the number of tasks with [prev = null]
    differs from one, and at least one message about that status
    whenever the number of tasks without a [next] differs from one.
    On a snapshot keyed by identifier its report is not empty whenever
    the tasks violate one of the four chain invariants. *)
Theorem checkTaskChains_reports_heads_and_tails (data : Data) (statusId : string) :
  Forall (λ task, Task.status task ∉ inherited) (values (taskList data)) →
  tasksInStatus data statusId ≠ [] →
  ∃ report,
    checkTaskChains data = Normal report
    ∧ (∀ issue,
         issue ∈ checkStatus (taskList data) (statusId, tasksInStatus data statusId) →
         message issue ∈ report)
    ∧ (length (filter isHead (tasksInStatus data statusId)) ≠ 1 →
       message (HeadCount statusId (length (filter isHead (tasksInStatus data statusId))))
         ∈ report)
    ∧ (length (filter isTail (tasksInStatus data statusId)) ≠ 1 →
       ∃ issue,
         issue ∈ checkStatus (taskList data) (statusId, tasksInStatus data statusId)
         ∧ message issue ∈ report)
    ∧ (keyed_by_id (taskList data) →
       ¬ chain_invariants (tasks (Scenario.working_copy data)) →
       report ≠ []).
Proof.
  intros Hplain Hne.
  destruct (groupByStatus_returns _ Hplain) as [groups Hgroups].
  assert (Hfound : findIssues data
                   = Normal (flat_map (checkStatus (taskList data)) (ownEntries groups))).
  { unfold findIssues. by rewrite Hgroups. }
  set (issues := flat_map (checkStatus (taskList data)) (ownEntries groups)) in *.
  assert (Hreport : checkTaskChains data = Normal (message <$> issues)).
  { unfold checkTaskChains. by rewrite Hfound. }
  assert (Hall : ∀ issue,
    issue ∈ checkStatus (taskList data) (statusId, tasksInStatus data statusId) →
    message issue ∈ message <$> issues).
  { intros issue Hin. apply list_elem_of_fmap_2.
    by apply (checkStatus_reported data statusId). }
  exists (message <$> issues). split_and!; [done|done| | |].
  - intros Hheads. apply Hall.
    unfold checkStatus. apply elem_of_app. left.
    apply Nat.eqb_neq in Hheads. rewrite Hheads. by left.
  - intros Htails.
    destruct (checkStatus (taskList data) (statusId, tasksInStatus data statusId))
      as [|issue rest] eqn:Hcheck.
    + apply checkStatus_clean in Hcheck as [_ ?]. done.
    + exists issue. split; [by left|]. apply Hall. by left.
  - intros Hkeyed Hbroken Hclean. apply Hbroken.
    apply checkTaskChains_sound; [done|]. by rewrite Hreport, Hclean.
Qed.

End CheckSound.

(** ** The five invariants along a sequence of gestures *)

Section Preservation.

Import Engine.

Implicit Types (s : States) (i : Intent).

Lemma step_add_task s t afterId :
  step s (AddTask t afterId)
  = mkStates (run (insert (tasks s) t afterId) (tasks s)) (projects s) (statuses s)
      (userProfile s).
Proof. apply apply_task_ops. Qed.

Lemma step_add_project s p afterId :
  step s (AddProject p afterId)
  = mkStates (tasks s) (run (insert (projects s) p afterId) (projects s)) (statuses s)
      (userProfile s).
Proof. apply apply_project_ops. Qed.

Lemma step_add_status s st afterId :
  step s (AddStatus st afterId)
  = mkStates (tasks s) (projects s) (run (insert (statuses s) st afterId) (statuses s))
      (userProfile s).
Proof. apply apply_status_ops. Qed.

Lemma step_delete_task s id :
  step s (DeleteTask id)
  = mkStates (run (remove (tasks s) id) (tasks s)) (projects s) (statuses s)
      (userProfile s).
Proof. apply apply_task_ops. Qed.

Lemma step_delete_project s id :
  step s (DeleteProject id)
  = mkStates (tasks s) (run (remove (projects s) id) (projects s)) (statuses s)
      (userProfile s).
Proof. apply apply_project_ops. Qed.

Lemma step_delete_status s id :
  step s (DeleteStatus id)
  = mkStates (tasks s) (projects s) (run (remove (statuses s) id) (statuses s))
      (userProfile s).
Proof. apply apply_status_ops. Qed.

Lemma step_move_task s id k afterId :
  step s (MoveTask id k afterId)
  = mkStates (run (R:=TaskType) (move (tasks s) id k afterId) (tasks s)) (projects s) (statuses s)
      (userProfile s).
Proof. apply apply_task_ops. Qed.

Lemma step_move_project s id afterId :
  step s (MoveProject id afterId)
  = mkStates (tasks s) (run (R:=ProjectType) (move (projects s) id tt afterId) (projects s)) (statuses s)
      (userProfile s).
Proof. apply apply_project_ops. Qed.

Lemma step_move_status s id k afterId :
  step s (MoveStatus id k afterId)
  = mkStates (tasks s) (projects s) (run (R:=StatusType) (move (statuses s) id k afterId) (statuses s))
      (userProfile s).
Proof. apply apply_status_ops. Qed.

Local Ltac to_fields :=
  cbn [rid rkey rprev rnext TaskLinked ProjectLinked StatusLinked] in *.

(** One well-formed gesture keeps the five invariants. *)
Lemma step_preserves s i :
  five_invariants s → well_formed s i → five_invariants (step s i).
Proof.
  intros (Ht & Hp & Hs & Hrt & Hrs) Hwf.
  apply chain_invariants_iff in Ht, Hp, Hs.
  unfold five_invariants, referential_integrity.
  rewrite !chain_invariants_iff.
  destruct i as [t a|p a|st a| | | |id|id|id|id k a|id a|id k a|]; cbn [well_formed] in Hwf;
    try done.
  - (* add task *)
    destruct Hwf as [Hins Hstatus]. rewrite step_add_task. cbn [tasks projects statuses].
    destruct (insert_result (tasks s) t a Ht Hins) as (Hok & _ & (t' & Ht' & Hk') & Hold).
    to_fields.
    split_and!; try done.
    intros x tx Hx. destruct (decide (x = Task.id t)) as [->|Hne].
    + assert (tx = t') as -> by congruence.  by rewrite Hk'.
    + destruct (Hold x tx Hne Hx) as (tx0 & Htx0 & Hk).  rewrite Hk.
      by apply (Hrt x tx0).
  - (* add project *)
    rewrite step_add_project. cbn [tasks projects statuses].
    destruct (insert_result (projects s) p a Hp Hwf) as (Hok & Hdom & _).
    to_fields.
    split_and!; try done.
    intros x stx Hx. rewrite Hdom. apply elem_of_union_r. by apply (Hrs x stx).
  - (* add status *)
    destruct Hwf as [Hins Hproject]. rewrite step_add_status. cbn [tasks projects statuses].
    destruct (insert_result (statuses s) st a Hs Hins) as (Hok & Hdom & (st' & Hst' & Hk') & Hold).
    to_fields.
    split_and!; try done.
    + intros x tx Hx. rewrite Hdom. destruct (Hrt x tx Hx) as [?|?]; [left|by right].
      by apply elem_of_union_r.
    + intros x stx Hx. destruct (decide (x = Status.id st)) as [->|Hne].
      * assert (stx = st') as -> by congruence.  by rewrite Hk'.
      * destruct (Hold x stx Hne Hx) as (stx0 & Hstx0 & Hk).  rewrite Hk.
        by apply (Hrs x stx0).
  - (* delete task *)
    rewrite step_delete_task. cbn [tasks projects statuses].
    destruct (remove_result (tasks s) id Ht Hwf) as (Hok & _ & Hold).
    to_fields.
    split_and!; try done.
    intros x tx Hx. destruct (Hold x tx Hx) as (tx0 & Htx0 & Hk).  rewrite Hk.
    by apply (Hrt x tx0).
  - (* delete project *)
    destruct Hwf as [Hrem Hunref]. rewrite step_delete_project. cbn [tasks projects statuses].
    destruct (remove_result (projects s) id Hp Hrem) as (Hok & Hdom & _).
    to_fields.
    split_and!; try done.
    intros x stx Hx. rewrite Hdom. apply elem_of_difference. split; [by apply (Hrs x stx)|].
    apply not_elem_of_singleton. by apply (Hunref x stx).
  - (* delete status *)
    destruct Hwf as [Hrem Hunref]. rewrite step_delete_status. cbn [tasks projects statuses].
    destruct (remove_result (statuses s) id Hs Hrem) as (Hok & Hdom & Hold).
    to_fields.
    split_and!; try done.
    + intros x tx Hx. rewrite Hdom. destruct (Hrt x tx Hx) as [?|?]; [left|by right].
      apply elem_of_difference. split; [done|].
      apply not_elem_of_singleton. by apply (Hunref x tx).
    + intros x stx Hx. destruct (Hold x stx Hx) as (stx0 & Hstx0 & Hk). 
      rewrite Hk. by apply (Hrs x stx0).
  - (* move task *)
    destruct Hwf as [Hmove Hstatus]. rewrite step_move_task. cbn [tasks projects statuses].
    destruct (@move_result TaskType TaskLinked TaskLaws (tasks s) id k a Ht Hmove) as (Hok & _ & Hkeys).
    to_fields.
    split_and!; try done.
    intros x tx Hx. destruct (Hkeys x tx Hx) as [[-> Hk]|(tx0 & Htx0 & Hk)];
      rewrite Hk; [done|]. by apply (Hrt x tx0).
  - (* move project *)
    rewrite step_move_project. cbn [tasks projects statuses].
    destruct (@move_result ProjectType ProjectLinked ProjectLaws (projects s) id tt a Hp Hwf) as (Hok & Hdom & _).
    to_fields.
    split_and!; try done.
    intros x stx Hx. rewrite Hdom. by apply (Hrs x stx).
  - (* move status *)
    destruct Hwf as [Hmove Hproject]. rewrite step_move_status. cbn [tasks projects statuses].
    destruct (@move_result StatusType StatusLinked StatusLaws (statuses s) id k a Hs Hmove) as (Hok & Hdom & Hkeys).
    to_fields.
    split_and!; try done.
    + intros x tx Hx. rewrite Hdom. by apply (Hrt x tx).
    + intros x stx Hx. destruct (Hkeys x stx Hx) as [[-> Hk]|(stx0 & Hstx0 & Hk)];
        rewrite Hk; [done|]. by apply (Hrs x stx0).
Qed.

(** The operations of the specification keep the invariants for the
    requests that are well formed.  From a working copy that
    satisfies the five invariants, every sequence of add, move and
    delete gestures, each well formed in the state it is applied to,
    leads to a working copy in which every partition of every kind again
    satisfies the five invariants: one head and one tail per non-empty
    partition, consistent links in both directions, no cycle, a walk
    from the head that visits every member exactly once, and partition
    keys that refer to existing records. *)
Theorem invariants_preserved (s : States) (intents : list Intent) :
  five_invariants s →
  well_formed_sequence s intents →
  five_invariants (run_gestures s intents).
Proof.
  revert s. induction intents as [|i intents IH]; intros s Hinv Hwf; [done|].
  destruct Hwf as [Hi Hrest]. unfold run_gestures. cbn [foldl].
  apply IH; [by apply step_preserves|done].
Qed.

End Preservation.

(** ** The properties at sample inputs *)

Section Samples.

Import Engine Scenario.

Local Ltac by_computation :=
  lazymatch goal with
  | |- ¬ ?P => apply (proj1 (bool_decide_eq_false P)); vm_compute; reflexivity
  | |- ?P => apply (bool_decide_unpack P); vm_compute; exact I
  end.

(** The sample board satisfies the invariants, and the sample session
    is well formed on it. *)
Lemma board_invariants : five_invariants board.
Proof. by_computation. Qed.

Lemma session_well_formed : well_formed_sequence board session.
Proof. by_computation. Qed.

(** The invariants after the sample session, by the theorem. *)
Lemma invariants_preserved_witness :
  five_invariants board
  ∧ well_formed_sequence board session
  ∧ five_invariants (run_gestures board session).
Proof.
  split; [exact board_invariants|]. split; [exact session_well_formed|].
  exact (invariants_preserved board session board_invariants session_well_formed).
Defined.

(** Without the condition on deletes the invariants can be lost:
    deleting column [colA] while it has tasks leaves their [status]
    dangling. *)
Lemma delete_of_referenced_status_breaks_invariants :
  five_invariants board
  ∧ ¬ five_invariants (run_gestures board [DeleteStatus "colA"]).
Proof. split; by_computation. Qed.

(** A fourth task added to [colA] without neighbour. *)
Lemma add_without_neighbour_inserts_at_head_witness :
  tasks board !! "T4" = None
  ∧ head_insertion (tasks board) (task_at "T4" "colA" None None (plain_task "T4"))
      (tasks (step board (AddTask (task_at "T4" "colA" None None (plain_task "T4")) None))).
Proof.
  split; [reflexivity|].
  apply (proj1 (add_without_neighbour_inserts_at_head board)
           (task_at "T4" "colA" None None (plain_task "T4"))).
  reflexivity.
Defined.

(** The new task is the head, and [T1] points back at it. *)
Example add_at_head_of_colA :
  linearize
    (tasks (step board (AddTask (task_at "T4" "colA" None None (plain_task "T4")) None)))
    "colA"
  = Some ["T4"; "T1"; "T2"; "T3"].
Proof. vm_compute. reflexivity. Qed.

(** [T2] dropped where it is, after [T1]. *)
Lemma self_move_is_noop_witness :
  tasks board !! "T2"
    = Some (task_at "T2" "colA" (Some "T1") (Some "T3") (plain_task "T2"))
  ∧ ops_of board (MoveTask "T2" "colA" (Some "T1")) = []
  ∧ step board (MoveTask "T2" "colA" (Some "T1")) = board.
Proof.
  split; [reflexivity|].
  apply (proj1 (self_move_is_noop board) "T2"
           (task_at "T2" "colA" (Some "T1") (Some "T3") (plain_task "T2"))).
  reflexivity.
Defined.

(** The commit of "delete [T2]" fails: the rollback gives back the
    board, with the pointers it had. *)
Example delete_T2_rolled_back :
  linearize (tasks (step board (DeleteTask "T2"))) "colA" = Some ["T1"; "T3"]
  ∧ restoreBackup (gesture board (DeleteTask "T2")) (step board (DeleteTask "T2")) = board.
Proof. split; [vm_compute; reflexivity|apply gesture_rollback]. Qed.

(** The backup of "move [T3] to [colB]" holds [T2] and [T3], not [T1]. *)
Example backup_of_move_T3 :
  dom (b_tasks (backup (gesture board (MoveTask "T3" "colB" None)))) = {[ "T2"; "T3" ]}
  ∧ b_projects (backup (gesture board (MoveTask "T3" "colB" None))) = ∅
  ∧ b_statuses (backup (gesture board (MoveTask "T3" "colB" None))) = ∅
  ∧ b_userProfile (backup (gesture board (MoveTask "T3" "colB" None)))
    = userProfile board.
Proof. split_and!; vm_compute; reflexivity. Qed.

End Samples.

Section DiagnosticsSamples.

Import AnalyzeChains Scenario.

(** The diagnostics do not cover the five invariants: on [brokenData]
    two projects have no predecessor and a task names a column that
    does not exist, so the working copy violates the invariants, yet
    [checkTaskChains] reports nothing.  And on
    [twoHeadsOfConstructor] a column has two heads, yet nothing is
    reported: the script throws while it groups the tasks. *)
Lemma checkTaskChains_misses_violations :
  (¬ Engine.five_invariants (working_copy brokenData)
   ∧ ¬ chain_invariants (projects (working_copy brokenData))
   ∧ ¬ Engine.referential_integrity (working_copy brokenData)
   ∧ checkTaskChains brokenData = Normal [])
  ∧ (length (filter isHead (tasksInStatus twoHeadsOfConstructor "constructor")) = 2
     ∧ ¬ chain_invariants (tasks (working_copy twoHeadsOfConstructor))
     ∧ checkTaskChains twoHeadsOfConstructor
       = Throw (TypeError "tasksByStatus[task.status].push is not a function")).
Proof.
  split; split_and!; try reflexivity;
    lazymatch goal with
    | |- ¬ ?P => apply (proj1 (bool_decide_eq_false P)); vm_compute; reflexivity
    end.
Qed.

(** Two heads in column [colA]. *)
Lemma checkTaskChains_reports_heads_and_tails_witness :
  ∃ report,
    checkTaskChains twoHeads = Normal report
    ∧ (∀ issue,
         issue ∈ checkStatus (taskList twoHeads) ("colA", tasksInStatus twoHeads "colA") →
         message issue ∈ report)
    ∧ (length (filter isHead (tasksInStatus twoHeads "colA")) ≠ 1 →
       message (HeadCount "colA" (length (filter isHead (tasksInStatus twoHeads "colA"))))
         ∈ report)
    ∧ (length (filter isTail (tasksInStatus twoHeads "colA")) ≠ 1 →
       ∃ issue,
         issue ∈ checkStatus (taskList twoHeads) ("colA", tasksInStatus twoHeads "colA")
         ∧ message issue ∈ report)
    ∧ (keyed_by_id (taskList twoHeads) →
       ¬ chain_invariants (tasks (working_copy twoHeads)) →
       report ≠ []).
Proof.
  apply (checkTaskChains_reports_heads_and_tails twoHeads "colA").
  - apply (bool_decide_unpack _). vm_compute. exact I.
  - vm_compute. discriminate.
Defined.

Example twoHeads_keyed :
  keyed_by_id (taskList twoHeads) ∧ ¬ chain_invariants (tasks (working_copy twoHeads)).
Proof.
  split.
  - apply (bool_decide_unpack (keyed_by_id (taskList twoHeads))). vm_compute. exact I.
  - apply (proj1 (bool_decide_eq_false (chain_invariants (tasks (working_copy twoHeads))))).
    vm_compute. reflexivity.
Qed.

Example twoHeads_report :
  findIssues twoHeads = Normal [HeadCount "colA" 2; LengthMismatch "colA" 1 2].
Proof. vm_compute. reflexivity. Qed.

(** A [next] that names a member of [Object.prototype] is followed:
    the walk reports the link and the status, and counts the member. *)
Example inherited_next_report :
  findIssues
    {| taskList := [("T1", task_at "T1" "colA" None (Some "toString") (plain_task "T1"))];
       projectList := []; statusList := [] |}
  = Normal [Inconsistent "T1" "undefined"; OtherStatus "T1" "undefined";
            LengthMismatch "colA" 2 1].
Proof. vm_compute. reflexivity. Qed.

(** [Object.entries] and [Object.values] go through the names that are
    array indices first. *)
Example entries_order :
  (ownEntries [("b", 1); ("10", 2); ("a", 3); ("2", 4); ("01", 5)]).*1
  = ["2"; "10"; "b"; "a"; "01"].
Proof. vm_compute. reflexivity. Qed.

End DiagnosticsSamples.

(** ** The utility functions of the AI service *)


Section RateLimiterProps.

Import RateLimiter.

Implicit Types (this : t) (now : Z) (identifier : string).

Lemma recent_app ws l1 l2 : recent ws (l1 ++ l2) = recent ws l1 ++ recent ws l2.
Proof. apply filter_app. Qed.

Lemma recent_recent ws ws' l : (ws' ≤ ws)%Z → recent ws (recent ws' l) = recent ws l.
Proof.
  intros Hle. unfold recent. induction l as [|x l IH]; [done|].
  rewrite !filter_cons. destruct (decide (ws' < x)%Z) as [Hx|Hx].
  - rewrite filter_cons. destruct (decide (ws < x)%Z); by rewrite IH.
  - rewrite decide_False by lia. done.
Qed.

Lemma recent_length ws l : length (recent ws l) ≤ length l.
Proof. apply length_filter. Qed.

(** The limits never change. *)
Lemma isAllowed_limits now identifier this :
  maxRequests (isAllowed now identifier this).2 = maxRequests this
  ∧ windowMs (isAllowed now identifier this).2 = windowMs this.
Proof. unfold isAllowed. by destruct (_ <=? _)%Z. Qed.

(** What [isAllowed] leaves in the map. *)
Lemma isAllowed_stored now identifier this other :
  default [] (requests (isAllowed now identifier this).2 !! other)
  = if decide (other = identifier) then
      recent (now - windowMs this) (default [] (requests this !! identifier))
      ++ (if (isAllowed now identifier this).1 then [now] else [])
    else default [] (requests this !! other).
Proof.
  unfold isAllowed.
  assert (Hsame : default [] ((match requests this !! identifier with
                               | Some _ => requests this
                               | None => <[identifier := []]> (requests this)
                               end) !! identifier)
                  = default [] (requests this !! identifier)).
  { destruct (requests this !! identifier) eqn:Hl; [by rewrite Hl|].
    by rewrite lookup_insert_eq. }
  rewrite Hsame.
  destruct (_ <=? _)%Z; cbn [fst snd requests]; destruct (decide (other = identifier)) as [->|Hne].
  - by rewrite lookup_insert_eq, app_nil_r.
  - rewrite lookup_insert_ne by done.
    destruct (requests this !! identifier); [done|by rewrite lookup_insert_ne].
  - by rewrite lookup_insert_eq.
  - rewrite lookup_insert_ne by done.
    destruct (requests this !! identifier); [done|by rewrite lookup_insert_ne].
Qed.

Lemma isAllowed_answer now identifier this :
  (isAllowed now identifier this).1
  = negb (maxRequests this
          <=? Z.of_nat (length (recent (now - windowMs this)
                                  (default [] (requests this !! identifier)))))%Z.
Proof.
  unfold isAllowed.
  assert (Hsame : default [] ((match requests this !! identifier with
                               | Some _ => requests this
                               | None => <[identifier := []]> (requests this)
                               end) !! identifier)
                  = default [] (requests this !! identifier)).
  { destruct (requests this !! identifier) eqn:Hl; [by rewrite Hl|].
    by rewrite lookup_insert_eq. }
  rewrite Hsame. by destruct (_ <=? _)%Z.
Qed.

Lemma serve_app calls1 calls2 this :
  serve (calls1 ++ calls2) this
  = ((serve calls1 this).1 ++ (serve calls2 (serve calls1 this).2).1,
     (serve calls2 (serve calls1 this).2).2).
Proof.
  revert this. induction calls1 as [|[now identifier] calls1 IH]; intros this.
  - simpl. by destruct (serve calls2 this).
  - cbn [serve app]. destruct (isAllowed now identifier this) as [answer this'].
    rewrite IH. by destruct (serve calls1 this'), (serve calls2 _).
Qed.

Lemma serve_times calls this : at_time <$> (serve calls this).1 = calls.*1.
Proof.
  revert this. induction calls as [|[now identifier] calls IH]; intros this; [done|].
  cbn [serve]. destruct (isAllowed now identifier this) as [answer this'].
  specialize (IH this'). destruct (serve calls this'). simpl in *. by f_equal.
Qed.

Lemma allowed_in_window_times w T identifier served :
  Forall (λ s, at_time s ≤ T)%Z served →
  length (allowed_in_window w T identifier served)
  = length (recent (T - w) (allowed_times identifier served)).
Proof.
  unfold allowed_in_window, allowed_times, recent. induction 1 as [|s served Hs _ IH]; [done|].
  rewrite !filter_cons.
  destruct (decide (allowed s = true ∧ who s = identifier)) as [[Ha Hw]|Hno].
  - rewrite fmap_cons, filter_cons.
    destruct (decide (T - w < at_time s)%Z).
    + rewrite decide_True by (split_and!; [done..|lia]). simpl. by rewrite IH.
    + rewrite decide_False by (intros (_ & _ & ?); lia). done.
  - rewrite decide_False by (intros (? & ? & _); by apply Hno). done.
Qed.

(** What the map holds after a run with a clock that never goes back:
    seen from any later instant, the timestamps kept for an identifier
    are those at which it was allowed, and there are never more of them
    than [maxRequests]. *)
Lemma serve_invariant calls maxR w identifier :
  StronglySorted Z.le calls.*1 →
  let '(served, final) := serve calls (new maxR w) in
  maxRequests final = maxR ∧ windowMs final = w
  ∧ length (default [] (requests final !! identifier)) ≤ Z.to_nat maxR
  ∧ ∀ T, Forall (λ c, c.1 ≤ T)%Z calls →
         recent (T - w) (allowed_times identifier served)
         = recent (T - w) (default [] (requests final !! identifier)).
Proof.
  induction calls as [|[now who] calls IH] using rev_ind; intros Hsorted.
  - cbn [serve new requests maxRequests windowMs]. rewrite lookup_empty.
    split_and!; [done..|simpl; lia|done].
  - rewrite fmap_app in Hsorted.
    pose proof (StronglySorted_app_1_l _ _ _ Hsorted) as Hcalls.
    assert (Hbefore : Forall (λ c, c.1 ≤ now)%Z calls).
    { apply Forall_forall. intros c Hc.
      apply (StronglySorted_app_1_elem_of _ _ _ c.1 now Hsorted);
        [by apply list_elem_of_fmap_2|by left]. }
    specialize (IH Hcalls). rewrite serve_app.
    destruct (serve calls (new maxR w)) as [served this] eqn:Hserve.
    destruct IH as (Hmax & Hw & Hlen & Hkept).
    cbn [serve fst snd].
    pose proof (isAllowed_limits now who this) as [Hmax' Hw'].
    pose proof (isAllowed_stored now who this identifier) as Hstored.
    pose proof (isAllowed_answer now who this) as Hanswer.
    destruct (isAllowed now who this) as [answer this'] eqn:Hallowed.
    cbn [fst snd] in *. split_and!; [congruence..| |].
    + rewrite Hstored. destruct (decide (identifier = who)) as [->|Hne]; [|done].
      rewrite length_app. pose proof (recent_length (now - windowMs this) (default [] (requests this !! who))).
      destruct answer; simpl; [|lia].
      symmetry in Hanswer. apply negb_true_iff, Z.leb_gt in Hanswer. lia.
    + intros T HT. apply Forall_app in HT as [HT Hnow].
      rewrite Forall_singleton in Hnow. simpl in Hnow.
      unfold allowed_times in *. rewrite filter_app, fmap_app, recent_app, (Hkept T HT), Hstored.
      destruct (decide (identifier = who)) as [->|Hne].
      * rewrite recent_app, recent_recent by lia. f_equal.
        rewrite filter_cons, filter_nil. cbn [allowed RateLimiter.who].
        destruct answer.
        -- by rewrite decide_True.
        -- by rewrite decide_False by (by intros [? _]).
      * rewrite filter_cons, filter_nil, decide_False by (cbn; intros [_ ?]; congruence).
        by rewrite app_nil_r.
Qed.

(** X1.  Whatever the order in which identifiers call, with a clock
    that never goes back the limiter never allows more than
    [maxRequests] calls of one identifier within any window of
    [windowMs] milliseconds. *)
Theorem rate_limiter_window_bound
    (maxR w : Z) (calls : list (Z * string)) (identifier : string) (T : Z) :
  StronglySorted Z.le calls.*1 →
  length (allowed_in_window w T identifier (serve calls (new maxR w)).1)
  ≤ Z.to_nat maxR.
Proof.
  revert T. induction calls as [|[now who] calls IH] using rev_ind; intros T Hsorted.
  - cbn. lia.
  - pose proof (serve_invariant _ maxR w identifier Hsorted) as Hinv.
    rewrite fmap_app in Hsorted.
    pose proof (StronglySorted_app_1_l _ _ _ Hsorted) as Hcalls.
    assert (Hbefore : Forall (λ c, c.1 ≤ now)%Z calls).
    { apply Forall_forall. intros c Hc.
      apply (StronglySorted_app_1_elem_of _ _ _ c.1 now Hsorted);
        [by apply list_elem_of_fmap_2|by left]. }
    destruct (decide (now ≤ T)%Z) as [Hin|Hout].
    + destruct (serve (calls ++ [(now, who)]) (new maxR w)) as [served final] eqn:Hserve.
      destruct Hinv as (_ & _ & Hlen & Hkept). cbn [fst].
      assert (Htimes : Forall (λ c, c.1 ≤ T)%Z (calls ++ [(now, who)])).
      { apply Forall_app. split; [|by apply Forall_singleton].
        eapply Forall_impl; [exact Hbefore|]. simpl. intros; lia. }
      rewrite allowed_in_window_times.
      * rewrite (Hkept T Htimes). etrans; [apply recent_length|done].
      * pose proof (serve_times (calls ++ [(now, who)]) (new maxR w)) as Hst.
        rewrite Hserve in Hst. cbn [fst] in Hst.
        apply (Forall_fmap at_time (λ t, t ≤ T)%Z). rewrite Hst.
        by apply Forall_fmap.
    + rewrite serve_app. cbn [fst]. unfold allowed_in_window.
      rewrite filter_app, length_app.
      specialize (IH T Hcalls). unfold allowed_in_window in IH.
      cbn [serve]. destruct (isAllowed now who _) as [answer this'].
      cbn [fst]. rewrite filter_cons, filter_nil, decide_False; [simpl; lia|].
      cbn. intros (_ & _ & ?). lia.
Qed.

(** X2.  After any run with a clock that never goes back,
    [getRemainingRequests] tells how many calls of the identifier may
    still be allowed: [maxRequests] less the calls of the identifier
    allowed in the window that ends now, and never less than zero.  The
    next [isAllowed] says yes exactly when that number is positive. *)
Theorem rate_limiter_remaining
    (maxR w : Z) (calls : list (Z * string)) (identifier : string) (now : Z) :
  StronglySorted Z.le (calls.*1 ++ [now]) →
  let '(served, this) := serve calls (new maxR w) in
  getRemainingRequests now identifier this
  = Z.max 0 (maxR - Z.of_nat (length (allowed_in_window w now identifier served)))
  ∧ (isAllowed now identifier this).1
    = bool_decide (0 < getRemainingRequests now identifier this)%Z.
Proof.
  intros Hsorted.
  pose proof (StronglySorted_app_1_l _ _ _ Hsorted) as Hcalls.
  assert (Hbefore : Forall (λ c, c.1 ≤ now)%Z calls).
  { apply Forall_forall. intros c Hc.
    apply (StronglySorted_app_1_elem_of _ _ _ c.1 now Hsorted);
      [by apply list_elem_of_fmap_2|by left]. }
  pose proof (serve_invariant _ maxR w identifier Hcalls) as Hinv.
  pose proof (serve_times calls (new maxR w)) as Htimes.
  destruct (serve calls (new maxR w)) as [served this].
  destruct Hinv as (Hmax & Hw & _ & Hkept). cbn [fst] in Htimes.
  assert (Hcount : length (allowed_in_window w now identifier served)
                   = length (recent (now - w) (default [] (requests this !! identifier)))).
  { rewrite allowed_in_window_times, (Hkept now Hbefore); [done|].
    apply (Forall_fmap at_time (λ t, t ≤ now)%Z). rewrite Htimes.
    by apply Forall_fmap. }
  unfold getRemainingRequests. rewrite isAllowed_answer, Hmax, Hw, Hcount.
  split; [done|].
  destruct (Z.leb_spec maxR (Z.of_nat (length (recent (now - w)
              (default [] (requests this !! identifier)))))); simpl.
  - by rewrite bool_decide_eq_false_2 by lia.
  - by rewrite bool_decide_eq_true_2 by lia.
Qed.

End RateLimiterProps.

Section HelpersProps.

Import Helpers.

Lemma foldl_delete_lookup (m : gmap string Memory) (keys : list string) k :
  foldl (λ m sessionId, delete sessionId m) m keys !! k
  = if decide (k ∈ keys) then None else m !! k.
Proof.
  revert m. induction keys as [|x keys IH]; intros m; [done|].
  cbn [foldl]. rewrite IH.
  destruct (decide (k ∈ keys)) as [Hin|Hout].
  - rewrite decide_True by (by right). done.
  - destruct (decide (k = x)) as [->|Hne].
    + rewrite decide_True by (by left). by rewrite lookup_delete_eq.
    + rewrite decide_False by (intros [?|?]%elem_of_cons; done).
      by rewrite lookup_delete_ne.
Qed.

Lemma filter_split_length {A} (f : A → bool) (l : list A) :
  length (filter (λ x, f x = true) l) + length (filter (λ x, f x = false) l) = length l.
Proof.
  induction l as [|x l IH]; [done|]. rewrite !filter_cons.
  destruct (f x) eqn:Hf.
  - rewrite decide_True, decide_False by done. simpl. lia.
  - rewrite decide_False, decide_True by done. simpl. lia.
Qed.

(** The sessions [cleanupOldMemories] decides to delete. *)
Lemma toDelete_elem now maxAge (m : gmap string Memory) k :
  k ∈ (filter (λ entry, expired now maxAge entry.2 = true) (map_to_list m)).*1
  ↔ ∃ memory, m !! k = Some memory ∧ expired now maxAge memory = true.
Proof.
  rewrite list_elem_of_fmap. split.
  - intros ([k' memory] & -> & [Hexp Hin%elem_of_map_to_list]%list_elem_of_filter).
    by exists memory.
  - intros (memory & Hk & Hexp). exists (k, memory). split; [done|].
    apply list_elem_of_filter. split; [done|by apply elem_of_map_to_list].
Qed.

Lemma cleanup_filter now maxAge (m : gmap string Memory) :
  (cleanupOldMemories now m maxAge).2
  = filter (λ entry, expired now maxAge entry.2 = false) m.
Proof.
  apply map_eq. intros k. cbn [cleanupOldMemories snd].
  rewrite foldl_delete_lookup, map_lookup_filter.
  destruct (decide (k ∈ _)) as [Hin|Hout].
  - apply toDelete_elem in Hin as (memory & -> & Hexp). simpl.
    rewrite option_guard_False; [done|]. simpl. congruence.
  - destruct (m !! k) as [memory|] eqn:Hk; [simpl|done].
    rewrite option_guard_True; [done|]. simpl.
    destruct (expired now maxAge memory) eqn:Hexp; [|done].
    exfalso. apply Hout, toDelete_elem. by exists memory.
Qed.

(** X3.  [cleanupOldMemories] removes the sessions last accessed more
    than [maxAge] milliseconds ago and no other: a session stays
    exactly when it is not expired, in particular one whose
    [lastAccessed] is missing or zero is never removed.  The number
    returned is the number of sessions removed, and a second cleanup at
    the same instant removes nothing. *)
Theorem cleanup_removes_exactly_expired
    (now maxAge : Z) (memoriesMap : gmap string Memory) :
  let '(removed, kept) := cleanupOldMemories now memoriesMap maxAge in
  (∀ sessionId memory,
     kept !! sessionId = Some memory
     ↔ memoriesMap !! sessionId = Some memory
       ∧ ¬ (∃ t, lastAccessed memory = Some t ∧ t ≠ 0 ∧ maxAge < now - t)%Z)
  ∧ removed + size kept = size memoriesMap
  ∧ cleanupOldMemories now kept maxAge = (0, kept).
Proof.
  pose proof (cleanup_filter now maxAge memoriesMap) as Hkept.
  destruct (cleanupOldMemories now memoriesMap maxAge) as [removed kept] eqn:Hrun.
  cbn [snd] in Hkept.
  assert (Hexpired : ∀ memory,
    expired now maxAge memory = false
    ↔ ¬ (∃ t, lastAccessed memory = Some t ∧ t ≠ 0 ∧ maxAge < now - t)%Z).
  { intros memory. unfold expired. destruct (lastAccessed memory) as [t|].
    - rewrite andb_false_iff, negb_false_iff, Z.eqb_eq, Z.ltb_ge. split.
      + intros Hor (t' & [= <-] & ? & ?). lia.
      + intros Hno. destruct (decide (t = 0)%Z); [by left|right].
        destruct (decide (now - t ≤ maxAge)%Z); [done|].
        exfalso. apply Hno. exists t. split_and!; [done..|lia].
    - split; [|done]. by intros _ (t & ? & _). }
  split_and!.
  - intros sessionId memory. rewrite Hkept, map_lookup_filter_Some. simpl.
    by rewrite Hexpired.
  - injection Hrun as <- _. rewrite Hkept, length_fmap.
    rewrite map_filter_alt, map_size_list_to_map.
    + by rewrite (filter_split_length (λ entry, expired now maxAge entry.2)),
        length_map_to_list.
    + eapply sublist_NoDup; [apply (NoDup_fst_map_to_list memoriesMap)|].
      apply fmap_sublist, sublist_filter.
  - unfold cleanupOldMemories.
    replace (filter (λ entry, expired now maxAge entry.2 = true) (map_to_list kept))
      with (@nil (string * Memory)); [done|].
    symmetry. apply filter_none. intros [k memory] Hin%elem_of_map_to_list.
    rewrite Hkept in Hin. apply map_lookup_filter_Some in Hin as [_ Hexp].
    simpl in *. congruence.
Qed.

(** X4.  [validateTaskStructure] never returns [false]: it returns
    [true] when the title and the description are truthy and the
    priority is one of the strings low, medium and high, spelled so,
    and throws an error in every other case. *)
Theorem validateTaskStructure_accepts (task : TaskObject) :
  (validateTaskStructure task = Normal true
   ↔ truthy (title task) = true ∧ truthy (description task) = true
     ∧ ∃ p, priority task = VString p ∧ p ∈ ["low"; "medium"; "high"])
  ∧ (validateTaskStructure task ≠ Normal true →
     ∃ msg, validateTaskStructure task = Throw (Error msg)).
Proof.
  assert (Hpriority : includes validPriorities (priority task) = true
                      ↔ ∃ p, priority task = VString p ∧ p ∈ ["low"; "medium"; "high"]).
  { unfold includes. destruct (priority task) as [| | | |p|];
      try (split; [done|by intros (? & ? & _)]).
    rewrite bool_decide_eq_true. split; [by exists p|by intros (? & [= <-] & ?)]. }
  assert (Hfalsy : includes validPriorities (priority task) = true →
                   truthy (priority task) = true).
  { intros (p & -> & Hp)%Hpriority. simpl.
    by repeat (apply elem_of_cons in Hp as [->|Hp]; [done|]); apply elem_of_nil in Hp. }
  unfold validateTaskStructure, requiredFields. rewrite !filter_cons, filter_nil.
  cbn [snd].
  destruct (truthy (title task)) eqn:Ht, (truthy (description task)) eqn:Hd,
    (truthy (priority task)) eqn:Hp;
    repeat (rewrite decide_True by done); repeat (rewrite decide_False by done);
    cbn [fmap list_fmap length Nat.eqb negb fst].
  1: { destruct (includes validPriorities (priority task)) eqn:Hinc; cbn [negb].
       - split; [|done]. split; [intros _|done]. split_and!; [done..|by apply Hpriority].
       - split; [|intros _; eauto]. split; [done|].
         intros (_ & _ & Hex). apply Hpriority in Hex. congruence. }
  all: split; [|intros _; eauto].
  all: split; [done|intros (? & ? & Hex); try done].
  all: apply Hpriority, Hfalsy in Hex; congruence.
Qed.

(** *** [sanitizeText] *)

Lemma dropSpaces_head text c : head (dropSpaces text) = Some c → isSpace c = false.
Proof.
  induction text as [|d text IH]; [done|]. simpl.
  destruct (isSpace d) eqn:Hd; [done|]. simpl. by intros [= <-].
Qed.

Lemma dropSpaces_id text :
  (∀ c, head text = Some c → isSpace c = false) → dropSpaces text = text.
Proof. destruct text as [|d text]; [done|]. simpl. intros H. by rewrite (H d). Qed.

Lemma dropSpaces_snoc text c :
  isSpace c = false → dropSpaces (text ++ [c]) = dropSpaces text ++ [c].
Proof.
  intros Hc. induction text as [|d text IH]; simpl; [by rewrite Hc|].
  by destruct (isSpace d).
Qed.

Lemma dropSpaces_last text c :
  last (dropSpaces text) = Some c → last text = Some c.
Proof.
  induction text as [|d text IH]; [done|]. simpl.
  destruct (isSpace d); [|done]. intros H%IH.
  destruct text; [done|]. by rewrite last_cons_cons.
Qed.

Lemma trim_trimmed text : trimmed (trim text).
Proof.
  unfold trim. split; intros c Hc.
  - rewrite head_reverse in Hc. apply dropSpaces_last in Hc.
    rewrite last_reverse in Hc. by apply dropSpaces_head in Hc.
  - rewrite last_reverse in Hc. by apply dropSpaces_head in Hc.
Qed.

Lemma trim_id text : trimmed text → trim text = text.
Proof.
  intros [Hhead Hlast]. unfold trim. rewrite (dropSpaces_id text) by done.
  rewrite dropSpaces_id; [apply reverse_involutive|].
  intros c. rewrite head_reverse. apply Hlast.
Qed.

Lemma collapseFrom_spaced inRun text : spaced inRun (collapseFrom inRun text).
Proof.
  revert inRun. induction text as [|c text IH]; intros inRun; [done|]. simpl.
  destruct (isSpace c) eqn:Hc.
  - destruct inRun; [apply IH|]. simpl.
    replace (isSpace 32) with true by done. by split_and!.
  - simpl. rewrite Hc. apply IH.
Qed.

Lemma collapseFrom_id inRun text : spaced inRun text → collapseFrom inRun text = text.
Proof.
  revert inRun. induction text as [|c text IH]; intros inRun; [done|]. simpl.
  destruct (isSpace c) eqn:Hc.
  - intros (-> & -> & Hrest). by rewrite IH.
  - intros Hrest. by rewrite IH.
Qed.

Lemma collapseFrom_length inRun text : length (collapseFrom inRun text) ≤ length text.
Proof.
  revert inRun. induction text as [|c text IH]; intros inRun; [done|]. simpl.
  destruct (isSpace c), inRun; simpl;
    first [specialize (IH true); lia | specialize (IH false); lia].
Qed.

Lemma collapseFrom_snoc inRun text c :
  isSpace c = false → collapseFrom inRun (text ++ [c]) = collapseFrom inRun text ++ [c].
Proof.
  intros Hc. revert inRun. induction text as [|d text IH]; intros inRun; simpl.
  - by rewrite Hc.
  - destruct (isSpace d), inRun; by rewrite IH.
Qed.

Lemma collapse_trimmed text : trimmed text → trimmed (collapse text).
Proof.
  intros [Hhead Hlast]. unfold collapse. split.
  - destruct text as [|d text]; [done|]. simpl. rewrite (Hhead d) by done.
    simpl. intros c [= <-]. by apply Hhead.
  - destruct text as [|d text _] using rev_ind; [done|].
    rewrite last_snoc in Hlast. rewrite collapseFrom_snoc by (by apply Hlast).
    rewrite last_snoc. intros c [= <-]. by apply Hlast.
Qed.

Lemma spaced_take inRun n text : spaced inRun text → spaced inRun (take n text).
Proof.
  revert inRun n. induction text as [|c text IH]; intros inRun [|n]; try done.
  simpl. destruct (isSpace c).
  - intros (? & ? & ?). split_and!; [done..|by apply IH].
  - apply IH.
Qed.

Lemma spaced_lookup inRun text i c :
  spaced inRun text → text !! i = Some c → isSpace c = true →
  c = 32%N ∧ ∀ d, text !! S i = Some d → isSpace d = false.
Proof.
  revert inRun i. induction text as [|e text IH]; intros inRun [|i]; try done; simpl.
  - intros Hsp [= ->] Hc. rewrite Hc in Hsp. destruct Hsp as (_ & -> & Hrest).
    split; [done|]. intros d Hd. destruct text as [|d' text]; [done|].
    simpl in Hd. injection Hd as ->. simpl in Hrest.
    destruct (isSpace d); [by destruct Hrest|done].
  - intros Hsp. destruct (isSpace e); [destruct Hsp as (_ & _ & Hsp)|]; by eapply IH.
Qed.

(** X5.  The text [sanitizeText] returns has at most 1000 code units
    and does not start with white space; white space occurs in it only
    as single plain spaces.  When the argument has at most 1000 code
    units the result does not end with white space either and
    sanitising it again changes nothing. *)
Theorem sanitizeText_tidy (text : Text) :
  let clean := sanitizeText (Some text) in
  length clean ≤ 1000
  ∧ (∀ c, head clean = Some c → isSpace c = false)
  ∧ (∀ i c, clean !! i = Some c → isSpace c = true →
       c = 32%N ∧ ∀ d, clean !! S i = Some d → isSpace d = false)
  ∧ (length text ≤ 1000 →
     (∀ c, last clean = Some c → isSpace c = false)
     ∧ sanitizeText (Some clean) = clean).
Proof.
  intros clean. unfold clean, sanitizeText.
  pose proof (collapse_trimmed _ (trim_trimmed text)) as [Hhead Hlast].
  pose proof (collapseFrom_spaced false (trim text)) as Hspaced.
  fold (collapse (trim text)) in Hspaced.
  split_and!.
  - rewrite length_take. lia.
  - intros c Hc. apply Hhead. destruct (collapse (trim text)); [done|]. done.
  - intros i c. apply spaced_lookup with false. by apply spaced_take.
  - intros Hshort.
    assert (Hlen : length (collapse (trim text)) ≤ 1000).
    { etrans; [apply collapseFrom_length|]. unfold trim.
      rewrite length_reverse. etrans; [|exact Hshort].
      assert (Hdrop : ∀ t, length (dropSpaces t) ≤ length t).
      { induction t as [|d t IH]; [done|]. simpl. destruct (isSpace d); simpl; lia. }
      etrans; [apply Hdrop|]. rewrite length_reverse. apply Hdrop. }
    rewrite (take_ge (collapse (trim text))) by done.
    split; [done|].
    rewrite trim_id by done. unfold collapse.
    rewrite collapseFrom_id by done. by rewrite take_ge.
Qed.

End HelpersProps.

(** ** Rate limiting by address *)

Section IPRateLimiterProps.

Import IPRateLimiter.

Implicit Types (this : t) (now : Z) (req : Request) (nodeEnv : option string).

Lemma unaddressed_local req : unaddressed req → getClientIP req = "127.0.0.1".
Proof.
  intros (Hip & Hconn & Hsock & Hcs & Hxff & Hreal). unfold getClientIP, orElse.
  rewrite Hip, Hconn, Hsock.
  assert (truthy (match connectionSocket req with
                  | Some remoteAddress => remoteAddress
                  | None => None
                  end) = false) as ->.
  { destruct (connectionSocket req) as [remoteAddress|]; [by apply Hcs|done]. }
  assert (truthy ((λ header, trim (beforeComma header)) <$> xForwardedFor req) = false) as ->.
  { destruct (xForwardedFor req) as [header|]; [|done]. simpl. by rewrite Hxff. }
  by rewrite Hreal.
Qed.

Lemma middleware_exempt nodeEnv now req this :
  exempt nodeEnv req →
  (middleware nodeEnv now req this).1.2 = Next None
  ∧ (middleware nodeEnv now req this).2 = this.
Proof.
  unfold middleware. intros [Hdev|Hwhite].
  - by rewrite bool_decide_eq_true_2.
  - case_bool_decide; [done|]. by rewrite Hwhite.
Qed.

(** X6.  A request is neither limited nor counted when [NODE_ENV] is
    development, when its address is whitelisted, or when it carries no
    address at all: such a request is taken to come from 127.0.0.1. *)
Theorem exempt_request_is_never_limited nodeEnv now req this :
  exempt nodeEnv req ∨ unaddressed req →
  (middleware nodeEnv now req this).1.2 = Next None
  ∧ (middleware nodeEnv now req this).2 = this.
Proof.
  intros [Hexempt|Hnone]; apply middleware_exempt; [done|].
  right. by rewrite unaddressed_local.
Qed.

(** What the middleware does with a request it counts. *)
Lemma middleware_counted nodeEnv now req this :
  ¬ exempt nodeEnv req →
  let ipData := opened now this (getClientIP req) in
  passed (middleware nodeEnv now req this).1.2
    = negb (maxRequests this <? count ipData + 1)%Z
  ∧ (middleware nodeEnv now req this).2
    = {| requestCounts :=
           <[getClientIP req := {| count := count ipData + 1;
                                   resetTime := resetTime ipData |}]>
             (requestCounts this);
         maxRequests := maxRequests this;
         windowMs := windowMs this |}.
Proof.
  intros Hcounted. unfold middleware, opened.
  rewrite bool_decide_eq_false_2 by (intros ?; apply Hcounted; by left).
  destruct (isWhitelisted (getClientIP req)) eqn:Hwhite;
    [exfalso; apply Hcounted; by right|].
  cbn zeta.
  destruct (requestCounts this !! getClientIP req) as [ipData|];
    [destruct (resetTime ipData <? now)%Z|]; cbn [count resetTime];
    by destruct (maxRequests this <? _)%Z.
Qed.

Lemma ip_serve_app nodeEnv arrivals1 arrivals2 this :
  serve nodeEnv (arrivals1 ++ arrivals2) this
  = ((serve nodeEnv arrivals1 this).1
       ++ (serve nodeEnv arrivals2 (serve nodeEnv arrivals1 this).2).1,
     (serve nodeEnv arrivals2 (serve nodeEnv arrivals1 this).2).2).
Proof.
  revert this. induction arrivals1 as [|a arrivals1 IH]; intros this.
  - simpl. by destruct (serve nodeEnv arrivals2 this).
  - cbn [serve app]. destruct (middleware _ _ _ this) as [[logs reply] this'].
    rewrite IH. by destruct (serve nodeEnv arrivals1 this'), (serve nodeEnv arrivals2 _).
Qed.

Lemma serve_arrivals nodeEnv arrivals this :
  (serve nodeEnv arrivals this).1.*1 = arrivals.
Proof.
  revert this. induction arrivals as [|a arrivals IH]; intros this; [done|].
  cbn [serve]. destruct (middleware _ _ _ this) as [[logs reply] this'].
  specialize (IH this'). destruct (serve nodeEnv arrivals this'). simpl in *. by f_equal.
Qed.



(** *** [cleanup] *)

Lemma foldl_expire_lookup (now : Z) (entries : list (string * IpData))
    (m : gmap string IpData) ip :
  foldl (λ m entry, if (resetTime entry.2 <? now)%Z then delete entry.1 m else m)
    m entries !! ip
  = if decide (ip ∈ (filter (λ entry, (resetTime entry.2 <? now)%Z = true) entries).*1)
    then None else m !! ip.
Proof.
  revert m. induction entries as [|[k d] entries IH]; intros m; [done|].
  cbn [foldl]. rewrite IH, filter_cons. cbn [fst snd].
  destruct (decide ((resetTime d <? now)%Z = true)) as [Hover|Hopen].
  - rewrite Hover, fmap_cons. cbn [fst].
    destruct (decide (ip ∈ _)) as [Hin|Hout].
    + by rewrite decide_True by (by right).
    + destruct (decide (ip = k)) as [->|Hne].
      * rewrite decide_True by (by left). by rewrite lookup_delete_eq.
      * rewrite decide_False by (intros [?|?]%elem_of_cons; done).
        by rewrite lookup_delete_ne.
  - by rewrite (not_true_is_false _ Hopen).
Qed.

Lemma cleanup_lookup now this ip :
  requestCounts (cleanup now this) !! ip
  = match requestCounts this !! ip with
    | Some ipData => if (resetTime ipData <? now)%Z then None else Some ipData
    | None => None
    end.
Proof.
  cbn [cleanup requestCounts]. rewrite foldl_expire_lookup.
  destruct (decide (ip ∈ _)) as [Hin|Hout].
  - apply list_elem_of_fmap in Hin as ([k d] & -> & [Hover Hin%elem_of_map_to_list]%list_elem_of_filter).
    cbn [fst snd] in *. by rewrite Hin, Hover.
  - destruct (requestCounts this !! ip) as [d|] eqn:Hip; [|done].
    destruct (resetTime d <? now)%Z eqn:Hover; [|done].
    exfalso. apply Hout, list_elem_of_fmap. exists (ip, d). split; [done|].
    apply list_elem_of_filter. split; [done|by apply elem_of_map_to_list].
Qed.

Lemma cleanup_same_but_expired now this : same_but_expired now (cleanup now this) this.
Proof.
  split_and!; [done..|]. intros ip. rewrite cleanup_lookup.
  destruct (requestCounts this !! ip) as [d|]; [|by left].
  destruct (Z.ltb_spec (resetTime d) now); [right; eauto|by left].
Qed.

Lemma middleware_same_but_expired nodeEnv now now' req this1 this2 :
  same_but_expired now this1 this2 → (now ≤ now')%Z →
  (middleware nodeEnv now' req this1).1 = (middleware nodeEnv now' req this2).1
  ∧ same_but_expired now (middleware nodeEnv now' req this1).2
      (middleware nodeEnv now' req this2).2.
Proof.
  intros (Hmax & Hw & Hentries) Hlater. unfold middleware.
  case_bool_decide; [by split|].
  destruct (isWhitelisted (getClientIP req)); [by split|].
  assert (Hopened :
    match requestCounts this1 !! getClientIP req with
    | Some ipData =>
        if (resetTime ipData <? now')%Z
        then {| count := 0; resetTime := now' + windowMs this1 |}
        else ipData
    | None => {| count := 0; resetTime := now' + windowMs this1 |}
    end
    = match requestCounts this2 !! getClientIP req with
      | Some ipData =>
          if (resetTime ipData <? now')%Z
          then {| count := 0; resetTime := now' + windowMs this2 |}
          else ipData
      | None => {| count := 0; resetTime := now' + windowMs this2 |}
      end).
  { rewrite Hw. destruct (Hentries (getClientIP req)) as [->|(-> & d & -> & Hover)]; [done|].
    by rewrite (proj2 (Z.ltb_lt _ _)) by lia. }
  rewrite Hopened, Hmax. cbn zeta.
  set (ipData := match requestCounts this2 !! getClientIP req with
                 | Some ipData => _
                 | None => _
                 end).
  assert (Hstates : same_but_expired now
    {| requestCounts := <[getClientIP req := {| count := count ipData + 1;
                                                resetTime := resetTime ipData |}]>
                          (requestCounts this1);
       maxRequests := maxRequests this2; windowMs := windowMs this1 |}
    {| requestCounts := <[getClientIP req := {| count := count ipData + 1;
                                                resetTime := resetTime ipData |}]>
                          (requestCounts this2);
       maxRequests := maxRequests this2; windowMs := windowMs this2 |}).
  { split_and!; [done..|]. intros ip. cbn [requestCounts].
    destruct (decide (ip = getClientIP req)) as [->|Hne].
    - left. by rewrite !lookup_insert_eq.
    - rewrite !lookup_insert_ne by done. apply Hentries. }
  destruct (maxRequests this2 <? _)%Z; by split.
Qed.

(** X8.  The periodic [cleanup] cannot be told from the answers of
    the middleware: after a cleanup at some instant, every sequence of
    later requests is answered as it would have been without it. *)
Theorem cleanup_is_invisible nodeEnv (now : Z) (arrivals : list Arrival) this :
  Forall (λ a, now ≤ at_time a)%Z arrivals →
  (serve nodeEnv arrivals (cleanup now this)).1 = (serve nodeEnv arrivals this).1.
Proof.
  intros Hlater. pose proof (cleanup_same_but_expired now this) as Hsame.
  revert Hsame. generalize (cleanup now this) as this1. revert this.
  induction Hlater as [|a arrivals Ha _ IH]; intros this2 this1 Hsame; [done|].
  cbn [serve].
  destruct (middleware_same_but_expired nodeEnv now (at_time a) (request a)
              this1 this2 Hsame Ha) as [Hreply Hnext].
  destruct (middleware _ _ _ this1) as [[logs1 reply1] this1'].
  destruct (middleware _ _ _ this2) as [[logs2 reply2] this2'].
  cbn [fst snd] in *. injection Hreply as _ ->.
  specialize (IH this2' this1' Hnext).
  destruct (serve nodeEnv arrivals this1'), (serve nodeEnv arrivals this2').
  cbn [fst] in *. by rewrite IH.
Qed.

(** *** The bound over any window *)

Lemma filter_length_impl {A} (P Q : A → Prop)
    `{!∀ x, Decision (P x)} `{!∀ x, Decision (Q x)} (l : list A) :
  (∀ x, x ∈ l → P x → Q x) → length (filter P l) ≤ length (filter Q l).
Proof.
  induction l as [|x l IH]; intros Himpl; [done|]. rewrite !filter_cons.
  assert (IH' : length (filter P l) ≤ length (filter Q l)).
  { apply IH. intros y Hy. apply Himpl. by right. }
  destruct (decide (P x)) as [HP|HP].
  - rewrite decide_True by (apply Himpl; [by left|done]). simpl. lia.
  - destruct (decide (Q x)); simpl; lia.
Qed.

Lemma filter_length_or {A} (P Q1 Q2 : A → Prop)
    `{!∀ x, Decision (P x)} `{!∀ x, Decision (Q1 x)} `{!∀ x, Decision (Q2 x)}
    (l : list A) :
  (∀ x, x ∈ l → P x → Q1 x ∨ Q2 x) →
  length (filter P l) ≤ length (filter Q1 l) + length (filter Q2 l).
Proof.
  induction l as [|x l IH]; intros Himpl; [done|]. rewrite !filter_cons.
  assert (IH' : length (filter P l) ≤ length (filter Q1 l) + length (filter Q2 l)).
  { apply IH. intros y Hy. apply Himpl. by right. }
  destruct (decide (P x)) as [HP|HP].
  - destruct (Himpl x) as [Hq1|Hq2]; [by left|done| |].
    + rewrite (decide_True (P := Q1 x)) by done. destruct (decide (Q2 x)); simpl; lia.
    + rewrite (decide_True (P := Q2 x)) by done. destruct (decide (Q1 x)); simpl; lia.
  - destruct (decide (Q1 x)), (decide (Q2 x)); simpl; lia.
Qed.

(** What a run from an instance without entries keeps true of one
    address that is counted: the requests let through since its window
    opened are no more than the count and than [maxRequests]; those
    let through after the instant it opened, and those let through in
    the window of time before it, are fewer than [maxRequests]. *)
Lemma serve_windows nodeEnv (ip : string) (arrivals : list Arrival) (maxR w : Z) :
  nodeEnv ≠ Some "development" → isWhitelisted ip = false → (0 ≤ w)%Z →
  StronglySorted Z.le (at_time <$> arrivals) →
  let '(served, final) := serve nodeEnv arrivals (mk ∅ maxR w) in
  maxRequests final = maxR ∧ windowMs final = w
  ∧ match requestCounts final !! ip with
    | None => Forall (λ s, getClientIP (request s.1) ≠ ip) served
    | Some ipData =>
        (∃ a, a ∈ arrivals ∧ at_time a = resetTime ipData - w)%Z
        ∧ Forall (λ s, getClientIP (request s.1) = ip
                       → (at_time s.1 ≤ resetTime ipData)%Z) served
        ∧ (Z.of_nat (length (filter
             (λ s, passed s.2 = true ∧ getClientIP (request s.1) = ip
                   ∧ (resetTime ipData - w ≤ at_time s.1)%Z) served))
           ≤ count ipData)%Z
        ∧ length (filter
             (λ s, passed s.2 = true ∧ getClientIP (request s.1) = ip
                   ∧ (resetTime ipData - w ≤ at_time s.1)%Z) served)
          ≤ Z.to_nat maxR
        ∧ (Z.of_nat (length (filter
             (λ s, passed s.2 = true ∧ getClientIP (request s.1) = ip
                   ∧ (resetTime ipData - w < at_time s.1)%Z) served)) + 1
           ≤ count ipData)%Z
        ∧ length (filter
             (λ s, passed s.2 = true ∧ getClientIP (request s.1) = ip
                   ∧ (resetTime ipData - w < at_time s.1)%Z) served)
          ≤ Z.to_nat maxR - 1
        ∧ length (filter
             (λ s, passed s.2 = true ∧ getClientIP (request s.1) = ip
                   ∧ (resetTime ipData - w - w < at_time s.1 < resetTime ipData - w)%Z)
             served)
          ≤ Z.to_nat maxR - 1
    end.
Proof.
  intros Hdev Hwhite Hw.
  induction arrivals as [|a arrivals IH] using rev_ind; intros Hsorted.
  - cbn. split_and!; [done..|]. rewrite lookup_empty. constructor.
  - rewrite fmap_app in Hsorted.
    pose proof (StronglySorted_app_1_l _ _ _ Hsorted) as Hbefore.
    assert (Hnow : ∀ b, b ∈ arrivals → (at_time b ≤ at_time a)%Z).
    { intros b Hb.
      apply (StronglySorted_app_1_elem_of _ _ _ (at_time b) (at_time a) Hsorted);
        [by apply list_elem_of_fmap_2|by left]. }
    specialize (IH Hbefore). rewrite ip_serve_app.
    pose proof (serve_arrivals nodeEnv arrivals (mk ∅ maxR w)) as Harr.
    destruct (serve nodeEnv arrivals (mk ∅ maxR w)) as [served this].
    destruct IH as (Hmax & Hwin & Hinv). cbn [fst snd serve] in *.
    assert (Htimes : ∀ s, s ∈ served → (at_time s.1 ≤ at_time a)%Z).
    { intros s Hs. apply Hnow. rewrite <- Harr. by apply list_elem_of_fmap_2. }
    destruct (decide (getClientIP (request a) = ip)) as [Hip|Hother].
    + (* a request of the address *)
      assert (Hcounted : ¬ exempt nodeEnv (request a)).
      { intros [?|?]; [done|congruence]. }
      pose proof (middleware_counted nodeEnv (at_time a) (request a) this Hcounted)
        as [Hpass Hstate].
      unfold opened in Hpass, Hstate. rewrite Hip, Hmax, Hwin in Hpass, Hstate.
      destruct (middleware _ _ _ this) as [[logs reply] this']. cbn [fst snd] in *.
      subst this'. cbn [requestCounts maxRequests windowMs].
      rewrite lookup_insert_eq. split; [done|split; [done|]].
      destruct (requestCounts this !! ip) as [ipData|] eqn:Hentry;
        [destruct (Z.ltb_spec (resetTime ipData) (at_time a)) as [Hover|Hopen]|];
        cbn [count resetTime] in *.
      * (* the window was over: a new one opens *)
        destruct Hinv as (_ & Hlate & _ & _ & _ & Hcur & _).
        rewrite Forall_forall in Hlate.
        replace (at_time a + w - w)%Z with (at_time a) by lia.
        assert (Hnew : filter
                  (λ s, passed s.2 = true ∧ getClientIP (request s.1) = ip
                        ∧ (at_time a ≤ at_time s.1)%Z) served = []).
        { apply filter_none. intros s Hs (_ & Hsip & Hlater).
          specialize (Hlate s Hs Hsip). lia. }
        assert (Hnew' : filter
                  (λ s, passed s.2 = true ∧ getClientIP (request s.1) = ip
                        ∧ (at_time a < at_time s.1)%Z) served = []).
        { apply filter_none. intros s Hs (_ & Hsip & Hlater).
          specialize (Hlate s Hs Hsip). lia. }
        rewrite !filter_app, !length_app, Hnew, Hnew', !filter_cons, !filter_nil.
        cbn [fst snd length Nat.add].
        rewrite (decide_False (P := _ ∧ _ ∧ (at_time a < at_time a)%Z))
          by (intros (_ & _ & ?); lia).
        split_and!.
        -- exists a. split; [apply elem_of_app; right; by left|done].
        -- apply Forall_app. split; [|apply Forall_singleton; cbn; intros; lia].
           apply Forall_forall. intros s Hs Hsip. specialize (Hlate s Hs Hsip). lia.
        -- destruct (decide _); simpl; lia.
        -- destruct (decide _) as [(Hp & _)|]; simpl; [|lia].
           rewrite Hpass in Hp. apply negb_true_iff, Z.ltb_ge in Hp. lia.
        -- simpl. lia.
        -- simpl. lia.
        -- rewrite (decide_False (P := _ ∧ _ ∧ (at_time a - w < at_time a < at_time a)%Z))
             by (intros (_ & _ & ?); lia).
           simpl. rewrite Nat.add_0_r. etrans; [|exact Hcur].
           apply filter_length_impl. intros s Hs (? & ? & ?). split_and!; [done..|lia].
      * (* the window is still open *)
        destruct Hinv as ((a0 & Ha0 & Hstart) & Hlate & Hcount & Hcur & Hcount' & Hcur' & Hprev).
        specialize (Hnow a0 Ha0).
        rewrite !filter_app, !length_app, !filter_cons, !filter_nil.
        cbn [fst snd]. split_and!.
        -- exists a0. split; [apply elem_of_app; by left|done].
        -- apply Forall_app. split; [done|]. by apply Forall_singleton.
        -- destruct (decide _); simpl; lia.
        -- destruct (decide _) as [(Hp & _)|]; simpl; [|lia].
           rewrite Hpass in Hp. apply negb_true_iff, Z.ltb_ge in Hp. lia.
        -- destruct (decide _); simpl; lia.
        -- destruct (decide _) as [(Hp & _)|]; simpl; [|lia].
           rewrite Hpass in Hp. apply negb_true_iff, Z.ltb_ge in Hp. lia.
        -- rewrite (decide_False (P := _ ∧ _ ∧ (_ < at_time a < _)%Z))
             by (intros (_ & _ & ?); lia).
           simpl. lia.
      * (* the first request of the address *)
        rewrite Forall_forall in Hinv.
        replace (at_time a + w - w)%Z with (at_time a) by lia.
        assert (Hnone : ∀ (P : Arrival * Reply → Prop) `{!∀ s, Decision (P s)},
                  filter (λ s, passed s.2 = true ∧ getClientIP (request s.1) = ip ∧ P s)
                    served = []).
        { intros P ?. apply filter_none. intros s Hs (_ & Hsip & _). by apply (Hinv s Hs). }
        rewrite !filter_app, !length_app, !filter_cons, !filter_nil, !Hnone.
        cbn [fst snd length Nat.add].
        rewrite (decide_False (P := _ ∧ _ ∧ (at_time a < at_time a)%Z))
          by (intros (_ & _ & ?); lia).
        split_and!.
        -- exists a. split; [apply elem_of_app; right; by left|done].
        -- apply Forall_app. split; [|apply Forall_singleton; cbn; intros; lia].
           apply Forall_forall. intros s Hs Hsip. by destruct (Hinv s Hs).
        -- destruct (decide _); simpl; lia.
        -- destruct (decide _) as [(Hp & _)|]; simpl; [|lia].
           rewrite Hpass in Hp. apply negb_true_iff, Z.ltb_ge in Hp. lia.
        -- simpl. lia.
        -- simpl. lia.
        -- rewrite (decide_False (P := _ ∧ _ ∧ (at_time a - w < at_time a < at_time a)%Z))
             by (intros (_ & _ & ?); lia).
           simpl. lia.
    + (* a request of another address *)
      assert (Hkept : requestCounts (middleware nodeEnv (at_time a) (request a) this).2 !! ip
                      = requestCounts this !! ip
                      ∧ maxRequests (middleware nodeEnv (at_time a) (request a) this).2 = maxR
                      ∧ windowMs (middleware nodeEnv (at_time a) (request a) this).2 = w).
      { destruct (decide (exempt nodeEnv (request a))) as [Hex|Hcounted].
        - by destruct (middleware_exempt nodeEnv (at_time a) (request a) this Hex) as [_ ->].
        - destruct (middleware_counted nodeEnv (at_time a) (request a) this Hcounted)
            as [_ ->].
          cbn. by rewrite lookup_insert_ne by done. }
      destruct (middleware _ _ _ this) as [[logs reply] this']. cbn [fst snd] in *.
      destruct Hkept as (-> & -> & ->). split; [done|split; [done|]].
      destruct (requestCounts this !! ip) as [ipData|].
      * destruct Hinv as ((a0 & Ha0 & Hstart) & Hlate & Hcount & Hcur & Hcount' & Hcur' & Hprev).
        rewrite !filter_app, !length_app, !filter_cons, !filter_nil.
        cbn [fst snd].
        rewrite !(decide_False (P := _ ∧ getClientIP (request a) = ip ∧ _))
          by (by intros (_ & ? & _)).
        simpl. rewrite !Nat.add_0_r. split_and!; [|by (apply Forall_app; split;
          [|apply Forall_singleton])|done..].
        exists a0. split; [apply elem_of_app; by left|done].
      * apply Forall_app. split; [done|]. by apply Forall_singleton.
Qed.

(** X9.  With a clock that never goes back, an address that is
    counted is let through fewer than twice [maxRequests] times within
    any window of [windowMs] milliseconds, and no more than that: the
    requests may fall into two counting windows, the later of which
    lets [maxRequests] through and the earlier one fewer, its first
    request being too old. *)
Theorem at_most_twice_the_limit_in_any_window
    nodeEnv (ip : string) (arrivals : list Arrival) (maxR w T : Z) :
  nodeEnv ≠ Some "development" → isWhitelisted ip = false →
  StronglySorted Z.le (at_time <$> arrivals) →
  length (passed_in_window w T ip (serve nodeEnv arrivals (mk ∅ maxR w)).1)
  ≤ 2 * Z.to_nat maxR - 1.
Proof.
  intros Hdev Hwhite.
  destruct (decide (0 ≤ w)%Z) as [Hw|Hw].
  2:{ intros _. unfold passed_in_window. rewrite filter_none; [simpl; lia|].
      intros s _ (_ & _ & ?). lia. }
  revert T. induction arrivals as [|a arrivals IH] using rev_ind; intros T Hsorted.
  - cbn. lia.
  - pose proof (serve_windows nodeEnv ip _ maxR w Hdev Hwhite Hw Hsorted) as Hinv.
    pose proof (serve_arrivals nodeEnv (arrivals ++ [a]) (mk ∅ maxR w)) as Harr.
    rewrite fmap_app in Hsorted.
    pose proof (StronglySorted_app_1_l _ _ _ Hsorted) as Hbefore.
    assert (Hnow : ∀ b, b ∈ arrivals ++ [a] → (at_time b ≤ at_time a)%Z).
    { intros b [Hb|Hb%list_elem_of_singleton]%elem_of_app; [|subst; lia].
      apply (StronglySorted_app_1_elem_of _ _ _ (at_time b) (at_time a) Hsorted);
        [by apply list_elem_of_fmap_2|by left]. }
    destruct (decide (at_time a ≤ T)%Z) as [Hin|Hout].
    + destruct (serve nodeEnv (arrivals ++ [a]) (mk ∅ maxR w)) as [served final].
      cbn [fst] in *. destruct Hinv as (_ & _ & Hinv). unfold passed_in_window.
      destruct (requestCounts final !! ip) as [ipData|].
      * destruct Hinv as ((a0 & Ha0 & Hstart) & _ & _ & Hcur & _ & Hcur' & Hprev).
        specialize (Hnow a0 Ha0).
        etrans; [|etrans; [apply Nat.add_le_mono; [exact Hcur|exact Hprev]|lia]].
        apply filter_length_or. intros s Hs (Hp & Hsip & Htime).
        destruct (decide (resetTime ipData - w ≤ at_time s.1)%Z); [by left|right].
        split; [done|split; [done|lia]].
      * rewrite filter_none; [simpl; lia|].
        rewrite Forall_forall in Hinv. intros s Hs (_ & Hsip & _). by apply (Hinv s Hs).
    + rewrite ip_serve_app. cbn [fst serve]. unfold passed_in_window.
      rewrite filter_app, length_app.
      specialize (IH T Hbefore). unfold passed_in_window in IH.
      destruct (middleware _ _ _ _) as [[logs reply] this']. cbn [fst].
      rewrite filter_cons, filter_nil, decide_False; [simpl; lia|].
      cbn. intros (_ & _ & ?). lia.
Qed.

End IPRateLimiterProps.

(** ** The page, its columns and its gestures *)


Section LoadKeyed.

Import LoadInitData Todolist.

Variable navigate : string → Eff Call unit.

(** What the assignments of a run of records leave under a name. *)
Lemma assign_records_lookup {R} (rid : R → string) (records : list R)
    (acc : gmap string R) (id : string) :
  foldl (λ data r, assign (rid r) r data) acc records !! id
  = match lastWithId rid records id with
    | Some r => Some r
    | None => acc !! id
    end.
Proof.
  unfold lastWithId. revert acc.
  induction records as [|r records IH] using rev_ind; intros acc.
  - cbn. by destruct (String.eqb id "__proto__").
  - rewrite foldl_app. cbn [foldl]. rewrite filter_app, filter_cons, filter_nil.
    unfold assign at 1.
    destruct (String.eqb (rid r) "__proto__") eqn:Hproto.
    + apply String.eqb_eq in Hproto. rewrite IH.
      destruct (String.eqb id "__proto__") eqn:Hid; [done|].
      apply String.eqb_neq in Hid.
      rewrite decide_False by congruence. by rewrite app_nil_r.
    + apply String.eqb_neq in Hproto.
      destruct (decide (rid r = id)) as [<-|Hother].
      * rewrite lookup_insert_eq. apply String.eqb_neq in Hproto. rewrite Hproto.
        by rewrite last_snoc.
      * rewrite lookup_insert_ne, app_nil_r by done. apply IH.
Qed.

Lemma assign_keyed {R} (rid : R → string) (r : R) (acc : gmap string R) :
  stored_under_id rid acc → stored_under_id rid (assign (rid r) r acc).
Proof.
  intros Hacc. unfold assign. destruct (String.eqb _ _); [done|].
  by apply map_Forall_insert_2.
Qed.

Lemma mapTasks_keyed l acc m :
  completion (mapTasks l acc) = Normal m →
  stored_under_id Task.id acc → stored_under_id Task.id m.
Proof.
  revert acc. induction l as [|[t|] l IH]; intros acc; cbn [mapTasks].
  - by intros [= <-].
  - rewrite completion_bind. cbn. intros Hm Hacc. apply (IH _ Hm).
    by apply (assign_keyed Task.id (toTask t)).
  - done.
Qed.

Lemma mapProjects_keyed l acc m :
  completion (mapProjects l acc) = Normal m →
  stored_under_id Project.id acc → stored_under_id Project.id m.
Proof.
  revert acc. induction l as [|[t|] l IH]; intros acc; cbn [mapProjects].
  - by intros [= <-].
  - intros Hm Hacc. apply (IH _ Hm). by apply assign_keyed.
  - done.
Qed.

Lemma mapStatuses_keyed l acc m :
  completion (mapStatuses l acc) = Normal m →
  stored_under_id Status.id acc → stored_under_id Status.id m.
Proof.
  revert acc. induction l as [|[t|] l IH]; intros acc; cbn [mapStatuses].
  - by intros [= <-].
  - intros Hm Hacc. apply (IH _ Hm). by apply assign_keyed.
  - done.
Qed.

(** On arrays without [null] elements the three loops run to their
    end and assign every record. *)
Lemma mapTasks_assigns (tasks : list TaskJson) acc :
  completion (mapTasks (Some <$> tasks) acc)
  = Normal (foldl (λ data r, assign (Task.id r) r data) acc (toTask <$> tasks)).
Proof.
  revert acc. induction tasks as [|t tasks IH]; intros acc; [done|].
  cbn [fmap list_fmap mapTasks foldl]. rewrite completion_bind. cbn. apply IH.
Qed.

Lemma mapProjects_assigns (projects : list ProjectType) acc :
  completion (mapProjects (Some <$> projects) acc)
  = Normal (foldl (λ data r, assign (Project.id r) r data) acc projects).
Proof.
  revert acc. induction projects as [|p projects IH]; intros acc; [done|].
  cbn [fmap list_fmap mapProjects foldl]. apply IH.
Qed.

Lemma mapStatuses_assigns (statuses : list StatusType) acc :
  completion (mapStatuses (Some <$> statuses) acc)
  = Normal (foldl (λ data r, assign (Status.id r) r data) acc statuses).
Proof.
  revert acc. induction statuses as [|st statuses IH]; intros acc; [done|].
  cbn [fmap list_fmap mapStatuses foldl]. apply IH.
Qed.

Local Ltac step H :=
  rewrite completion_bind in H;
  match type of H with
  | match completion ?m with _ => _ end = _ =>
      let a := fresh "a" in let Ha := fresh "Ha" in
      destruct (completion m) as [a|] eqn:Ha; [|discriminate H]
  end.

(** X10.  Whatever the server answers, the data [loadAllData] hands
    over hold every task, project and status under its own identifier.
    When the answer is OK and carries the three arrays and a profile,
    these data hold, under every identifier, the last record of the
    array that carries it, and nothing else: of two records with the
    same identifier the later one is kept, and a record whose
    identifier is [__proto__] is not kept at all. *)
Theorem loadAllData_stores_under_id net d :
  loadAllData navigate net = Fulfilled d →
  (stored_under_id Task.id (taskData d)
   ∧ stored_under_id Project.id (projectData d)
   ∧ stored_under_id Status.id (statusData d))
  ∧ ∀ res tasks projects statuses profile,
      net = FetchResolves res → ok res = true →
      json res = JsonValue {| body_tasks := Some (Some <$> tasks);
                              body_projects := Some (Some <$> projects);
                              body_statuses := Some (Some <$> statuses);
                              body_userProfile := Some profile |} →
      ∀ id,
        taskData d !! id = lastWithId Task.id (toTask <$> tasks) id
        ∧ projectData d !! id = lastWithId Project.id projects id
        ∧ statusData d !! id = lastWithId Status.id statuses id.
Proof.
  intros Hload. split.
  - revert Hload.
    unfold loadAllData, loadAllData_body. rewrite completion_try_catch.
    destruct (completion (loadAllData_try navigate net)) as [d'|e] eqn:Htry.
    2:{ cbn. intros [= <-]. split_and!; apply map_Forall_empty. }
    cbn. intros [= ->]. unfold loadAllData_try in Htry.
    do 11 step Htry.
    cbn in Htry. injection Htry as <-. cbn [taskData projectData statusData].
    split_and!.
    + eapply mapTasks_keyed; [eassumption|apply map_Forall_empty].
    + eapply mapProjects_keyed; [eassumption|apply map_Forall_empty].
    + eapply mapStatuses_keyed; [eassumption|apply map_Forall_empty].
  - intros res tasks projects statuses profile -> Hok Hjson id.
    revert Hload.
    unfold loadAllData, loadAllData_body. rewrite completion_try_catch.
    unfold loadAllData_try.
    rewrite completion_bind. cbn [emit completion snd].
    rewrite completion_bind. cbn [await ret completion snd].
    rewrite completion_bind, Hok. cbn [negb skip completion snd].
    rewrite completion_bind, Hjson. cbn [ret completion snd].
    rewrite completion_bind. cbn [body_tasks arrayOf ret completion snd].
    rewrite completion_bind, mapTasks_assigns.
    rewrite completion_bind. cbn [body_projects arrayOf ret completion snd].
    rewrite completion_bind, mapProjects_assigns.
    rewrite completion_bind. cbn [body_statuses arrayOf ret completion snd].
    rewrite completion_bind, mapStatuses_assigns.
    rewrite completion_bind. cbn [body_userProfile ret completion snd settle].
    intros [= <-]. cbn [taskData projectData statusData].
    rewrite !assign_records_lookup, !lookup_empty.
    split_and!; by destruct (lastWithId _ _ id).
Qed.

(** X11.  When the initial load fails, the callback of the page
    leaves the working copy as it is, profile included, and writes its
    four warnings. *)
Theorem failed_load_changes_nothing net (s : States) :
  LoadFailure net →
  ∃ d, loadAllData navigate net = Fulfilled d
       ∧ (onLoaded d s).2 = s
       ∧ Forall (λ line, ∃ msg, line = Warn msg) (onLoaded d s).1.
Proof.
  intros Hfail. exists emptyLoaded. split_and!.
  - destruct (loadAllData_try_throws navigate net Hfail) as [e He].
    unfold loadAllData, loadAllData_body. by rewrite completion_try_catch, He.
  - unfold onLoaded. cbn. rewrite !(left_id_L ∅ (∪)). by destruct s.
  - unfold onLoaded. cbn. repeat constructor; eauto.
Qed.

Lemma quiet_bind {A B} (m : Eff Call A) (k : A → Eff Call B) :
  quiet m → (∀ a, quiet (k a)) → quiet (m ≫= k).
Proof.
  unfold quiet. intros Hm Hk. rewrite trace_bind.
  destruct (completion m); [|done]. apply Forall_app. split; [done|apply Hk].
Qed.

Lemma trace_emit_bind {B} (c : Call) (k : unit → Eff Call B) :
  trace (emit c ≫= k) = c :: trace (k tt).
Proof. unfold mbind, eff_bind, Js.bind, emit. by destruct (k tt). Qed.

Lemma trace_await_bind {A B} (a : A) (k : A → Eff Call B) :
  trace (await (Fulfilled a) ≫= k) = trace (k a).
Proof. unfold mbind, eff_bind, Js.bind, await, ret. by destruct (k a). Qed.

Lemma trace_skip_bind {B} (k : unit → Eff Call B) :
  trace (skip ≫= k) = trace (k tt).
Proof. unfold mbind, eff_bind, Js.bind, skip. by destruct (k tt). Qed.

Lemma quiet_pure {A} (m : Eff Call A) : trace m = [] → quiet m.
Proof. unfold quiet. by intros ->. Qed.

Lemma quiet_mapTasks l acc : quiet (mapTasks l acc).
Proof.
  revert acc. induction l as [|[t|] l IH]; intros acc; cbn [mapTasks];
    [by apply quiet_pure| |by apply quiet_pure].
  apply quiet_bind; [|intros; apply IH]. unfold quiet. cbn. by repeat constructor.
Qed.

Lemma quiet_mapProjects l acc : quiet (mapProjects l acc).
Proof.
  revert acc. induction l as [|[t|] l IH]; intros acc; cbn [mapProjects];
    [by apply quiet_pure|apply IH|by apply quiet_pure].
Qed.

Lemma quiet_mapStatuses l acc : quiet (mapStatuses l acc).
Proof.
  revert acc. induction l as [|[t|] l IH]; intros acc; cbn [mapStatuses];
    [by apply quiet_pure|apply IH|by apply quiet_pure].
Qed.

End LoadKeyed.

(** X12.  [loadAllData] sends the user to the login page exactly when
    the server answers, and answers 401; on every other failure it
    only logs the error. *)
Theorem loadAllData_navigates_on_401_only (net : LoadInitData.FetchResult) :
  LoadInitData.Navigate "/login"
    ∈ trace (LoadInitData.loadAllData_body
               (λ path, emit (LoadInitData.Navigate path)) net)
  ↔ ∃ res, net = LoadInitData.FetchResolves res
           ∧ LoadInitData.ok res = false ∧ LoadInitData.status res = 401.
Proof.
  unfold LoadInitData.loadAllData_body. rewrite trace_try_catch.
  set (navigate := λ path, emit (LoadInitData.Navigate path)).
  assert (Hhandler : ∀ l : list LoadInitData.Call,
    LoadInitData.Navigate "/login"
      ∈ l ++ [LoadInitData.ConsoleError "Error loading test tasks:"]
    ↔ LoadInitData.Navigate "/login" ∈ l).
  { intros l. rewrite elem_of_app, list_elem_of_singleton. naive_solver. }
  assert (Hresult : ∀ (m : Eff LoadInitData.Call LoadInitData.LoadedData),
    LoadInitData.Navigate "/login"
      ∈ match completion m with
        | Normal _ => trace m
        | Throw e => trace m ++ trace (emit (LoadInitData.ConsoleError "Error loading test tasks:");;
                                       ret LoadInitData.emptyLoaded)
        end
    ↔ LoadInitData.Navigate "/login" ∈ trace m).
  { intros m. destruct (completion m); [done|apply Hhandler]. }
  rewrite Hresult. clear Hresult Hhandler.
  unfold LoadInitData.loadAllData_try. rewrite trace_emit_bind.
  destruct net as [e|res].
  - cbn. split; [|by intros (? & ? & _)].
    intros Hin. apply elem_of_cons in Hin as [?|Hin]; [done|by apply elem_of_nil in Hin].
  - rewrite trace_await_bind.
    destruct (LoadInitData.ok res) eqn:Hok; cbn [negb].
    + split; [|intros (? & [= <-] & ? & _); congruence].
      intros Hin. exfalso. apply elem_of_cons in Hin as [?|Hin]; [done|].
      rewrite trace_skip_bind in Hin.
      match type of Hin with _ ∈ trace ?m => assert (Hq : quiet m) end;
        [|unfold quiet in Hq; rewrite Forall_forall in Hq; by apply (Hq _ Hin "/login")].
      apply quiet_bind; [apply quiet_pure; by destruct (LoadInitData.json res)|intros body].
      apply quiet_bind; [apply quiet_pure; by destruct (LoadInitData.body_tasks body)|intros ?].
      apply quiet_bind; [apply quiet_mapTasks|intros ?].
      apply quiet_bind; [apply quiet_pure; by destruct (LoadInitData.body_projects body)|intros ?].
      apply quiet_bind; [apply quiet_mapProjects|intros ?].
      apply quiet_bind; [apply quiet_pure; by destruct (LoadInitData.body_statuses body)|intros ?].
      apply quiet_bind; [apply quiet_mapStatuses|intros ?].
      apply quiet_bind; [apply quiet_pure; by destruct (LoadInitData.body_userProfile body)|intros ?].
      by apply quiet_pure.
    + destruct (Nat.eqb_spec (LoadInitData.status res) 401) as [H401|Hother].
      * split; [intros _; by exists res|intros _]. cbn. right. by left.
      * cbn. split; [|intros (? & [= <-] & _ & ?); done].
        intros Hin. apply elem_of_cons in Hin as [?|Hin]; [done|by apply elem_of_nil in Hin].
Qed.

Section GestureProps.

Import Gesture Gestures.

(** X13.  The add-task gesture never throws, and it restores the
    backup exactly when one of its steps fails: the action, the
    optimistic update, or the commit, by an exception or by a rejected
    promise.  The restore is then the last thing it does. *)
Theorem handleKeyboard_rolls_back_iff_a_step_fails
    (w : World) (states : States) (status title : string) :
  trim title ≠ "" →
  let run := AddNewTask.handleKeyboard w states status
               {| key := "Enter"; value := title |} in
  completion run = Normal tt
  ∧ (gesture_succeeds w → existsb is_rollback (trace run) = false)
  ∧ (¬ gesture_succeeds w → last (trace run) = Some (RestoreBackup backup_var)).
Proof.
  intros Htitle run. unfold run, AddNewTask.handleKeyboard, gesture_succeeds.
  cbn [key value String.eqb Ascii.eqb Bool.eqb].
  apply String.eqb_neq in Htitle. rewrite Htitle. cbn [negb].
  destruct w as [[[]|e1] [[]|e2] [[[]|e3]|e4] c]; cbn; split_and!; try done;
    intros Hno;
    first [ by destruct Hno as (? & ? & ?) | exfalso; apply Hno; by split_and! ].
Qed.

(** X14.  A key other than Enter in either input field, Enter on a
    project title that was not changed, and a declined confirmation of
    a delete start no transaction: nothing is built, applied, restored
    or posted. *)
Theorem idle_gestures_start_no_transaction
    (w : World) (states : States) (status : string)
    (project : ProjectId * ProjectType) (e : KeyboardEvent) :
  (key e ≠ "Enter"
   ∨ (value e = Project.title (snd project) ∧ trim (value e) ≠ "")) →
  confirm_result w = false →
  (key e ≠ "Enter" →
   Forall outside_transaction (trace (AddNewTask.handleKeyboard w states status e)))
  ∧ Forall outside_transaction
      (trace (ProjectButton.handlePressEnterAndEscape w project e))
  ∧ Forall outside_transaction (trace (ProjectButton.handleDeleteButton w project)).
Proof.
  intros Hidle Hdeclined. split_and!.
  - intros Hkey. unfold AddNewTask.handleKeyboard. cbn zeta.
    apply String.eqb_neq in Hkey. rewrite Hkey.
    destruct (String.eqb (key e) "Escape"); cbn; by repeat constructor.
  - unfold ProjectButton.handlePressEnterAndEscape. cbn zeta.
    destruct (String.eqb_spec (key e) "Enter") as [Henter|Hkey].
    + destruct Hidle as [?|[Hsame Hfilled]]; [done|].
      apply String.eqb_neq in Hfilled. rewrite Hfilled, Hsame, String.eqb_refl.
      cbn. by repeat constructor.
    + destruct (String.eqb (key e) "Escape"); cbn; by repeat constructor.
  - unfold ProjectButton.handleDeleteButton. rewrite Hdeclined.
    cbn. by repeat constructor.
Qed.

End GestureProps.

Section ColumnProps.

Import Todolist TodoColumn.

Lemma list_ascii_of_string_app (s1 s2 : string) :
  list_ascii_of_string (s1 +:+ s2) = list_ascii_of_string s1 ++ list_ascii_of_string s2.
Proof. induction s1 as [|c s1 IH]; [done|]. simpl. by f_equal. Qed.

(** X15.  The columns of the deleted and of the completed tasks, as
    the page renders them, accept drops, have a black border and no
    input for new tasks, whatever the focused project is called. *)
Theorem pseudo_columns_take_drops_and_no_new_tasks
    (s : States) (v : View) (props : ColumnProps) :
  props ∈ pseudoColumns s v →
  isDropDisabled v props = false
  ∧ showsAddNewTask props = false
  ∧ borderColor props = "black".
Proof.
  unfold pseudoColumns, isDropDisabled, showsAddNewTask, borderColor.
  set (p := template (UserProfile.lastProjectId (userProfile s))).
  assert (Hdel : ∀ suffix, suffix ∈ ["-deleted"; "deleted"] →
                 Engine.ends_with suffix (p +:+ "-deleted") = true).
  { intros suffix Hs. unfold Engine.ends_with.
    rewrite list_ascii_of_string_app, rev_app_distr.
    repeat (apply elem_of_cons in Hs as [->|Hs]; [reflexivity|]).
    by apply elem_of_nil in Hs. }
  assert (Hcom : ∀ suffix, suffix ∈ ["-completed"; "completed"] →
                 Engine.ends_with suffix (p +:+ "-completed") = true).
  { intros suffix Hs. unfold Engine.ends_with.
    rewrite list_ascii_of_string_app, rev_app_distr.
    repeat (apply elem_of_cons in Hs as [->|Hs]; [reflexivity|]).
    by apply elem_of_nil in Hs. }
  assert (Hdc : Engine.ends_with "-completed" (p +:+ "-deleted") = false).
  { unfold Engine.ends_with. by rewrite list_ascii_of_string_app, rev_app_distr. }
  assert (Hcd : Engine.ends_with "-deleted" (p +:+ "-completed") = false).
  { unfold Engine.ends_with. by rewrite list_ascii_of_string_app, rev_app_distr. }
  intros Hin. apply elem_of_app in Hin as [Hin|Hin].
  - destruct (showDeleted v) eqn:Hshow; [|by apply elem_of_nil in Hin].
    apply list_elem_of_singleton in Hin as ->. cbn [status bgColor].
    rewrite Hdc, (Hdel "-deleted"), (Hdel "deleted") by (repeat constructor).
    by rewrite orb_true_r.
  - destruct (showCompleted v) eqn:Hshow; [|by apply elem_of_nil in Hin].
    apply list_elem_of_singleton in Hin as ->. cbn [status bgColor].
    rewrite Hcd, (Hcom "-completed"), (Hcom "completed") by (repeat constructor).
    by rewrite andb_false_r.
Qed.

End ColumnProps.

(** ** The chat panel *)

Section AIChatPanelProps.

Import AIChatPanel.

Variable toLowerCase : string → string.

Lemma handleSend_appends_question_and_answer_aux
    (w : World) (userProfile : UserProfileData) (statuses : list StatusType)
    (tasks : list TaskType) (messages : list ChatMessage) (text : string) :
  ∃ backstage_calls answer,
    handleSend toLowerCase w userProfile statuses tasks messages text
    = (SetMessagesAppend {| message := text; sender := user; suggestedTask := None |}
         :: SetIsTyping true
         :: backstage_calls ++ [SetMessagesAppend answer; SetIsTyping false],
       Normal tt)
    ∧ sender answer = ai ∧ suggestedTask answer = None
    ∧ Forall backstage backstage_calls.
Proof.
  unfold handleSend.
  destruct w as [[response|e0] act app post]; cbn [fetch_result action_result apply_result post_result].
  2:{ eexists [_; _], _. cbn. split_and!; [reflexivity|done..|repeat constructor]. }
  destruct response as [[] st js].
  2:{ eexists [_; _], _. cbn. split_and!; [reflexivity|done..|repeat constructor]. }
  destruct js as [e1| |[rep [t|]]].
  1,2: eexists [_; _], _; cbn; split_and!; [reflexivity|done..|repeat constructor].
  2:{ eexists [_], _. cbn. split_and!; [reflexivity|done..|repeat constructor]. }
  cbn [ok json task AIChatPanel.reply].
  destruct (targetStatus toLowerCase userProfile statuses t) as [target|] eqn:Htarget.
  2:{ eexists [_], _. cbn. rewrite Htarget. cbn.
      split_and!; [reflexivity|done..|repeat constructor]. }
  destruct act as [[]|e2], app as [[]|e3], post as [[[]|e4]|e5];
    eexists _, _; cbn; rewrite Htarget; cbn;
    (split_and!; [
       match goal with
       | |- (_ :: _ :: ?l, _) = (_ :: _ :: ?m ++ _, _) =>
           let n := eval cbv in (length l - 2) in
           instantiate (2 := take n l); reflexivity
       end
     |done..|repeat constructor]).
Qed.

(** X16.  Whatever the server and the collaborators do, [handleSend]
    does not throw; it puts the text of the user and then exactly one
    message of the assistant into the conversation, and the last thing
    it does is to switch the typing indicator off. *)
Theorem handleSend_appends_question_and_answer
    (w : World) (userProfile : UserProfileData) (statuses : list StatusType)
    (tasks : list TaskType) (messages : list ChatMessage) (text : string) :
  ∃ backstage_calls answer,
    handleSend toLowerCase w userProfile statuses tasks messages text
    = (SetMessagesAppend {| message := text; sender := user; suggestedTask := None |}
         :: SetIsTyping true
         :: backstage_calls ++ [SetMessagesAppend answer; SetIsTyping false],
       Normal tt)
    ∧ sender answer = ai ∧ suggestedTask answer = None
    ∧ Forall backstage backstage_calls.
Proof. apply handleSend_appends_question_and_answer_aux. Qed.

Lemma handleSend_cardless w userProfile statuses tasks messages text :
  Forall cardless (trace (handleSend toLowerCase w userProfile statuses tasks messages text)).
Proof.
  destruct (handleSend_appends_question_and_answer_aux w userProfile statuses tasks
              messages text) as (calls & answer & -> & _ & Hcard & Hcalls).
  cbn [trace fst]. repeat constructor. apply Forall_app. split.
  - eapply Forall_impl; [exact Hcalls|]. by intros [].
  - by repeat constructor.
Qed.

Lemma handleConfirmTask_cardless w userProfile statuses t messageIndex :
  Forall cardless
    (trace (handleConfirmTask toLowerCase w userProfile statuses t messageIndex)).
Proof.
  unfold handleConfirmTask.
  destruct (confirmStatus toLowerCase statuses t) as [target|];
    [|cbn; by repeat constructor].
  destruct w as [[response|e0] [[]|e1] app post]; cbn; by repeat constructor.
Qed.

Lemma setState_cardless messages c :
  cardless c →
  Forall (λ m, suggestedTask m = None) messages →
  Forall (λ m, suggestedTask m = None) (setState messages c).
Proof.
  intros Hc Hall. destruct c; cbn [setState]; try done.
  - apply Forall_app. split; [done|]. by apply Forall_singleton.
  - unfold clearTask. apply Forall_lookup. intros i m.
    rewrite list_lookup_imap. destruct (messages !! i) as [m'|] eqn:Hm'; [|done].
    cbn. intros [= <-]. destruct (Nat.eqb i messageIndex); [done|].
    by apply (Forall_lookup_1 _ _ _ _ Hall Hm').
Qed.

(** X17.  No message of the conversation ever carries a suggested
    task, whatever is sent, confirmed or dismissed and whatever the
    server answers: the card with the Confirm and Dismiss buttons is
    never rendered. *)
Theorem no_suggested_task_is_ever_shown (moments : list Moment) :
  Forall (λ m, suggestedTask m = None) (messagesAfter toLowerCase moments).
Proof.
  unfold messagesAfter.
  assert (Hinit : Forall (λ m, suggestedTask m = None) initialMessages)
    by (by repeat constructor).
  revert Hinit. generalize initialMessages as messages.
  induction moments as [|m moments IH]; intros messages Hall; [done|].
  cbn [foldl]. apply IH.
  assert (Hcalls : Forall cardless (trace (handle toLowerCase messages m))).
  { unfold handle. destruct (event m).
    - apply handleSend_cardless.
    - apply handleConfirmTask_cardless.
    - by repeat constructor. }
  revert Hcalls Hall. generalize (trace (handle toLowerCase messages m)) as calls.
  generalize messages as state. intros state calls Hcalls. revert state.
  induction Hcalls as [|c calls Hc _ IHc]; intros state Hall; [done|].
  cbn [foldl]. apply IHc. by apply setState_cardless.
Qed.

Lemma targetStatus_focused userProfile statuses t target :
  targetStatus toLowerCase userProfile statuses t = Some target →
  target ∈ statuses
  ∧ Some (Status.project target) = UserProfile.lastProjectId userProfile.
Proof.
  unfold targetStatus.
  set (current := filter _ statuses).
  assert (Hcurrent : ∀ s, s ∈ current →
            s ∈ statuses ∧ Some (Status.project s) = UserProfile.lastProjectId userProfile).
  { intros s Hs. by apply list_elem_of_filter in Hs as [? ?]. }
  destruct (List.find _ current) as [s|] eqn:Hfind.
  - intros [= <-]. apply find_some in Hfind as [Hin _].
    apply Hcurrent. by apply list_elem_of_In.
  - intros Hhead. apply Hcurrent. destruct current; [done|].
    injection Hhead as <-. by left.
Qed.

Lemma newTaskFor_next userProfile tasks t target :
  match nt_next (newTaskFor userProfile tasks t target) with
  | Some id =>
      ∃ first, first ∈ tasks ∧ Task.id first = id
               ∧ Task.status first = Status.id target ∧ Task.prev first = None
  | None =>
      ∀ task, task ∈ tasks → Task.status task = Status.id target →
              Task.prev task ≠ None
  end.
Proof.
  unfold newTaskFor. cbn [nt_next].
  destruct (List.find _ _) as [first|] eqn:Hfind; cbn.
  - apply find_some in Hfind as [Hin Hprev]. apply bool_decide_eq_true in Hprev.
    apply list_elem_of_In, list_elem_of_filter in Hin as [Hstatus Hin]. by exists first.
  - intros task Hin Hstatus Hprev.
    assert (Hno : bool_decide (Task.prev task = None) = false).
    { apply (find_none _ _ Hfind task).
      apply list_elem_of_In, list_elem_of_filter. by split. }
    by apply bool_decide_eq_false in Hno.
Qed.

(** X18.  A task the assistant generates is only ever added to a
    status of the focused project, and at the head of it: it has no
    predecessor, and its successor is a task of that status that had
    none, if there is one. *)
Theorem generated_task_goes_to_head_of_focused_project
    (w : World) (userProfile : UserProfileData) (statuses : list StatusType)
    (tasks : list TaskType) (messages : list ChatMessage) (text : string)
    (newTask : NewTask) (payload : Gesture.Var) (flag : bool) :
  AddTask newTask payload flag
    ∈ trace (handleSend toLowerCase w userProfile statuses tasks messages text) →
  ∃ target,
    target ∈ statuses
    ∧ Some (Status.project target) = UserProfile.lastProjectId userProfile
    ∧ nt_status newTask = Status.id target
    ∧ nt_prev newTask = None
    ∧ match nt_next newTask with
      | Some id =>
          ∃ first, first ∈ tasks ∧ Task.id first = id
                   ∧ Task.status first = Status.id target ∧ Task.prev first = None
      | None =>
          ∀ task, task ∈ tasks → Task.status task = Status.id target →
                  Task.prev task ≠ None
      end.
Proof.
  assert (Hfound : ∀ t target,
    targetStatus toLowerCase userProfile statuses t = Some target →
    newTask = newTaskFor userProfile tasks t target →
    ∃ target,
      target ∈ statuses
      ∧ Some (Status.project target) = UserProfile.lastProjectId userProfile
      ∧ nt_status newTask = Status.id target
      ∧ nt_prev newTask = None
      ∧ match nt_next newTask with
        | Some id =>
            ∃ first, first ∈ tasks ∧ Task.id first = id
                     ∧ Task.status first = Status.id target ∧ Task.prev first = None
        | None =>
            ∀ task, task ∈ tasks → Task.status task = Status.id target →
                    Task.prev task ≠ None
        end).
  { intros t target Htarget ->. exists target.
    destruct (targetStatus_focused _ _ _ _ Htarget) as [? ?].
    split_and!; [done..|apply newTaskFor_next]. }
  unfold handleSend.
  destruct w as [[response|e0] act app post];
    cbn [fetch_result action_result apply_result post_result].
  2:{ cbn. intros Hin. repeat (apply elem_of_cons in Hin as [?|Hin]; [done|]).
      by apply elem_of_nil in Hin. }
  destruct response as [[] st js].
  2:{ cbn. intros Hin. repeat (apply elem_of_cons in Hin as [?|Hin]; [done|]).
      by apply elem_of_nil in Hin. }
  destruct js as [e1| |[rep [t|]]].
  1,2,4: cbn; intros Hin; repeat (apply elem_of_cons in Hin as [?|Hin]; [done|]);
    by apply elem_of_nil in Hin.
  cbn [ok json task AIChatPanel.reply].
  destruct (targetStatus toLowerCase userProfile statuses t) as [target|] eqn:Htarget.
  2:{ cbn. rewrite Htarget. cbn. intros Hin.
      repeat (apply elem_of_cons in Hin as [?|Hin]; [done|]).
      by apply elem_of_nil in Hin. }
  destruct act as [[]|e2], app as [[]|e3], post as [[[]|e4]|e5];
    cbn; rewrite Htarget; cbn; intros Hin;
    repeat (apply elem_of_cons in Hin as [Heq|Hin];
            [first [discriminate Heq
                   |injection Heq as -> _ _; by apply (Hfound t target)]|]);
    by apply elem_of_nil in Hin.
Qed.

End AIChatPanelProps.

(** ** The two diagnostics *)

Section AnalyzeTaskChainsProps.

Import AnalyzeChains AnalyzeTaskChains.

Implicit Types (tasks : list (TaskId * TaskType)) (task : TaskType).

Lemma tasksOf_grouped data statusId groups :
  groupByStatus (taskList data) = Normal groups →
  tasksOf groups statusId = tasksInStatus data statusId.
Proof.
  intros Hgroups. destruct (groupByStatus_grouped _ _ Hgroups) as [Hmem Hcov].
  unfold tasksOf. destruct (List.find _ _) as [[k members]|] eqn:Hfind; cbn.
  - apply find_some in Hfind as [Hin Hk]. apply String.eqb_eq in Hk. cbn in Hk. subst k.
    apply list_elem_of_In in Hin. by destruct (Hmem _ _ Hin) as [-> _].
  - symmetry. apply filter_none. intros task Hin Hstatus.
    apply Hcov in Hin. rewrite Hstatus in Hin.
    apply list_elem_of_fmap in Hin as ([k members] & Hk & Hin). cbn in Hk. subst k.
    apply list_elem_of_In in Hin. apply (find_none _ _ Hfind) in Hin.
    cbn in Hin. by rewrite String.eqb_refl in Hin.
Qed.

Lemma lookupTask_of_value tasks task :
  keyed_by_id tasks → task ∈ values tasks → lookupTask tasks (Task.id task) = Own task.
Proof.
  intros Hkeyed Hin. apply values_entry in Hin as [id Hin]; [|done].
  destruct (keyed_entry _ _ _ Hkeyed Hin) as [Hid _]. subst id.
  unfold lookupTask. rewrite (parse_distinct tasks (proj1 Hkeyed)).
  destruct (List.find _ tasks) as [[k t]|] eqn:Hfind; cbn.
  - apply find_some in Hfind as [Hin' Hk]. apply String.eqb_eq in Hk. cbn in Hk. subst k.
    apply list_elem_of_In in Hin'. f_equal.
    destruct Hkeyed as [Hnodup _].
    pose proof (elem_of_list_to_map_1 (M := gmap string) _ _ _ Hnodup Hin) as H1.
    pose proof (elem_of_list_to_map_1 (M := gmap string) _ _ _ Hnodup Hin') as H2.
    congruence.
  - apply list_elem_of_In in Hin. apply (find_none _ _ Hfind) in Hin.
    cbn in Hin. by rewrite String.eqb_refl in Hin.
Qed.

(** Along the path of a clean walk every task points back at the one
    before it. *)
Lemma linked_path_prev tasks statusId current path task :
  linked_path tasks statusId current path → task ∈ path →
  ∃ before, before ∈ current :: path ∧ Task.prev task = Some (Task.id before).
Proof.
  revert current. induction path as [|nextTask path IH]; intros current Hlinked Hin;
    [by apply elem_of_nil in Hin|].
  destruct Hlinked as (_ & _ & Hprev & _ & Hrest).
  apply elem_of_cons in Hin as [->|Hin].
  - exists current. split; [by left|done].
  - destruct (IH _ Hrest Hin) as (before & Hbefore & Hp).
    exists before. split; [by right|done].
Qed.

(** X19.  On a snapshot in which every task is stored once under its
    own identifier and no status has the name of a member of
    [Object.prototype], the two diagnostics agree: when
    [checkTaskChains] reports nothing, [analyzeTaskChains] runs to its
    end and finds, for every status it looks at, no orphan and at most
    one head, exactly one if the status has tasks. *)
Theorem clean_check_means_no_orphans (data : Data) (statusId : string) :
  keyed_by_id (taskList data) →
  Forall (λ task, Task.status task ∉ inherited) (values (taskList data)) →
  checkTaskChains data = Normal [] →
  ∃ tasksByStatus,
    groupByStatus (taskList data) = Normal tasksByStatus
    ∧ completion (analyzeTaskChains data) = Normal tt
    ∧ (statusId ∈ problemStatuses →
       orphans (taskList data) statusId (tasksOf tasksByStatus statusId) = []
       ∧ length (heads (tasksOf tasksByStatus statusId))
         = (if decide (tasksOf tasksByStatus statusId = []) then 0 else 1)
       ∧ analyzeStatus (taskList data) tasksByStatus statusId
         `sublist_of` trace (analyzeTaskChains data)).
Proof.
  intros Hkeyed Hplain Hclean.
  destruct (groupByStatus_returns _ Hplain) as [groups Hgroups].
  exists groups. split; [done|].
  unfold analyzeTaskChains, groupTasks. rewrite Hgroups. split; [done|].
  intros Hstatus. rewrite (tasksOf_grouped data statusId groups Hgroups).
  assert (Hlogged :
    analyzeStatus (taskList data) groups statusId
    `sublist_of` flat_map (analyzeStatus (taskList data) groups) problemStatuses).
  { clear -Hstatus. induction problemStatuses as [|s l IH]; [by apply elem_of_nil in Hstatus|].
    cbn [flat_map]. apply elem_of_cons in Hstatus as [->|Hin].
    - by apply sublist_inserts_r.
    - by apply sublist_inserts_l, IH. }
  destruct (decide (tasksInStatus data statusId = [])) as [Hnone|Hsome].
  { rewrite Hnone. by split_and!. }
  unfold checkTaskChains in Hclean.
  destruct (findIssues data) as [issues|e] eqn:Hfound; [|done].
  injection Hclean as Hclean. apply fmap_nil_inv in Hclean. subst issues.
  assert (Hnothing :
    checkStatus (taskList data) (statusId, tasksInStatus data statusId) = []).
  { destruct (checkStatus _ _) as [|issue rest] eqn:Hcheck; [done|]. exfalso.
    assert (Hin : issue ∈ @nil Issue); [|by apply elem_of_nil in Hin].
    apply (checkStatus_reported data statusId []); [exact Hfound|exact Hsome|].
    pose proof (list_elem_of_here issue rest) as Hhere.
    rewrite <- Hcheck in Hhere. exact Hhere. }
  destruct (checkStatus_path _ _ Hnothing) as (head & path & Hheads & Hperm & _ & _ & Hlinked).
  split_and!; [|unfold heads; by rewrite Hheads|done].
  apply filter_none. intros task Hin. rewrite <- Hperm in Hin.
  assert (Hhead : isHead head).
  { assert (Hh : head ∈ filter isHead (tasksInStatus data statusId))
      by (rewrite Hheads; by left).
    by apply list_elem_of_filter in Hh as [? _]. }
  unfold isHead in Hhead.
  unfold isOrphan. apply elem_of_cons in Hin as [->|Hin]; [rewrite Hhead; tauto|].
  destruct (linked_path_prev _ _ _ _ _ Hlinked Hin) as (before & Hbefore & ->).
  rewrite Hperm in Hbefore. apply list_elem_of_filter in Hbefore as [Hst Hval].
  rewrite lookupTask_of_value by done. tauto.
Qed.

End AnalyzeTaskChainsProps.

(** ** The main server and the page guard *)

Section ServerProps.

Import Server.

Lemma prefix_app (needle rest : string) : String.prefix needle (needle +:+ rest) = true.
Proof.
  induction needle as [|c needle IH]; [by destruct rest|].
  simpl. by destruct (ascii_dec c c).
Qed.

Lemma includes_prefix (needle hay : string) :
  String.prefix needle hay = true → includes needle hay = true.
Proof. intros Hp. destruct hay; cbn [includes]; by rewrite Hp. Qed.

Lemma includes_app (needle before after : string) :
  includes needle (before +:+ needle +:+ after) = true.
Proof.
  induction before as [|c before IH].
  - change ("" +:+ needle +:+ after) with (needle +:+ after).
    apply includes_prefix, prefix_app.
  - change (String c before +:+ needle +:+ after)
      with (String c (before +:+ needle +:+ after)).
    cbn [includes]. rewrite IH. apply orb_true_r.
Qed.

Lemma append_nonempty (before needle after : string) :
  needle ≠ "" → before +:+ needle +:+ after ≠ "".
Proof. destruct before, needle; try done. Qed.

(** X20.  The origin check lets every origin through that has
    [.vercel.app] or [.onrender.com] anywhere in it, whatever the
    environment says and whatever follows the name; and every origin
    it lets through in production it lets through in any other
    environment. *)
Theorem cors_lets_hosting_names_through
    (env : Env) (origin : option string) (before after : string) :
  corsOrigin env (Some (before +:+ ".vercel.app" +:+ after)) = Allow
  ∧ corsOrigin env (Some (before +:+ ".onrender.com" +:+ after)) = Allow
  ∧ (corsOrigin {| ALLOWED_ORIGINS := ALLOWED_ORIGINS env;
                   NODE_ENV := Some "production" |} origin = Allow →
     corsOrigin env origin = Allow).
Proof.
  split_and!.
  - unfold corsOrigin. cbn [truthy default from_option id].
    rewrite (proj2 (String.eqb_neq _ _)) by (by apply append_nonempty).
    cbn [negb]. rewrite includes_app. cbn [orb].
    destruct (bool_decide _); [done|]. by destruct (_ && _).
  - unfold corsOrigin. cbn [truthy default from_option id].
    rewrite (proj2 (String.eqb_neq _ _)) by (by apply append_nonempty).
    cbn [negb]. rewrite includes_app, orb_true_r.
    destruct (bool_decide _); [done|]. by destruct (_ && _).
  - unfold corsOrigin. cbn [ALLOWED_ORIGINS NODE_ENV].
    destruct (negb (truthy origin)); [done|].
    destruct (bool_decide (default "" origin ∈ _)); [done|].
    rewrite (bool_decide_eq_true_2 (Some "production" = Some "production")) by done.
    cbn [negb andb].
    destruct (includes ".vercel.app" _ || includes ".onrender.com" _); [|done].
    by destruct (_ && _).
Qed.

(** *** The status of the AI service comes back *)

Lemma isDigit_char (d : N) : isDigit (pretty_N_char d) = true.
Proof. unfold pretty_N_char. by repeat case_match. Qed.

Lemma digit_value (d : N) :
  (d < 10)%N → nat_of_ascii (pretty_N_char d) - 48 = N.to_nat d.
Proof.
  intros Hd. assert (Hn : N.to_nat d < 10) by lia.
  rewrite <- (N2Nat.id d) at 1. revert Hn. generalize (N.to_nat d). intros n Hn.
  do 10 (destruct n as [|n]; [done|]). lia.
Qed.

Lemma pretty_N_go_app (x : N) (s rest : string) :
  pretty_N_go x s +:+ rest = pretty_N_go x (s +:+ rest).
Proof.
  revert s. induction (N.lt_wf_0 x) as [x _ IH]; intros s.
  assert (x = 0 ∨ 0 < x)%N as [->|Hpos] by lia; [by rewrite !pretty_N_go_0|].
  rewrite (pretty_N_go_step x s), (pretty_N_go_step x (s +:+ rest)) by done.
  rewrite IH by (by apply N.div_lt). done.
Qed.

(** Reading back the digits [pretty] wrote. *)
Lemma parseDigits_pretty_go (x : N) (acc : nat) (s : string) :
  (0 < x)%N →
  ∃ k, parseDigits acc (pretty_N_go x s) = parseDigits (acc * 10 ^ k + N.to_nat x) s
       ∧ startsWithDigit (pretty_N_go x s) = true.
Proof.
  revert acc s. induction (N.lt_wf_0 x) as [x _ IH]; intros acc s Hpos.
  rewrite pretty_N_go_step by done.
  destruct (N.eq_0_gt_0_cases (x `div` 10)) as [Hsmall|Hbig].
  - rewrite Hsmall, pretty_N_go_0. exists 1. cbn [parseDigits startsWithDigit].
    rewrite isDigit_char. split; [|done]. f_equal.
    rewrite digit_value by (by apply N.mod_lt).
    pose proof (N.div_mod x 10 ltac:(done)) as Hdm. rewrite Hsmall in Hdm.
    set (r := (x `mod` 10)%N) in *. cbn [Nat.pow]. lia.
  - destruct (IH (x `div` 10)%N (N.div_lt x 10 Hpos eq_refl) acc
                (String (pretty_N_char (x `mod` 10)) s) Hbig) as (k & Hparse & Hstart).
    exists (S k). rewrite Hparse. cbn [parseDigits]. rewrite isDigit_char.
    split; [|done]. f_equal. rewrite digit_value by (by apply N.mod_lt).
    pose proof (N.div_mod x 10 ltac:(done)) as Hdm.
    set (r := (x `mod` 10)%N) in *. set (q := (x `div` 10)%N) in *.
    rewrite Nat.pow_succ_r'. set (p := 10 ^ k). lia.
Qed.

Lemma parseDigits_pretty (status : nat) (rest : string) :
  startsWithDigit rest = false →
  parseDigits 0 (pretty status +:+ rest) = status
  ∧ startsWithDigit (pretty status +:+ rest) = true.
Proof.
  intros Hrest. unfold pretty, pretty_nat, pretty, pretty_N.
  destruct (decide (N.of_nat status = 0%N)) as [Hzero|Hpos].
  - assert (status = 0) as -> by lia. cbn [decide_rel].
    change ("0" +:+ rest) with (String "0" rest). split; [|done].
    change (parseDigits 0 (String "0" rest)) with (parseDigits 0 rest).
    destruct rest as [|c rest]; [done|]. cbn in *. by rewrite Hrest.
  - rewrite pretty_N_go_app.
    destruct (parseDigits_pretty_go (N.of_nat status) 0 ("" +:+ rest)) as (k & -> & Hstart);
      [lia|].
    split; [|done]. change ("" +:+ rest) with rest.
    destruct rest as [|c rest]; cbn in *; [lia|]. rewrite Hrest. lia.
Qed.

Lemma substring_all (s : string) : String.substring 0 (String.length s) s = s.
Proof. induction s as [|c s IH]; [done|]. cbn. by rewrite IH. Qed.

Lemma matchStatus_unfold (s : string) :
  matchStatus s
  = if String.prefix "status: " s
       && startsWithDigit (String.substring 8 (String.length s - 8) s)
    then Some (parseDigits 0 (String.substring 8 (String.length s - 8) s))
    else match s with
         | EmptyString => None
         | String _ s' => matchStatus s'
         end.
Proof. by destruct s. Qed.

Lemma matchStatus_here (rest : string) :
  startsWithDigit rest = true →
  matchStatus ("status: " +:+ rest) = Some (parseDigits 0 rest).
Proof.
  intros Hstart. rewrite matchStatus_unfold, prefix_app.
  assert (String.substring 8 (String.length ("status: " +:+ rest) - 8)
            ("status: " +:+ rest) = rest) as ->.
  { change ("status: " +:+ rest)
      with (String "s" (String "t" (String "a" (String "t" (String "u"
              (String "s" (String ":" (String " " rest)))))))).
    cbn [String.length Nat.sub String.substring]. rewrite Nat.sub_0_r.
    apply substring_all. }
  by rewrite Hstart.
Qed.

(** X21.  When the AI service answers with a status that is not OK
    (a number of at most three digits), the chat route answers with
    that very status: the number written into the message of the error
    is read back from it.  The one exception is a body that has
    [fetch failed] in it, which is taken for a service that is down. *)
Theorem service_status_is_relayed (status : nat) (errorText : string) :
  status < 1000 →
  includes "fetch failed" (message (serviceError status errorText)) = false →
  answerFor (serviceError status errorText)
  = {| Server.status := status; error := "AI service error";
       a_message := "AI service encountered an error";
       service_status := Some ("error_" +:+ pretty status); fallback := false |}.
Proof.
  intros _ Hup. unfold answerFor. rewrite Hup.
  cbn [name code serviceError message String.eqb Ascii.eqb Bool.eqb].
  rewrite bool_decide_eq_false_2 by done. cbn [orb].
  assert (Hmatch : matchStatus ("AI service responded with status: " +:+ pretty status
                                  +:+ " - " +:+ errorText) = Some status).
  { destruct (parseDigits_pretty status (" - " +:+ errorText)) as [Hparse Hstart]; [done|].
    set (rest := pretty status +:+ " - " +:+ errorText) in *.
    change ("AI service responded with status: " +:+ rest)
      with ("AI service responded with " +:+ ("status: " +:+ rest)).
    rewrite <- Hparse. revert Hstart. generalize rest. clear. intros rest Hstart.
    cbn [String.append]. do 26 (cbn [matchStatus String.prefix]; cbn [andb]).
    by apply matchStatus_here. }
  assert (Hinc : includes "status:" ("AI service responded with status: " +:+ pretty status
                                       +:+ " - " +:+ errorText) = true).
  { change ("AI service responded with status: " +:+ pretty status +:+ " - " +:+ errorText)
      with ("AI service responded with " +:+ "status:"
              +:+ (" " +:+ pretty status +:+ " - " +:+ errorText)).
    apply includes_app. }
  by rewrite Hinc, Hmatch.
Qed.

End ServerProps.

Section ProtectedPageProps.

Import ProtectedPage.

(** X22.  The guard never throws; it sends the user to the login page
    exactly when the request for [/api/me] fails or is answered with a
    status that is not OK. *)
Theorem guard_navigates_iff_not_authenticated (env : Env) (net : FetchResult) :
  completion (checkAuthentication env net) = Normal tt
  ∧ (Navigate "/login" ∈ trace (checkAuthentication env net) ↔ net ≠ Fulfilled true).
Proof.
  unfold checkAuthentication. destruct net as [[]|e]; cbn; split; try done.
  - split; [|done]. intros Hin.
    repeat (apply elem_of_cons in Hin as [?|Hin]; [done|]). by apply elem_of_nil in Hin.
  - split; [done|]. intros _. do 2 right. by left.
  - split; [done|]. intros _. do 2 right. by left.
Qed.

End ProtectedPageProps.

(** ** The properties on sample inputs *)

Section Witnesses.

Import Samples.

Local Ltac sorted := cbn; repeat (constructor; try lia).

Lemma rate_limiter_window_bound_witness :
  length (RateLimiter.allowed_in_window 1000 1500 "a"
            (RateLimiter.serve calls (RateLimiter.new 2 1000)).1)
  ≤ Z.to_nat 2.
Proof.
  apply (rate_limiter_window_bound 2 1000 calls "a" 1500).
  sorted.
Defined.

Lemma rate_limiter_remaining_witness :
  RateLimiter.getRemainingRequests 1500 "a"
    (RateLimiter.serve calls (RateLimiter.new 2 1000)).2
  = Z.max 0 (2 - Z.of_nat (length (RateLimiter.allowed_in_window 1000 1500 "a"
                                     (RateLimiter.serve calls (RateLimiter.new 2 1000)).1)))
  ∧ (RateLimiter.isAllowed 1500 "a"
       (RateLimiter.serve calls (RateLimiter.new 2 1000)).2).1
    = bool_decide (0 < RateLimiter.getRemainingRequests 1500 "a"
                         (RateLimiter.serve calls (RateLimiter.new 2 1000)).2)%Z.
Proof.
  apply (rate_limiter_remaining 2 1000 calls "a" 1500).
  sorted.
Defined.

Lemma exempt_request_is_never_limited_witness :
  (IPRateLimiter.middleware None 0 unaddressedRequest smallLimiter).1.2
  = IPRateLimiter.Next None
  ∧ (IPRateLimiter.middleware None 0 unaddressedRequest smallLimiter).2 = smallLimiter.
Proof.
  apply (exempt_request_is_never_limited None 0 unaddressedRequest smallLimiter).
  right. repeat split; try reflexivity.
  - intros remoteAddress H. discriminate H.
  - intros header H. injection H as <-. reflexivity.
Defined.


Lemma cleanup_is_invisible_witness :
  (IPRateLimiter.serve None (arrivalsAt [100; 105]%Z)
     (IPRateLimiter.cleanup 100 staleLimiter)).1
  = (IPRateLimiter.serve None (arrivalsAt [100; 105]%Z) staleLimiter).1.
Proof.
  apply (cleanup_is_invisible None 100 (arrivalsAt [100; 105]%Z) staleLimiter).
  repeat (constructor; [cbn; lia |]). constructor.
Defined.

Lemma at_most_twice_the_limit_in_any_window_witness :
  length (IPRateLimiter.passed_in_window 10 11 "8.8.8.8"
            (IPRateLimiter.serve None (arrivalsAt [0; 10; 11; 11; 11]%Z)
               (IPRateLimiter.mk ∅ 2 10)).1)
  ≤ 2 * Z.to_nat 2 - 1.
Proof.
  apply (at_most_twice_the_limit_in_any_window None "8.8.8.8"
           (arrivalsAt [0; 10; 11; 11; 11]%Z) 2 10 11).
  - discriminate.
  - reflexivity.
  - sorted.
Defined.

(** The bound is attained: two requests per ten milliseconds, and
    three requests let through between the instants 2 and 11. *)
Example three_of_two_per_window :
  length (IPRateLimiter.passed_in_window 10 11 "8.8.8.8"
            (IPRateLimiter.serve None (arrivalsAt [0; 10; 11; 11; 11]%Z)
               (IPRateLimiter.mk ∅ 2 10)).1)
  = 3.
Proof. vm_compute. reflexivity. Qed.

(** A text of more than 1000 code units may come out with a space at
    its end, which a second pass removes. *)
Example sanitizeText_cut_at_a_space :
  last (Helpers.sanitizeText (Some longText)) = Some 32%N
  ∧ Helpers.sanitizeText (Some (Helpers.sanitizeText (Some longText)))
    ≠ Helpers.sanitizeText (Some longText).
Proof. split; [vm_compute; reflexivity | vm_compute; discriminate]. Qed.

Lemma loadAllData_stores_under_id_witness :
  (Todolist.stored_under_id Task.id (LoadInitData.taskData threeTasksLoaded)
   ∧ Todolist.stored_under_id Project.id (LoadInitData.projectData threeTasksLoaded)
   ∧ Todolist.stored_under_id Status.id (LoadInitData.statusData threeTasksLoaded))
  ∧ LoadInitData.taskData threeTasksLoaded !! "T1"
    = Some (LoadInitData.toTask (taskJson "T1" "Buy bread"))
  ∧ LoadInitData.taskData threeTasksLoaded !! "__proto__" = None
  ∧ LoadInitData.taskData threeTasksLoaded !! "T2" = None.
Proof.
  destruct (loadAllData_stores_under_id
              (λ path, emit (LoadInitData.Navigate path))
              (LoadInitData.FetchResolves threeTasksResponse) threeTasksLoaded)
    as [Hkeyed Hkept]; [vm_compute; reflexivity|].
  split; [exact Hkeyed|].
  pose proof (Hkept threeTasksResponse sentTasks [] [] emptyUserProfile
                eq_refl eq_refl eq_refl) as Hlast.
  split; [exact (proj1 (Hlast "T1"))|].
  split; [exact (proj1 (Hlast "__proto__"))|exact (proj1 (Hlast "T2"))].
Defined.

Lemma failed_load_changes_nothing_witness :
  ∃ d, LoadInitData.loadAllData (λ path, emit (LoadInitData.Navigate path))
         (LoadInitData.FetchRejects (NetworkError "offline"))
       = Fulfilled d
       ∧ (Todolist.onLoaded d Scenario.board).2 = Scenario.board
       ∧ Forall (λ line, ∃ msg, line = Todolist.Warn msg)
           (Todolist.onLoaded d Scenario.board).1.
Proof.
  apply (failed_load_changes_nothing (λ path, emit (LoadInitData.Navigate path))
           (LoadInitData.FetchRejects (NetworkError "offline")) Scenario.board).
  constructor.
Defined.

Lemma handleKeyboard_rolls_back_iff_a_step_fails_witness :
  let run := AddNewTask.handleKeyboard rejectedCommit Scenario.board "colA"
               {| Gesture.key := "Enter"; Gesture.value := "Buy milk" |} in
  completion run = Normal tt
  ∧ (Gestures.gesture_succeeds rejectedCommit →
     existsb Gesture.is_rollback (trace run) = false)
  ∧ (¬ Gestures.gesture_succeeds rejectedCommit →
     last (trace run) = Some (Gesture.RestoreBackup Gesture.backup_var)).
Proof.
  apply (handleKeyboard_rolls_back_iff_a_step_fails
           rejectedCommit Scenario.board "colA" "Buy milk").
  vm_compute. discriminate.
Defined.

Lemma idle_gestures_start_no_transaction_witness :
  (Gesture.key {| Gesture.key := "Escape"; Gesture.value := "x" |} ≠ "Enter" →
   Forall Gesture.outside_transaction
     (trace (AddNewTask.handleKeyboard rejectedCommit Scenario.board "colA"
               {| Gesture.key := "Escape"; Gesture.value := "x" |})))
  ∧ Forall Gesture.outside_transaction
      (trace (ProjectButton.handlePressEnterAndEscape rejectedCommit
                ("P1", Scenario.plain_project "P1" None None)
                {| Gesture.key := "Escape"; Gesture.value := "x" |}))
  ∧ Forall Gesture.outside_transaction
      (trace (ProjectButton.handleDeleteButton rejectedCommit
                ("P1", Scenario.plain_project "P1" None None))).
Proof.
  apply (idle_gestures_start_no_transaction rejectedCommit Scenario.board "colA"
           ("P1", Scenario.plain_project "P1" None None)
           {| Gesture.key := "Escape"; Gesture.value := "x" |}).
  - left. discriminate.
  - reflexivity.
Defined.

Lemma pseudo_columns_take_drops_and_no_new_tasks_witness :
  TodoColumn.isDropDisabled {| Todolist.showDeleted := true; Todolist.showCompleted := true |}
    {| Todolist.title := "Completed"; Todolist.bgColor := "#e6f2ff";
       Todolist.status := "P1-completed" |} = false
  ∧ TodoColumn.showsAddNewTask
      {| Todolist.title := "Completed"; Todolist.bgColor := "#e6f2ff";
         Todolist.status := "P1-completed" |} = false
  ∧ TodoColumn.borderColor
      {| Todolist.title := "Completed"; Todolist.bgColor := "#e6f2ff";
         Todolist.status := "P1-completed" |} = "black".
Proof.
  apply (pseudo_columns_take_drops_and_no_new_tasks Scenario.board
           {| Todolist.showDeleted := true; Todolist.showCompleted := true |}).
  vm_compute. right. left.
Defined.

Lemma generated_task_goes_to_head_of_focused_project_witness :
  ∃ target,
    target ∈ boardStatuses
    ∧ Some (Status.project target) = UserProfile.lastProjectId (userProfile Scenario.board)
    ∧ AIChatPanel.nt_status generated = Status.id target
    ∧ AIChatPanel.nt_prev generated = None
    ∧ match AIChatPanel.nt_next generated with
      | Some id =>
          ∃ first, first ∈ boardTasks ∧ Task.id first = id
                   ∧ Task.status first = Status.id target ∧ Task.prev first = None
      | None =>
          ∀ task, task ∈ boardTasks → Task.status task = Status.id target →
                  Task.prev task ≠ None
      end.
Proof.
  apply (generated_task_goes_to_head_of_focused_project (λ s, s) taskSuggested
           (userProfile Scenario.board) boardStatuses boardTasks
           AIChatPanel.initialMessages "add a report task"
           generated Gesture.backup_var false).
  vm_compute. do 5 right. left.
Defined.

Lemma clean_check_means_no_orphans_witness :
  ∃ tasksByStatus,
    AnalyzeChains.groupByStatus (AnalyzeChains.taskList chainData) = Normal tasksByStatus
    ∧ completion (AnalyzeTaskChains.analyzeTaskChains chainData) = Normal tt
    ∧ ("status_deleted" ∈ AnalyzeTaskChains.problemStatuses →
       AnalyzeTaskChains.orphans (AnalyzeChains.taskList chainData) "status_deleted"
         (AnalyzeTaskChains.tasksOf tasksByStatus "status_deleted")
       = []
       ∧ length (AnalyzeTaskChains.heads
                   (AnalyzeTaskChains.tasksOf tasksByStatus "status_deleted"))
         = (if decide (AnalyzeTaskChains.tasksOf tasksByStatus "status_deleted" = [])
            then 0 else 1)
       ∧ AnalyzeTaskChains.analyzeStatus (AnalyzeChains.taskList chainData)
           tasksByStatus "status_deleted"
         `sublist_of` trace (AnalyzeTaskChains.analyzeTaskChains chainData)).
Proof.
  apply (clean_check_means_no_orphans chainData "status_deleted").
  - apply (bool_decide_unpack _). vm_compute. reflexivity.
  - apply (bool_decide_unpack _). vm_compute. reflexivity.
  - vm_compute. reflexivity.
Defined.

Lemma service_status_is_relayed_witness :
  Server.answerFor (Server.serviceError 404 "Not Found")
  = {| Server.status := 404; Server.error := "AI service error";
       Server.a_message := "AI service encountered an error";
       Server.service_status := Some "error_404"; Server.fallback := false |}.
Proof.
  apply (service_status_is_relayed 404 "Not Found").
  - lia.
  - vm_compute. reflexivity.
Defined.

End Witnesses.
